(** * MusicLibraryCleanup: the canonicalization and deduplication engine

    A shallow embedding of [cleanup.py].  Python [str] values are modelled
    as [string] (sequences of 8-bit characters); the character classes of
    the [re] module and [str.lower] are given on the ASCII range, and a
    character above code 127 is treated as a symbol that is neither a word
    character nor white space and that [lower] leaves alone.  Dictionaries
    are [gmap]s, except where the iteration order of a dictionary is
    observed by the code: there an association list in insertion order is
    used.  The calls of the [os] module that change the file system act on
    a file system that is given by its operations. *)

From Stdlib Require Import Ascii String ZArith Lia.
From stdpp Require Import base option list strings gmap pretty.

Local Open Scope Z_scope.

(** ** Characters *)

Module Char.

Definition code (c : ascii) : N := N_of_ascii c.

Definition between (lo hi : N) (c : ascii) : bool :=
  ((lo <=? code c) && (code c <=? hi))%N.

Definition is_upper : ascii → bool := between 65 90.
Definition is_lower : ascii → bool := between 97 122.
Definition is_digit : ascii → bool := between 48 57.

(** [str.lower] on one character. *)
Definition lower (c : ascii) : ascii :=
  if is_upper c then ascii_of_N (code c + 32) else c.

(** [\s] of a [str] pattern: the characters for which [str.isspace]
    holds, that is codes 9 to 13, 28 to 31 and 32. *)
Definition is_space (c : ascii) : bool :=
  between 9 13 c || between 28 32 c.

(** [\w] of a [str] pattern: letters, digits and the underscore. *)
Definition is_word (c : ascii) : bool :=
  is_upper c || is_lower c || is_digit c || (code c =? 95)%N.

Definition eqb (c d : ascii) : bool := (code c =? code d)%N.

(** [.] without [re.DOTALL]: anything but a line feed. *)
Definition dot (c : ascii) : bool := negb (code c =? 10)%N.

End Char.

(** ** Strings *)

Fixpoint smap (f : ascii → ascii) (s : string) : string :=
  match s with
  | EmptyString => EmptyString
  | String c r => String (f c) (smap f r)
  end.

Fixpoint sfilter (p : ascii → bool) (s : string) : string :=
  match s with
  | EmptyString => EmptyString
  | String c r => if p c then String c (sfilter p r) else sfilter p r
  end.

Fixpoint sall (p : ascii → bool) (s : string) : bool :=
  match s with
  | EmptyString => true
  | String c r => p c && sall p r
  end.

Fixpoint sdrop (n : nat) (s : string) : string :=
  match n, s with
  | O, _ => s
  | S k, EmptyString => EmptyString
  | S k, String _ r => sdrop k r
  end.

(** [s.lower()] *)
Definition str_lower (s : string) : string := smap Char.lower s.

(** [s.lstrip(chars)], [s.rstrip(chars)] and [s.strip(chars)], the set of
    characters given as a predicate. *)
Fixpoint lstrip (p : ascii → bool) (s : string) : string :=
  match s with
  | EmptyString => EmptyString
  | String c r => if p c then lstrip p r else s
  end.

Fixpoint rstrip (p : ascii → bool) (s : string) : string :=
  match s with
  | EmptyString => EmptyString
  | String c r =>
      match rstrip p r with
      | EmptyString => if p c then EmptyString else String c EmptyString
      | r' => String c r'
      end
  end.

Definition strip (p : ascii → bool) (s : string) : string :=
  lstrip p (rstrip p s).

(** [s.startswith(t)] and [s.endswith(t)] *)
Fixpoint startswith (s t : string) : bool :=
  match t, s with
  | EmptyString, _ => true
  | String _ _, EmptyString => false
  | String d t', String c s' => Char.eqb c d && startswith s' t'
  end.

Definition endswith (s t : string) : bool :=
  startswith (String.rev s) (String.rev t).

Definition str_eqb (s t : string) : bool := bool_decide (s = t).

(** ** Regular expressions

    The fragment of [re] that the program uses, with the backtracking
    order of the [re] module: a pattern is matched against a string and
    a continuation receives the unmatched rest. *)

Inductive re : Type :=
| Lit (c : ascii)              (* a literal character *)
| Cls (p : ascii → bool)       (* a character class *)
| Seq (r1 r2 : re)
| Opt (r : re)                 (* r?, greedy *)
| Star (p : ascii → bool)      (* [p]*, greedy, over a character class *)
| NotAhead (r : re)            (* (?!r) *)
| Eos.                         (* $, without re.MULTILINE *)

Section Matching.

(** [re.IGNORECASE] *)
Variable ignorecase : bool.

Definition lit_eq (c d : ascii) : bool :=
  if ignorecase then Char.eqb (Char.lower c) (Char.lower d)
  else Char.eqb c d.

Fixpoint star_go (p : ascii → bool) (s : string)
    (k : string → option string) : option string :=
  match s with
  | EmptyString => k s
  | String c r =>
      if p c then
        match star_go p r k with
        | Some x => Some x
        | None => k s
        end
      else k s
  end.

Fixpoint re_go (r : re) (s : string) (k : string → option string)
    : option string :=
  match r with
  | Lit c =>
      match s with
      | String d s' => if lit_eq c d then k s' else None
      | EmptyString => None
      end
  | Cls p =>
      match s with
      | String d s' => if p d then k s' else None
      | EmptyString => None
      end
  | Seq r1 r2 => re_go r1 s (λ s', re_go r2 s' k)
  | Opt r1 =>
      match re_go r1 s k with
      | Some x => Some x
      | None => k s
      end
  | Star p => star_go p s k
  | NotAhead r1 =>
      match re_go r1 s Some with
      | Some _ => None
      | None => k s
      end
  | Eos =>
      (* at the end, or just before a line feed that ends the string *)
      match s with
      | EmptyString => k s
      | String c EmptyString => if (Char.code c =? 10)%N then k s else None
      | _ => None
      end
  end.

(** The length of the match of [r] at the start of [s], if any. *)
Definition match_len (r : re) (s : string) : option nat :=
  match re_go r s Some with
  | Some rest => Some (String.length s - String.length rest)%nat
  | None => None
  end.

(** [re.sub(r, repl, s)]: the string is scanned from the left; where the
    pattern matches, the match is replaced by [repl] and the scan goes on
    after it.  [skip] counts the characters of a match still to be
    passed over.  No pattern of the program matches the empty string, so
    empty matches are not replaced. *)
Fixpoint re_sub_go (r : re) (repl : string) (skip : nat) (s : string)
    : string :=
  match s with
  | EmptyString => EmptyString
  | String c t =>
      match skip with
      | S k => re_sub_go r repl k t
      | O =>
          match match_len r s with
          | Some (S k) => repl +:+ re_sub_go r repl k t
          | _ => String c (re_sub_go r repl O t)
          end
      end
  end.

Definition re_sub (r : re) (repl s : string) : string :=
  re_sub_go r repl O s.

End Matching.

(** A sequence of literal characters. *)
Fixpoint lits (s : string) (tail : re) : re :=
  match s with
  | EmptyString => tail
  | String c r => Seq (Lit c) (lits r tail)
  end.

Definition ws : re := Cls Char.is_space.
Definition rest_of_line : re := Seq (Star Char.dot) Eos.   (* .*$ *)

(** ** Name normalization *)

(** [[^\w\s]] *)
Definition not_word_space (c : ascii) : bool :=
  negb (Char.is_word c || Char.is_space c).

(** [[^\w\s&]] *)
Definition not_word_space_amp (c : ascii) : bool :=
  negb (Char.is_word c || Char.is_space c || Char.eqb c "&").

Definition normalize_string (s : string) : string :=
  re_sub false (Cls not_word_space) EmptyString (str_lower s).

(** The last featuring pattern: an ampersand, and what follows it, unless
    "the" and white space follow. *)
Definition ampersand_pattern : re :=
  Seq ws (lits "&" (Seq ws
    (Seq (NotAhead (lits "the" ws)) rest_of_line))).          (* \s&\s(?!the\s).*$ *)

Definition featuring_patterns : list re :=
  [ Seq (Lit ",") rest_of_line;                               (* ,.*$ *)
    Seq ws (lits "feat." rest_of_line);                       (* \sfeat\..*$ *)
    Seq ws (lits "ft." rest_of_line);                         (* \sft\..*$ *)
    Seq ws (lits "with" (Seq ws rest_of_line));               (* \swith\s.*$ *)
    Seq ws (lits "x" (Seq ws rest_of_line));                  (* \sx\s.*$ *)
    Seq ws (lits "vs" (Seq (Opt (Lit ".")) (Seq ws rest_of_line)));
                                                              (* \svs\.?\s.*$ *)
    ampersand_pattern ].

Definition strip_featuring (name : string) : string :=
  foldl (λ name pattern, re_sub true pattern EmptyString name) name featuring_patterns.

Definition collapse : re := Seq ws (Star Char.is_space).   (* \s+ *)

Definition and_the : re := Seq ws (lits "and" (Seq ws (lits "the" ws))).

Definition normalize_artist_name (artist : string) : string :=
  let name := str_lower artist in
  let name := strip_featuring name in
  let name := re_sub false (Cls not_word_space_amp) EmptyString name in
  let name := re_sub false collapse " " name in
  let name := re_sub false and_the " & the " name in
  strip Char.is_space name.


(** ** Paths and file names *)

(** [s.split(sep)[0]]: the part of [s] before the first [sep]. *)
Fixpoint split_head (sep : ascii) (s : string) : string :=
  match s with
  | EmptyString => EmptyString
  | String c r => if Char.eqb c sep then EmptyString else String c (split_head sep r)
  end.

Fixpoint zeros (n : nat) : string :=
  match n with
  | O => EmptyString
  | S k => String "0" (zeros k)
  end.

(** [s.zfill(width)]: zeros are added on the left, after a leading sign. *)
Definition zfill (width : nat) (s : string) : string :=
  let fill := (width - String.length s)%nat in
  match fill with
  | O => s
  | _ =>
      match s with
      | String c r =>
          if Char.eqb c "+" || Char.eqb c "-"
          then String c (zeros fill +:+ r)
          else zeros fill +:+ s
      | EmptyString => zeros fill
      end
  end.

(** [s.rfind(c)], as the pair [(s[:i], s[i:])] of the parts before and from
    the last occurrence of [c]. *)
Fixpoint rsplit_at (c : ascii) (s : string) : option (string * string) :=
  match s with
  | EmptyString => None
  | String d r =>
      match rsplit_at c r with
      | Some (h, t) => Some (String d h, t)
      | None => if Char.eqb d c then Some (EmptyString, s) else None
      end
  end.

(** [os.path.splitext(p)[1]] (posixpath): the extension starts at the last
    dot of the last path component, dots that lead the component apart. *)
Definition splitext_ext (p : string) : string :=
  let name :=
    match rsplit_at "/" p with
    | Some (_, String _ n) => n
    | _ => p
    end in
  match rsplit_at "." name with
  | Some (h, t) => if sall (λ c, Char.eqb c ".") h then EmptyString else t
  | None => EmptyString
  end.

(** [Path(f).suffix] for a file name [f] as [os.walk] lists it (one path
    component). *)
Definition path_suffix (f : string) : string :=
  match rsplit_at "." f with
  | Some (h, t) =>
      if (0 <? String.length h)%nat && (1 <? String.length t)%nat
      then t else EmptyString
  | None => EmptyString
  end.

(** [os.path.join(a, b)] (posixpath) *)
Definition path_join (a b : string) : string :=
  if startswith b "/" then b
  else if str_eqb a EmptyString || endswith a "/" then a +:+ b
  else a +:+ "/" +:+ b.

(** The class of characters that [sanitize_filename] removes: the angle
    brackets, colon, double quote (code 34), slash, backslash, bar, question
    mark and star. *)
Definition is_invalid_char (c : ascii) : bool :=
  existsb (Char.eqb c)
    [ "<"; ">"; ":"; "034"; "/"; "\"; "|"; "?"; "*" ]%char.

Definition sanitize_filename (filename : string) : string :=
  let sanitized := re_sub false (Cls is_invalid_char) EmptyString filename in
  strip (λ c, Char.eqb c "." || Char.eqb c " ") sanitized.

Definition MUSIC_EXTENSIONS : list string := [".mp3"; ".m4a"; ".flac"; ".wav"].

Definition is_music_file (f : string) : bool :=
  bool_decide (str_lower (path_suffix f) ∈ MUSIC_EXTENSIONS).

(** ** Metadata *)

Record Metadata : Type := mkMetadata {
  artist : string;
  album : string;
  title : string;
  tracknumber : string
}.

(** A Python call either returns or raises; [Raise] carries [str(e)]. *)
Inductive result (A : Type) : Type :=
| Ok (a : A)
| Raise (msg : string).
Arguments Ok {A} a.
Arguments Raise {A} msg.

(** What the tag library finds in a file: [EasyID3(path)] and [File(path)]
    raise, or [File(path)] returns [None] or an object without tags, or
    there is a mapping from tag names to lists of text values. *)
Inductive tag_source : Type :=
| TagsRaise (msg : string)
| TagsAbsent
| Tags (t : gmap string (list string)).

(** What the file system holds under a path. *)
Record FileInfo : Type := mkFileInfo {
  fi_tags : tag_source;
  fi_digest : result string;     (* [get_file_hash]: the digest, or an I/O error *)
  fi_size : result Z             (* [os.path.getsize] *)
}.

(** [tags.get(key, [''])[0]]; [None] stands for the [IndexError] of an
    empty list. *)
Definition first_value (t : gmap string (list string)) (key : string)
    : option string :=
  head (default [EmptyString] (t !! key)).

(** The part that the two branches of [get_audio_metadata] share: the test
    for the keys 'title' and 'artist', and the record of the first values.
    The tag values of the model are text, so that the test
    [isinstance(tracknumber, str)] of the second branch always holds. *)
Definition read_metadata (t : gmap string (list string)) : option Metadata :=
  if bool_decide (t !! "title" = None) || bool_decide (t !! "artist" = None)
  then None
  else
    a ← first_value t "artist";
    b ← first_value t "album";
    c ← first_value t "title";
    n ← first_value t "tracknumber";
    Some (mkMetadata a b c (zfill 2 (split_head "/" n))).

Definition generate_new_filename (metadata : Metadata) (original_path : string)
    : string :=
  let ext := str_lower (splitext_ext original_path) in
  let track_num := tracknumber metadata in
  let title := sanitize_filename (title metadata) in
  if str_eqb track_num EmptyString
  then title +:+ ext
  else track_num +:+ " - " +:+ title +:+ ext.

(** ** Ordered dictionaries

    A Python [dict] whose iteration order the code observes
    ([album_mappings[artist].values()]): keys in insertion order. *)

Fixpoint dict_get {V : Type} (d : list (string * V)) (k : string) : option V :=
  match d with
  | [] => None
  | (k', v) :: d' => if str_eqb k k' then Some v else dict_get d' k
  end.

(** [d[k] = v]: a key already present keeps its position. *)
Fixpoint dict_set {V : Type} (d : list (string * V)) (k : string) (v : V)
    : list (string * V) :=
  match d with
  | [] => [(k, v)]
  | (k', v') :: d' =>
      if str_eqb k k' then (k', v) :: d' else (k', v') :: dict_set d' k v
  end.

Definition dict_values {V : Type} (d : list (string * V)) : list V := d.*2.

(** ** Fuzzy matching *)

(** One row of the table of longest-common-subsequence lengths: [prev] is
    the row for the characters of [a] read so far against every prefix of
    [b], [left] and [diag] the entries to the left of and diagonally above
    the one computed next. *)
Fixpoint lcs_row (x : ascii) (b : string) (prev : list nat) (diag left : nat)
    : list nat :=
  match b, prev with
  | String y b', up :: prev' =>
      let here := if Char.eqb x y then S diag else Nat.max up left in
      here :: lcs_row x b' prev' up here
  | _, _ => []
  end.

Fixpoint lcs_rows (a b : string) (prev : list nat) : list nat :=
  match a with
  | EmptyString => prev
  | String x a' => lcs_rows a' b (lcs_row x b prev O O)
  end.

Definition lcs_length (a b : string) : nat :=
  List.last (lcs_rows a b (repeat O (String.length b))) O.

(** Modelled from the spec: [fuzz.ratio] of the fuzzywuzzy package, which is
    not part of the repository: a score from 0 to 100, the rounded
    percentage [2 * M / T] of an edit-distance ratio, [T] the total length
    of the two strings and [M] the number of matching characters (here: of
    a longest common subsequence).  The package returns 100 for equal
    arguments and 0 when one of two different arguments is empty. *)
Definition fuzz_ratio (a b : string) : Z :=
  if str_eqb a b then 100
  else if str_eqb a EmptyString || str_eqb b EmptyString then 0
  else
    let m := Z.of_nat (lcs_length a b) in
    let t := Z.of_nat (String.length a + String.length b) in
    (2 * (200 * m) + t) / (2 * t).

(** ** The registry of canonical names, and the analysis pass *)

Record DirectoryManager : Type := mkDirectoryManager {
  artist_mappings : gmap string string;
  album_mappings : gmap string (list (string * string));
  canonical_cases : gmap string string
}.

(** [DirectoryManager()] *)
Definition new_manager : DirectoryManager :=
  mkDirectoryManager ∅ ∅ ∅.

(** A method returns its result and the registry as it has left it. *)
Definition get_canonical_artist (self : DirectoryManager) (artist : string)
    : string * DirectoryManager :=
  let normalized := normalize_artist_name artist in
  match artist_mappings self !! normalized with
  | Some canonical => (canonical, self)
  | None =>
      let store :=
        mkDirectoryManager (<[normalized := artist]> (artist_mappings self))
          (album_mappings self)
          (<[normalized := artist]> (canonical_cases self)) in
      match canonical_cases self !! normalized with
      | None => (artist, store)
      | Some known =>
          if (String.length known <? String.length artist)%nat
          then (artist, store)
          else (known, self)
      end
  end.

(** The albums registered under a canonical artist;
    [album_mappings] is a [defaultdict(dict)]. *)
Definition albums_of (self : DirectoryManager) (canonical_artist : string)
    : list (string * string) :=
  default [] (album_mappings self !! canonical_artist).

Definition set_album (self : DirectoryManager)
    (canonical_artist normalized_album name : string) : DirectoryManager :=
  mkDirectoryManager (artist_mappings self)
    (<[canonical_artist :=
         dict_set (albums_of self canonical_artist) normalized_album name]>
       (album_mappings self))
    (canonical_cases self).

(** The record that [MusicFile(path)] builds. *)
Record MusicFile : Type := mkMusicFile {
  mf_path : string;
  mf_hash : string;
  mf_metadata : Metadata;
  mf_size : Z;
  mf_new_filename : string
}.

Record MoveEntry : Type := mkMoveEntry {
  original_path : string;
  current_filename : string;
  new_filename : string;
  move_metadata : Metadata
}.

Record SkipRecord : Type := mkSkipRecord {
  skip_path : string;
  reason : string
}.

(** The local variables of [analyze_music_directory]. *)
Record Analysis : Type := mkAnalysis {
  proposed_moves : gmap string (list MoveEntry);
  unique_files : gmap string MusicFile;
  duplicates : gmap string (list string);
  skipped_files : list SkipRecord;
  directory_manager : DirectoryManager
}.

Section Engine.

(** [fuzz.ratio] *)
Variable ratio : string → string → Z.

(** The file system: what is found under each path. *)
Variable fs : string → FileInfo.

(** The loop carries [(highest_ratio, best_match)]. *)
Definition find_similar_name (name : string) (existing_names : list string)
    (threshold : Z) : option string :=
  let normalized_name := normalize_string name in
  snd (foldl
    (λ '(highest_ratio, best_match) existing,
       let normalized_existing := normalize_string existing in
       let r := ratio normalized_name normalized_existing in
       if (highest_ratio <? r) && (threshold <=? r)
       then (r, Some existing)
       else (highest_ratio, best_match))
    (0, None) existing_names).

(** [if similar_album:] holds for a match that is not the empty string. *)
Definition get_canonical_album (self : DirectoryManager)
    (artist album : string) : string * DirectoryManager :=
  let '(canonical_artist, self) := get_canonical_artist self artist in
  let normalized_album := normalize_string album in
  match dict_get (albums_of self canonical_artist) normalized_album with
  | Some known => (known, self)
  | None =>
      let similar_album :=
        find_similar_name album
          (dict_values (albums_of self canonical_artist)) 85 in
      match similar_album with
      | Some (String c r as similar) =>
          (similar, set_album self canonical_artist normalized_album similar)
      | _ =>
          (album, set_album self canonical_artist normalized_album album)
      end
  end.

Definition get_file_hash (filepath : string) : result string :=
  fi_digest (fs filepath).

Definition get_audio_metadata (filepath : string) : option Metadata :=
  if endswith (str_lower filepath) ".mp3" then
    (* audio = EasyID3(filepath) *)
    match fi_tags (fs filepath) with
    | Tags audio => read_metadata audio
    | _ => None
    end
  else
    (* audio = File(filepath) *)
    match fi_tags (fs filepath) with
    | Tags tags =>
        if bool_decide (tags = ∅) then None else read_metadata tags
    | _ => None
    end.

(** [MusicFile(path)]; with no metadata, [generate_new_filename] raises a
    [TypeError]. *)
Definition new_MusicFile (path : string) : result MusicFile :=
  match get_file_hash path with
  | Raise e => Raise e
  | Ok hash =>
      let metadata := get_audio_metadata path in
      match fi_size (fs path) with
      | Raise e => Raise e
      | Ok size =>
          match metadata with
          | None => Raise "'NoneType' object is not subscriptable"
          | Some m =>
              Ok (mkMusicFile path hash m size (generate_new_filename m path))
          end
      end
  end.

Definition skip (st : Analysis) (path why : string) : Analysis :=
  mkAnalysis (proposed_moves st) (unique_files st) (duplicates st)
    (skipped_files st ++ [mkSkipRecord path why]) (directory_manager st).

(** The body of the loop over the music files of one directory. *)
Definition process_file (root_dir dirpath : string) (st : Analysis)
    (filename : string) : Analysis :=
  let full_path := path_join dirpath filename in
  match get_audio_metadata full_path with
  | None => skip st full_path "Missing required metadata (title/artist)"
  | Some metadata =>
      let '(canonical_artist, dm) :=
        get_canonical_artist (directory_manager st) (artist metadata) in
      let '(canonical_album, dm) :=
        get_canonical_album dm canonical_artist (album metadata) in
      let metadata :=
        mkMetadata canonical_artist canonical_album (title metadata)
          (tracknumber metadata) in
      let st :=
        mkAnalysis (proposed_moves st) (unique_files st) (duplicates st)
          (skipped_files st) dm in
      match new_MusicFile full_path with
      | Raise e => skip st full_path ("Error processing file: " +:+ e)
      | Ok music_file =>
          let music_file :=
            mkMusicFile (mf_path music_file) (mf_hash music_file) metadata
              (mf_size music_file) (mf_new_filename music_file) in
          let hash := mf_hash music_file in
          match unique_files st !! hash with
          | Some _ =>
              mkAnalysis (proposed_moves st) (unique_files st)
                (<[hash := default [] (duplicates st !! hash) ++ [full_path]]>
                   (duplicates st))
                (skipped_files st) (directory_manager st)
          | None =>
              let new_path :=
                path_join
                  (path_join root_dir (sanitize_filename canonical_artist))
                  (sanitize_filename canonical_album) in
              mkAnalysis
                (<[new_path :=
                     default [] (proposed_moves st !! new_path) ++
                     [mkMoveEntry full_path filename
                        (mf_new_filename music_file) metadata]]>
                   (proposed_moves st))
                (<[hash := music_file]> (unique_files st))
                (duplicates st) (skipped_files st) (directory_manager st)
          end
      end
  end.

Definition new_analysis : Analysis :=
  mkAnalysis ∅ ∅ ∅ [] new_manager.

(** [analyze_music_directory(root_dir)]; [walk] is what
    [os.walk(root_dir)] yields: each directory path with its file names. *)
Definition analyze_music_directory (root_dir : string)
    (walk : list (string * list string)) : Analysis :=
  foldl
    (λ st '(dirpath, filenames),
       let music_files := filter (λ f, is_music_file f = true) filenames in
       foldl (process_file root_dir dirpath) st music_files)
    new_analysis walk.

End Engine.

(** ** Runs of the registry and of the analysis *)

(** A call of one of the two methods of a [DirectoryManager]. *)
Inductive call : Type :=
| ResolveArtist (artist : string)
| ResolveAlbum (artist album : string).

Definition do_call (ratio : string → string → Z) (self : DirectoryManager)
    (c : call) : DirectoryManager :=
  match c with
  | ResolveArtist a => (get_canonical_artist self a).2
  | ResolveAlbum a b => (get_canonical_album ratio self a b).2
  end.

(** The registry after a sequence of calls. *)
Definition run (ratio : string → string → Z) (cs : list call)
    (self : DirectoryManager) : DirectoryManager :=
  foldl (do_call ratio) self cs.

(** The raw artist spelling that a call passes to [get_canonical_artist]. *)
Definition spelling (c : call) : string :=
  match c with
  | ResolveArtist a => a
  | ResolveAlbum a _ => a
  end.

(** The first spelling with normalized key [k] among [l]. *)
Definition first_spelling (k : string) (l : list string) : option string :=
  head (filter (λ a, normalize_artist_name a = k) l).

(** The music files of a walk in the order in which the analysis reads
    them, each with its directory. *)
Definition music_entries (walk : list (string * list string))
    : list (string * string) :=
  walk ≫= λ '(dirpath, filenames),
    (λ f, (dirpath, f)) <$> filter (λ f, is_music_file f = true) filenames.

Definition full_path (e : string * string) : string := path_join e.1 e.2.

(** The digest under which the analysis observes a file: the file has
    metadata and [MusicFile(path)] returns. *)
Definition observed (fs : string → FileInfo) (path : string) : option string :=
  match get_audio_metadata fs path, new_MusicFile fs path with
  | Some _, Ok music_file => Some (mf_hash music_file)
  | _, _ => None
  end.

(** The paths among [l] that are observed under the digest [h]. *)
Definition observed_as (fs : string → FileInfo) (h : string) (l : list string)
    : list string :=
  filter (λ p, observed fs p = Some h) l.

(** The skip record that a file gets, if any. *)
Definition skip_of (fs : string → FileInfo) (path : string) : option SkipRecord :=
  match get_audio_metadata fs path with
  | None => Some (mkSkipRecord path "Missing required metadata (title/artist)")
  | Some _ =>
      match new_MusicFile fs path with
      | Raise e => Some (mkSkipRecord path ("Error processing file: " +:+ e))
      | Ok _ => None
      end
  end.

Definition in_move_plan (st : Analysis) (path : string) : Prop :=
  ∃ dir entries e,
    proposed_moves st !! dir = Some entries ∧ e ∈ entries ∧ original_path e = path.

Definition in_duplicates (st : Analysis) (h path : string) : Prop :=
  ∃ paths, duplicates st !! h = Some paths ∧ path ∈ paths.

(** The file under [path] has no tag [key]: the tag library finds no tags
    in it, or tags without this key. *)
Definition lacks_tag (fs : string → FileInfo) (path key : string) : Prop :=
  match fi_tags (fs path) with
  | Tags t => t !! key = None
  | _ => True
  end.

(** The analysis after the music files [es], read in this order, from the
    state [st]. *)
Definition analyze_entries (ratio : string → string → Z) (fs : string → FileInfo)
    (root_dir : string) (st : Analysis) (es : list (string * string)) : Analysis :=
  foldl (λ st e, process_file ratio fs root_dir e.1 st e.2) st es.

(** ** A small library, for examples

    Two copies of one song (the second with another spelling of artist and
    album and no track number), a file without an artist tag, a file that
    cannot be read, and a file whose artist tag is empty. *)

Definition tags_of (l : list (string * string)) : tag_source :=
  Tags (list_to_map ((λ kv, (kv.1, [kv.2])) <$> l)).

Definition example_fs (path : string) : FileInfo :=
  if str_eqb path "/music/in/a.mp3" then
    mkFileInfo
      (tags_of [("artist", "Queen"); ("album", "A Night at the Opera");
                ("title", "Bohemian Rhapsody"); ("tracknumber", "11/12")])
      (Ok "5f2a") (Ok 5900000)
  else if str_eqb path "/music/in/b.MP3" then
    mkFileInfo
      (tags_of [("artist", "QUEEN"); ("album", "A Nite at the Opera");
                ("title", "Bohemian Rhapsody")])
      (Ok "5f2a") (Ok 5900000)
  else if str_eqb path "/music/in/c.flac" then
    mkFileInfo (tags_of [("title", "Untitled"); ("album", "Demos")])
      (Ok "77c1") (Ok 1200)
  else if str_eqb path "/music/in/d.mp3" then
    mkFileInfo (tags_of [("artist", "Queen"); ("title", "Bicycle Race")])
      (Raise "[Errno 13] Permission denied") (Ok 4100000)
  else if str_eqb path "/music/in/e.mp3" then
    mkFileInfo (tags_of [("artist", EmptyString); ("title", "Intro")])
      (Ok "09be") (Ok 300000)
  else mkFileInfo TagsAbsent (Raise "[Errno 2] No such file or directory")
         (Raise "[Errno 2] No such file or directory").

Definition example_walk : list (string * list string) :=
  [("/music", ["cover.jpg"]);
   ("/music/in", ["a.mp3"; "b.MP3"; "notes.txt"; "c.flac"; "d.mp3"; "e.mp3"])].

(** [m] is the best match among [l]: it reaches the threshold 85, no name
    of [l] scores higher, and the names before it score lower. *)
Definition first_best (score : string → Z) (l : list string) (m : string) : Prop :=
  ∃ i, l !! i = Some m ∧ 85 ≤ score m ∧
    ∀ j x, l !! j = Some x → score x ≤ score m ∧ ((j < i)%nat → score x < score m).

(** The two artist dictionaries hold the same. *)
Definition registry_ok (dm : DirectoryManager) : Prop :=
  artist_mappings dm = canonical_cases dm.

(** Every canonical album name is registered under its own normalized
    key. *)
Definition albums_ok (dm : DirectoryManager) : Prop :=
  ∀ ca c, c ∈ dict_values (albums_of dm ca) →
    is_Some (dict_get (albums_of dm ca) (normalize_string c)).

(** ** The shape of normalized artist names *)

(** The characters of a normalized name: no capital letter, and a word
    character, a blank or an ampersand. *)
Definition tidy (c : ascii) : bool :=
  negb (Char.is_upper c) &&
  (Char.is_word c || Char.eqb c " " || Char.eqb c "&").

(** No white space follows white space; [after_space] tells whether the
    character before the string is white space. *)
Fixpoint spaced (after_space : bool) (s : string) : bool :=
  match s with
  | EmptyString => true
  | String c r =>
      if Char.is_space c then negb after_space && spaced true r
      else spaced false r
  end.

(** Every run of white space becomes one blank; [in_run] tells whether the
    string continues a run. *)
Fixpoint squeeze (in_run : bool) (s : string) : string :=
  match s with
  | EmptyString => EmptyString
  | String c r =>
      if Char.is_space c
      then if in_run then squeeze true r else String " " (squeeze true r)
      else String c (squeeze false r)
  end.

(** The length of the run of white space at the start of a string. *)
Fixpoint run_length (s : string) : nat :=
  match s with
  | String c r => if Char.is_space c then S (run_length r) else O
  | EmptyString => O
  end.

(** The pattern matches nowhere in the string. *)
Fixpoint no_match (ignorecase : bool) (r : re) (s : string) : Prop :=
  match s with
  | EmptyString => True
  | String _ t => match_len ignorecase r s = None ∧ no_match ignorecase r t
  end.

(** A lower-case letter or a digit. *)
Definition plain (c : ascii) : bool := Char.is_lower c || Char.is_digit c.

(** Neither white space nor a comma: no featuring pattern starts here. *)
Definition inner (c : ascii) : bool :=
  negb (Char.is_space c) && negb (Char.eqb c ",").

(** The pattern has no match that starts at an inner character. *)
Definition guarded (ignorecase : bool) (r : re) : Prop :=
  ∀ c u, inner c = true → match_len ignorecase r (String c u) = None.

(** The pattern has no match that starts at one of the blanks of
    " & the ". *)
Definition middle_fails (ignorecase : bool) (r : re) : Prop :=
  ∀ u, match_len ignorecase r (" & the " +:+ u) = None ∧
       match_len ignorecase r (" the " +:+ u) = None.

(** The words that start a featuring clause, or that the rewriting of
    "and the" changes, when white space surrounds them. *)
Definition trigger_words : list string := ["with"; "x"; "vs"; "and"].

(** A word of a name: lower-case letters and digits, at least one, and
    not a trigger word. *)
Definition name_word (w : string) : bool :=
  negb (str_eqb w EmptyString) && sall plain w &&
  negb (bool_decide (w ∈ trigger_words)).

(** What follows the first word of a name: nothing, or a blank and a
    word, or " & the " and a word, and so on. *)
Inductive name_tail : string → Prop :=
| tail_end : name_tail EmptyString
| tail_word w t :
    name_word w = true → name_tail t → name_tail (" " +:+ w +:+ t)
| tail_the w t :
    name_word w = true → name_tail t → name_tail (" & the " +:+ w +:+ t).

(** What follows a word: the end of the string, or a blank. *)
Definition after_word (t : string) : Prop :=
  t = EmptyString ∨ ∃ u, t = String " " u.

(** The pattern has no match that starts at the blank before a word of a
    name. *)
Definition blank_fails (ignorecase : bool) (r : re) : Prop :=
  ∀ w t, name_word w = true → after_word t →
    match_len ignorecase r (String " " (w +:+ t)) = None.

(** A character of a trigger: it matches no blank, and among the plain
    characters it matches itself only. *)
Definition trigger_char (ignorecase : bool) (c : ascii) : Prop :=
  lit_eq ignorecase c " " = false ∧
  ∀ d, plain d = true → lit_eq ignorecase c d = true → c = d.

Fixpoint trigger_word (ignorecase : bool) (w : string) : Prop :=
  match w with
  | EmptyString => True
  | String c r => trigger_char ignorecase c ∧ trigger_word ignorecase r
  end.

(** The pattern fails on a string that starts with a plain character. *)
Definition tail_fails (ignorecase : bool) (r : re) : Prop :=
  ∀ c u k, plain c = true → re_go ignorecase r (String c u) k = None.

(** ** The invariant of the analysis pass *)

(** The four ways in which the loop body ends for one file. *)
Inductive step_outcome (fs : string → FileInfo) (st : Analysis)
    (f : string * string) (st' : Analysis) : Prop :=
| step_no_metadata :
    get_audio_metadata fs (full_path f) = None →
    st' = skip st (full_path f) "Missing required metadata (title/artist)" →
    step_outcome fs st f st'
| step_raises m e dm :
    get_audio_metadata fs (full_path f) = Some m →
    new_MusicFile fs (full_path f) = Raise e →
    st' = skip (mkAnalysis (proposed_moves st) (unique_files st) (duplicates st)
                  (skipped_files st) dm)
            (full_path f) ("Error processing file: " +:+ e) →
    step_outcome fs st f st'
| step_duplicate m mf kept dm :
    get_audio_metadata fs (full_path f) = Some m →
    new_MusicFile fs (full_path f) = Ok mf →
    unique_files st !! mf_hash mf = Some kept →
    st' = mkAnalysis (proposed_moves st) (unique_files st)
            (<[mf_hash mf :=
                 default [] (duplicates st !! mf_hash mf) ++ [full_path f]]>
               (duplicates st))
            (skipped_files st) dm →
    step_outcome fs st f st'
| step_kept m mf mf' dir entry dm :
    get_audio_metadata fs (full_path f) = Some m →
    new_MusicFile fs (full_path f) = Ok mf →
    unique_files st !! mf_hash mf = None →
    mf_path mf' = full_path f →
    original_path entry = full_path f →
    st' = mkAnalysis
            (<[dir := default [] (proposed_moves st !! dir) ++ [entry]]>
               (proposed_moves st))
            (<[mf_hash mf := mf']> (unique_files st))
            (duplicates st) (skipped_files st) dm →
    step_outcome fs st f st'.

(** What the analysis holds after the files [done], read in this order. *)
Record pass_inv (fs : string → FileInfo) (done : list string)
    (st : Analysis) : Prop := {
  inv_unique : ∀ h,
    mf_path <$> (unique_files st !! h) = head (observed_as fs h done);
  inv_duplicates : ∀ h,
    default [] (duplicates st !! h) = tail (observed_as fs h done);
  inv_moves : ∀ p,
    in_move_plan st p ↔ ∃ h, head (observed_as fs h done) = Some p;
  inv_skipped : skipped_files st = omap (skip_of fs) done
}.

(** Case analysis on the 256 characters. *)
Ltac each_char c := destruct c as [[] [] [] [] [] [] [] []].

(** ** Further invariants of the registry *)

(** Every canonical artist has the key under which it is stored. *)
Definition artists_canonical (dm : DirectoryManager) : Prop :=
  ∀ k c, artist_mappings dm !! k = Some c → normalize_artist_name c = k.

(** Every album name that is stored is stored under its own key as
    well. *)
Definition albums_canonical (dm : DirectoryManager) : Prop :=
  ∀ ca c, c ∈ dict_values (albums_of dm ca) →
    dict_get (albums_of dm ca) (normalize_string c) = Some c.

(** ** Counting, and what the plan holds *)

(** [count_dirs_and_files(root_dir)] on what [os.walk(root_dir)] yields;
    [sum(1 for f in filenames if ...)] is the number of music files. *)
Definition count_dirs_and_files (walk : list (string * list string)) : nat * nat :=
  foldl
    (λ '(total_dirs, total_files) '(dirpath, filenames),
       ((total_dirs + 1)%nat,
        (total_files + length (filter (λ f, is_music_file f = true) filenames))%nat))
    (O, O) walk.

(** [sum(len(files) for files in d.values())], as [execute_changes]
    computes the totals of its progress bars. *)
Definition entries_total {A : Type} (d : gmap string (list A)) : nat :=
  sum_list_with (λ kv, length kv.2) (map_to_list d).

(** The entry [e] is filed as its file demands: the file has metadata, the
    registry maps the key of the raw artist to the artist of the entry and
    the key of the raw album, under this artist, to the album of the entry;
    title and track number are the raw ones; the directory is the one of
    artist and album, and the new name the one generated for the file. *)
Definition entry_filed (fs : string → FileInfo) (root_dir : string)
    (dm : DirectoryManager) (dir : string) (e : MoveEntry) : Prop :=
  ∃ raw,
    get_audio_metadata fs (original_path e) = Some raw ∧
    artist_mappings dm !! normalize_artist_name (artist raw) =
      Some (artist (move_metadata e)) ∧
    dict_get (albums_of dm (artist (move_metadata e)))
      (normalize_string (album raw)) = Some (album (move_metadata e)) ∧
    title (move_metadata e) = title raw ∧
    tracknumber (move_metadata e) = tracknumber raw ∧
    dir = path_join
            (path_join root_dir (sanitize_filename (artist (move_metadata e))))
            (sanitize_filename (album (move_metadata e))) ∧
    new_filename e = generate_new_filename raw (original_path e).

(** What the analysis keeps about its registry and its plan. *)
Record plan_inv (fs : string → FileInfo) (root_dir : string)
    (st : Analysis) : Prop := {
  inv_registry : registry_ok (directory_manager st);
  inv_canonical : artists_canonical (directory_manager st);
  inv_filed : ∀ dir es e,
    proposed_moves st !! dir = Some es → e ∈ es →
    entry_filed fs root_dir (directory_manager st) dir e
}.

(** Two files of one artist and one album, tagged with different
    spellings. *)
Definition example_fs2 (path : string) : FileInfo :=
  if str_eqb path "/m/x/1.mp3" then
    mkFileInfo
      (tags_of [("artist", "The Beatles"); ("album", "Help!");
                ("title", "Help!"); ("tracknumber", "1")])
      (Ok "aa01") (Ok 3100000)
  else if str_eqb path "/m/y/2.flac" then
    mkFileInfo
      (tags_of [("artist", "the beatles"); ("album", "HELP");
                ("title", "Yesterday"); ("tracknumber", "13/14")])
      (Ok "bb02") (Ok 21000000)
  else mkFileInfo TagsAbsent (Raise "[Errno 2] No such file or directory")
         (Raise "[Errno 2] No such file or directory").

Definition example_walk2 : list (string * list string) :=
  [("/m", []); ("/m/x", ["1.mp3"]); ("/m/y", ["2.flac"; "cover.png"])].



(** ** Carrying out the plan *)

(** [os.path.splitext(p)] (posixpath): the pair of the root and the
    extension. *)
Definition splitext (p : string) : string * string :=
  let '(dir, name) :=
    match rsplit_at "/" p with
    | Some (h, String c n) => (h +:+ String c EmptyString, n)
    | _ => (EmptyString, p)
    end in
  match rsplit_at "." name with
  | Some (h, t) =>
      if sall (λ c, Char.eqb c ".") h then (p, EmptyString) else (dir +:+ h, t)
  | None => (p, EmptyString)
  end.

(** [os.path.dirname(p)] (posixpath): the head up to the last slash, its
    trailing slashes stripped unless it holds nothing else. *)
Definition dirname (p : string) : string :=
  match rsplit_at "/" p with
  | Some (h, _) =>
      let head := h +:+ "/" in
      if sall (λ c, Char.eqb c "/") head then head
      else rstrip (λ c, Char.eqb c "/") head
  | None => EmptyString
  end.

(** [c not in s] *)
Definition lacks (c : ascii) (s : string) : bool :=
  sall (λ d, negb (Char.eqb d c)) s.

(** The name [f"{base}_{counter}{ext}"] that is tried when the destination
    is taken. *)
Definition numbered (base ext : string) (counter : nat) : string :=
  base +:+ "_" +:+ pretty counter +:+ ext.

(** The counters of [execute_changes] and its list of messages. *)
Record Results : Type := mkResults {
  successful_moves : nat;
  failed_moves : nat;
  successful_deletions : nat;
  failed_deletions : nat;
  errors : list string
}.

Definition new_results : Results := mkResults 0 0 0 0 [].

Definition move_succeeded (r : Results) : Results :=
  mkResults (successful_moves r + 1) (failed_moves r)
    (successful_deletions r) (failed_deletions r) (errors r).

Definition move_failed (r : Results) (msg : string) : Results :=
  mkResults (successful_moves r) (failed_moves r + 1)
    (successful_deletions r) (failed_deletions r) (errors r ++ [msg]).

Definition deletion_succeeded (r : Results) : Results :=
  mkResults (successful_moves r) (failed_moves r)
    (successful_deletions r + 1) (failed_deletions r) (errors r).

Definition deletion_failed (r : Results) (msg : string) : Results :=
  mkResults (successful_moves r) (failed_moves r)
    (successful_deletions r) (failed_deletions r + 1) (errors r ++ [msg]).

Definition directory_failed (r : Results) (msg : string) : Results :=
  mkResults (successful_moves r) (failed_moves r)
    (successful_deletions r) (failed_deletions r) (errors r ++ [msg]).

(** [sum(len(files) for files in d.values())] over the items of [d]. *)
Definition items_total {A : Type} (items : list (string * list A)) : nat :=
  sum_list_with (λ kv, length kv.2) items.

(** The file system that the [os] calls act on.  A call returns or raises,
    and leaves a file system behind either way; [os.path.exists] only
    looks. *)
Record OS : Type := mkOS {
  World : Type;
  os_path_exists : World → string → bool;
  os_makedirs : World → string → result unit * World;
  os_rename : World → string → string → result unit * World;
  os_remove : World → string → result unit * World
}.

(** The [k]-th destination that is tried for [new_filename]. *)
Definition candidate (dest_dir new_filename : string) (k : nat) : string :=
  match k with
  | O => path_join dest_dir new_filename
  | S _ =>
      path_join dest_dir
        (numbered (splitext new_filename).1 (splitext new_filename).2 k)
  end.

Section Execution.

Variable os : OS.

Definition create_directory (w : World os) (path : string)
    : bool * World os :=
  match os_makedirs os w path with
  | (Ok _, w') => (true, w')
  | (Raise _, w') => (false, w')
  end.

(** The loop [while os.path.exists(dest_path)], run for at most [fuel]
    rounds; [None] when the rounds are used up. *)
Fixpoint while_exists (w : World os) (dest_dir base ext : string)
    (fuel : nat) (dest_path : string) (counter : nat) : option string :=
  if os_path_exists os w dest_path then
    match fuel with
    | O => None
    | S fuel' =>
        let new_filename := numbered base ext counter in
        let dest_path := path_join dest_dir new_filename in
        while_exists w dest_dir base ext fuel' dest_path (S counter)
    end
  else Some dest_path.

(** The destination that [move_and_rename_file] settles on. *)
Definition destination (fuel : nat) (w : World os)
    (dest_dir new_filename : string) : option string :=
  let dest_path := path_join dest_dir new_filename in
  if os_path_exists os w dest_path then
    let '(base, ext) := splitext new_filename in
    while_exists w dest_dir base ext fuel dest_path 1
  else Some dest_path.

Definition move_and_rename_file (fuel : nat) (w : World os)
    (src_path dest_dir new_filename : string)
    : option ((bool * string) * World os) :=
  dest_path ← destination fuel w dest_dir new_filename;
  Some
    match os_makedirs os w (dirname dest_path) with
    | (Raise msg, w1) => ((false, msg), w1)
    | (Ok _, w1) =>
        match os_rename os w1 src_path dest_path with
        | (Raise msg, w2) => ((false, msg), w2)
        | (Ok _, w2) => ((true, dest_path), w2)
        end
    end.

(** The loop [for file in files] of [execute_changes]; [fuel] gives the
    rounds for each call of [move_and_rename_file], from the file system
    and the destination of the call. *)
Fixpoint move_files (fuel : World os → string → string → nat)
    (new_path : string) (files : list MoveEntry)
    (results : Results) (w : World os) : option (Results * World os) :=
  match files with
  | [] => Some (results, w)
  | file :: files' =>
      '((success, result), w') ←
        move_and_rename_file (fuel w new_path (new_filename file)) w
          (original_path file) new_path (new_filename file);
      move_files fuel new_path files'
        (if success : bool then move_succeeded results
         else move_failed results
                ("Failed to move " +:+ original_path file +:+ ": " +:+ result))
        w'
  end.

(** The loop [for new_path, files in proposed_moves.items()]. *)
Fixpoint move_items (fuel : World os → string → string → nat)
    (items : list (string * list MoveEntry))
    (results : Results) (w : World os) : option (Results * World os) :=
  match items with
  | [] => Some (results, w)
  | (new_path, files) :: items' =>
      match create_directory w new_path with
      | (false, w') =>
          move_items fuel items'
            (directory_failed results
               ("Failed to create directory: " +:+ new_path)) w'
      | (true, w') =>
          '(results', w'') ← move_files fuel new_path files results w';
          move_items fuel items' results' w''
      end
  end.

(** The loop [for dup_path in duplicate_paths]. *)
Fixpoint remove_paths (duplicate_paths : list string) (results : Results)
    (w : World os) : Results * World os :=
  match duplicate_paths with
  | [] => (results, w)
  | dup_path :: paths' =>
      match os_remove os w dup_path with
      | (Ok _, w') => remove_paths paths' (deletion_succeeded results) w'
      | (Raise msg, w') =>
          remove_paths paths'
            (deletion_failed results
               ("Failed to delete " +:+ dup_path +:+ ": " +:+ msg)) w'
      end
  end.

(** The loop [for file_hash, duplicate_paths in duplicates.items()]. *)
Fixpoint remove_items (items : list (string * list string))
    (results : Results) (w : World os) : Results * World os :=
  match items with
  | [] => (results, w)
  | (file_hash, duplicate_paths) :: items' =>
      let '(results', w') := remove_paths duplicate_paths results w in
      remove_items items' results' w'
  end.

(** [execute_changes] on the items of its two dictionaries, in the order of
    iteration. *)
Definition execute_changes (fuel : World os → string → string → nat)
    (w : World os)
    (proposed_moves : list (string * list MoveEntry))
    (duplicates : list (string * list string))
    : option (Results * World os) :=
  '(results, w') ← move_items fuel proposed_moves new_results w;
  Some (remove_items duplicates results w').

End Execution.

Arguments create_directory os w path : assert.

(** The message of [execute_changes] for a directory that could not be
    created, and the test for such a message. *)
Definition directory_message (new_path : string) : string :=
  "Failed to create directory: " +:+ new_path.

Definition is_directory_message (msg : string) : bool :=
  startswith msg "Failed to create directory: ".

(** A file system that is a list of the paths of its files: directories
    are not kept, renaming and removing fail on what is not there. *)
Definition listed_remove (w : list string) (p : string)
    : result unit * list string :=
  if bool_decide (p ∈ w) then (Ok (), filter (λ q, q ≠ p) w)
  else (Raise ("[Errno 2] No such file or directory: " +:+ p), w).

Definition listed_rename (w : list string) (a b : string)
    : result unit * list string :=
  if bool_decide (a ∈ w) then (Ok (), b :: filter (λ q, q ≠ a) w)
  else (Raise ("[Errno 2] No such file or directory: " +:+ a), w).

Definition listed_os : OS :=
  mkOS (list string) (λ w p, bool_decide (p ∈ w)) (λ w p, (Ok (), w))
    listed_rename listed_remove.

Definition example_listing : list string :=
  ["/in/a.mp3"; "/in/b.mp3"; "/in/c.mp3";
   "/m/Abba/Arrival/01 - Money.mp3"; "/m/Abba/Arrival/01 - Money_1.mp3"].

Definition example_moves : list (string * list MoveEntry) :=
  [("/m/Abba/Arrival",
    [mkMoveEntry "/in/a.mp3" "a.mp3" "01 - Money.mp3"
       (mkMetadata "Abba" "Arrival" "Money" "1");
     mkMoveEntry "/in/b.mp3" "b.mp3" "01 - Money.mp3"
       (mkMetadata "Abba" "Arrival" "Money" "1")])].

Definition example_duplicates : list (string * list string) :=
  [("aa01", ["/in/c.mp3"])].

(** The same file system with a part that cannot be written to, and a plan
    with a directory in that part and a file that is not there. *)
Definition readonly_makedirs (w : list string) (p : string)
    : result unit * list string :=
  if startswith p "/ro/"
  then (Raise ("[Errno 30] Read-only file system: " +:+ p), w)
  else (Ok (), w).

Definition readonly_os : OS :=
  mkOS (list string) (λ w p, bool_decide (p ∈ w)) readonly_makedirs
    listed_rename listed_remove.

Definition example_moves2 : list (string * list MoveEntry) :=
  [("/ro/Queen/Jazz",
    [mkMoveEntry "/in/c.mp3" "c.mp3" "01 - Mustapha.mp3"
       (mkMetadata "Queen" "Jazz" "Mustapha" "01")]);
   ("/m/Abba/Arrival",
    [mkMoveEntry "/in/a.mp3" "a.mp3" "01 - Money.mp3"
       (mkMetadata "Abba" "Arrival" "Money" "01");
     mkMoveEntry "/in/gone.mp3" "gone.mp3" "02 - Tiger.mp3"
       (mkMetadata "Abba" "Arrival" "Tiger" "02")])].

Definition example_duplicates2 : list (string * list string) :=
  [("aa01", ["/in/b.mp3"; "/in/none.mp3"])].

(** * Properties *)

(** ** The registry of artists *)

Lemma get_canonical_artist_hit dm a c :
  artist_mappings dm !! normalize_artist_name a = Some c →
  get_canonical_artist dm a = (c, dm).
Proof. intros H. unfold get_canonical_artist. by rewrite H. Qed.

Lemma get_canonical_artist_miss dm a :
  registry_ok dm →
  artist_mappings dm !! normalize_artist_name a = None →
  get_canonical_artist dm a =
    (a, mkDirectoryManager
          (<[normalize_artist_name a := a]> (artist_mappings dm))
          (album_mappings dm)
          (<[normalize_artist_name a := a]> (canonical_cases dm))).
Proof.
  intros Hok H. unfold get_canonical_artist. rewrite H.
  by rewrite <- Hok, H.
Qed.

Lemma get_canonical_artist_ok dm a :
  registry_ok dm → registry_ok (get_canonical_artist dm a).2.
Proof.
  intros Hok.
  destruct (artist_mappings dm !! normalize_artist_name a) as [c|] eqn:E.
  - by rewrite (get_canonical_artist_hit _ _ _ E).
  - rewrite (get_canonical_artist_miss _ _ Hok E). unfold registry_ok in *.
    simpl. by rewrite Hok.
Qed.

Lemma get_canonical_artist_albums dm a :
  album_mappings (get_canonical_artist dm a).2 = album_mappings dm.
Proof.
  unfold get_canonical_artist.
  destruct (artist_mappings dm !! _); [done|].
  destruct (canonical_cases dm !! _); [|done].
  by destruct (_ <? _)%nat.
Qed.

(** What a call of [get_canonical_artist] leaves in [artist_mappings]. *)
Lemma get_canonical_artist_lookup dm a k :
  registry_ok dm →
  artist_mappings (get_canonical_artist dm a).2 !! k =
    match artist_mappings dm !! k with
    | Some c => Some c
    | None => if bool_decide (normalize_artist_name a = k) then Some a else None
    end.
Proof.
  intros Hok.
  destruct (artist_mappings dm !! normalize_artist_name a) as [c|] eqn:E.
  - rewrite (get_canonical_artist_hit _ _ _ E). simpl.
    destruct (artist_mappings dm !! k) eqn:E'; [done|].
    case_bool_decide; [congruence|done].
  - rewrite (get_canonical_artist_miss _ _ Hok E). simpl.
    rewrite lookup_insert. case_decide as Hk.
    + subst k. rewrite E. by rewrite bool_decide_eq_true_2.
    + rewrite bool_decide_eq_false_2 by done. by destruct (artist_mappings dm !! k).
Qed.

Lemma get_canonical_album_artists ratio dm a b :
  artist_mappings (get_canonical_album ratio dm a b).2 =
    artist_mappings (get_canonical_artist dm a).2 ∧
  canonical_cases (get_canonical_album ratio dm a b).2 =
    canonical_cases (get_canonical_artist dm a).2.
Proof.
  unfold get_canonical_album.
  destruct (get_canonical_artist dm a) as [ca dm1]. simpl.
  destruct (dict_get _ _); [done|].
  destruct (find_similar_name _ _ _ _) as [[|??]|]; done.
Qed.

Lemma do_call_artists ratio dm c :
  artist_mappings (do_call ratio dm c) =
    artist_mappings (get_canonical_artist dm (spelling c)).2 ∧
  canonical_cases (do_call ratio dm c) =
    canonical_cases (get_canonical_artist dm (spelling c)).2.
Proof. destruct c; [done|]. apply get_canonical_album_artists. Qed.

Lemma do_call_ok ratio dm c : registry_ok dm → registry_ok (do_call ratio dm c).
Proof.
  intros Hok. unfold registry_ok.
  destruct (do_call_artists ratio dm c) as [-> ->].
  by apply get_canonical_artist_ok.
Qed.

Lemma run_ok ratio cs dm : registry_ok dm → registry_ok (run ratio cs dm).
Proof.
  revert dm. induction cs as [|c cs IH]; intros dm Hok; [done|].
  simpl. apply IH. by apply do_call_ok.
Qed.

Lemma new_manager_ok : registry_ok new_manager.
Proof. done. Qed.

Lemma run_app ratio cs1 cs2 dm :
  run ratio (cs1 ++ cs2) dm = run ratio cs2 (run ratio cs1 dm).
Proof. apply foldl_app. Qed.

(** Once a key is mapped, no call changes what it is mapped to. *)
Lemma run_keeps ratio cs dm k c :
  registry_ok dm →
  artist_mappings dm !! k = Some c →
  artist_mappings (run ratio cs dm) !! k = Some c.
Proof.
  revert dm. induction cs as [|x cs IH]; intros dm Hok H; [done|].
  simpl. apply IH; [by apply do_call_ok|].
  destruct (do_call_artists ratio dm x) as [-> _].
  rewrite get_canonical_artist_lookup by done. by rewrite H.
Qed.

(** The registry maps each key to the first spelling resolved for it. *)
Lemma run_first_spelling ratio cs k :
  artist_mappings (run ratio cs new_manager) !! k =
    first_spelling k (spelling <$> cs).
Proof.
  induction cs as [|x cs IH] using rev_ind; [done|].
  rewrite run_app. simpl.
  destruct (do_call_artists ratio (run ratio cs new_manager) x) as [-> _].
  rewrite get_canonical_artist_lookup by (apply run_ok, new_manager_ok).
  rewrite IH. unfold first_spelling.
  rewrite fmap_app, filter_app. simpl.
  destruct (filter _ (spelling <$> cs)) as [|y l]; simpl.
  - rewrite filter_cons. case_bool_decide; by case_decide.
  - done.
Qed.

(** C7: within one registry, [get_canonical_artist] depends on the
    normalized key only.  When [a1] is resolved in a registry reached from
    the empty one by any calls, and [a2] with the same normalized key is
    resolved after any further calls, both get the same canonical form; and
    a key that already has a mapping gets that mapping back, the registry
    unchanged (the function calls no fuzzy matcher at all). *)
Theorem resolve_artist_by_key ratio cs1 cs2 a1 a2 :
  normalize_artist_name a1 = normalize_artist_name a2 →
  let dm := run ratio cs1 new_manager in
  let first := get_canonical_artist dm a1 in
  (get_canonical_artist (run ratio cs2 first.2) a2).1 = first.1 ∧
  (∀ c, artist_mappings dm !! normalize_artist_name a1 = Some c →
        get_canonical_artist dm a1 = (c, dm)).
Proof.
  intros Hk dm first. split; [|intros c; apply get_canonical_artist_hit].
  assert (Hok : registry_ok dm) by apply run_ok, new_manager_ok.
  assert (H1 : artist_mappings first.2 !! normalize_artist_name a1 = Some first.1).
  { subst first.
    destruct (artist_mappings dm !! normalize_artist_name a1) as [c|] eqn:E.
    - by rewrite (get_canonical_artist_hit _ _ _ E).
    - rewrite (get_canonical_artist_miss _ _ Hok E). simpl.
      apply lookup_insert_eq. }
  apply (run_keeps ratio cs2) in H1; [|by apply get_canonical_artist_ok].
  rewrite Hk in H1. by rewrite (get_canonical_artist_hit _ _ _ H1).
Qed.

Lemma resolve_artist_by_key_witness :
  normalize_artist_name "Beatles" = normalize_artist_name "BEATLES!!" ∧
  (get_canonical_artist
     (run fuzz_ratio [ResolveAlbum "Queen" "Jazz"]
        (get_canonical_artist (run fuzz_ratio [] new_manager) "Beatles").2)
     "BEATLES!!").1 = "Beatles".
Proof.
  split; [reflexivity|].
  exact (proj1 (resolve_artist_by_key fuzz_ratio [] [ResolveAlbum "Queen" "Jazz"]
                  "Beatles" "BEATLES!!" eq_refl)).
Defined.

(** C10: the artist mapping is write-once.  A key that is mapped after some
    calls is mapped to the first raw spelling resolved for it, and whatever
    calls follow, [artist_mappings] and [canonical_cases] keep that form. *)
Theorem artist_mapping_write_once ratio cs k c :
  artist_mappings (run ratio cs new_manager) !! k = Some c →
  first_spelling k (spelling <$> cs) = Some c ∧
  ∀ later,
    artist_mappings (run ratio (cs ++ later) new_manager) !! k = Some c ∧
    canonical_cases (run ratio (cs ++ later) new_manager) !! k = Some c.
Proof.
  intros H. split; [by rewrite <- run_first_spelling with (ratio := ratio)|].
  intros later.
  assert (Hok : registry_ok (run ratio (cs ++ later) new_manager))
    by apply run_ok, new_manager_ok.
  rewrite <- Hok, run_app. split; (apply run_keeps; [apply run_ok, new_manager_ok|done]).
Qed.

Lemma artist_mapping_write_once_witness :
  artist_mappings (run fuzz_ratio [ResolveArtist "Beatles"] new_manager)
    !! "beatles" = Some "Beatles" ∧
  first_spelling "beatles" (spelling <$> [ResolveArtist "Beatles"]) = Some "Beatles" ∧
  ∀ later,
    artist_mappings (run fuzz_ratio ([ResolveArtist "Beatles"] ++ later) new_manager)
      !! "beatles" = Some "Beatles" ∧
    canonical_cases (run fuzz_ratio ([ResolveArtist "Beatles"] ++ later) new_manager)
      !! "beatles" = Some "Beatles".
Proof.
  split; [reflexivity|].
  exact (artist_mapping_write_once fuzz_ratio [ResolveArtist "Beatles"]
           "beatles" "Beatles" eq_refl).
Defined.

(** C1: the longer spelling is not adopted.  "Beatles" and "BEATLES!!" have
    the same normalized key and the second is longer, yet resolving it
    after the first returns "Beatles" and leaves the registry as it was;
    the spellings "Beatles" and "THE BEATLES" of the example have different
    keys, so that each is the canonical form of its own key. *)
Theorem longer_spelling_is_not_adopted :
  let dm := (get_canonical_artist new_manager "Beatles").2 in
  normalize_artist_name "BEATLES!!" = normalize_artist_name "Beatles" ∧
  (String.length "Beatles" < String.length "BEATLES!!")%nat ∧
  get_canonical_artist dm "BEATLES!!" = ("Beatles", dm) ∧
  normalize_artist_name "Beatles" = "beatles" ∧
  normalize_artist_name "THE BEATLES" = "the beatles" ∧
  (get_canonical_artist dm "beatles").1 = "Beatles" ∧
  (get_canonical_artist (get_canonical_artist dm "THE BEATLES").2 "Beatles").1
    = "Beatles".
Proof.
  cbv zeta. split_and!; try reflexivity. simpl; lia.
Qed.

(** ** The analysis pass *)

Section Pass.

Variable ratio : string → string → Z.
Variable fs : string → FileInfo.
Variable root_dir : string.

Let step := λ st (e : string * string), process_file ratio fs root_dir e.1 st e.2.

Lemma analyze_music_directory_entries walk :
  analyze_music_directory ratio fs root_dir walk =
    foldl step new_analysis (music_entries walk).
Proof.
  unfold analyze_music_directory, music_entries.
  generalize new_analysis.
  induction walk as [|[d fl] walk IH]; intros st; [done|].
  simpl. rewrite foldl_app, IH. f_equal.
  generalize (filter (λ f, is_music_file f = true) fl). intros l. revert st.
  induction l as [|f l IHl]; intros st; [done|]. simpl. by rewrite IHl.
Qed.

Lemma new_MusicFile_path path mf :
  new_MusicFile fs path = Ok mf → mf_path mf = path.
Proof.
  unfold new_MusicFile. destruct (get_file_hash fs path); [|done].
  destruct (fi_size (fs path)); [|done].
  destruct (get_audio_metadata fs path); [|done].
  by intros [= <-].
Qed.

Lemma process_file_outcome st f : step_outcome fs st f (step st f).
Proof.
  destruct f as [d f]. unfold step, process_file. simpl.
  change (path_join d f) with (full_path (d, f)).
  destruct (get_audio_metadata fs (full_path (d, f))) as [m|] eqn:Em;
    [|by eapply step_no_metadata].
  destruct (get_canonical_artist _ _) as [ca dm1].
  destruct (get_canonical_album _ _ _ _) as [cb dm2].
  destruct (new_MusicFile fs (full_path (d, f))) as [mf|e] eqn:Ef;
    [|by eapply step_raises].
  simpl. destruct (unique_files st !! mf_hash mf) as [kept|] eqn:Eu.
  - by eapply step_duplicate.
  - eapply step_kept; [done|done|done| | |reflexivity]; simpl;
      [by eapply new_MusicFile_path|done].
Qed.

Lemma observed_as_snoc h l p :
  observed_as fs h (l ++ [p]) =
    observed_as fs h l ++ (if bool_decide (observed fs p = Some h) then [p] else []).
Proof.
  unfold observed_as. rewrite filter_app. f_equal.
  rewrite filter_cons. case_decide; by case_bool_decide.
Qed.

Lemma observed_as_skip h l p :
  observed fs p = None → observed_as fs h (l ++ [p]) = observed_as fs h l.
Proof.
  intros H. rewrite observed_as_snoc, bool_decide_eq_false_2, app_nil_r; [done|].
  by rewrite H.
Qed.

Lemma omap_snoc {A B} (f : A → option B) (l : list A) (x : A) :
  omap f (l ++ [x]) = omap f l ++ match f x with Some y => [y] | None => [] end.
Proof. rewrite omap_app. simpl. by destruct (f x). Qed.

Lemma filter_none {A} (P : A → Prop) `{∀ x, Decision (P x)} (l : list A) :
  (∀ x, x ∈ l → ¬ P x) → filter P l = [].
Proof.
  induction l as [|x l IH]; intros Hl; [done|].
  rewrite filter_cons, decide_False by (apply Hl, elem_of_cons; by left).
  apply IH. intros y Hy. apply Hl, elem_of_cons. by right.
Qed.

Lemma in_move_plan_insert st dir entry um du sk dm p :
  in_move_plan
    (mkAnalysis (<[dir := default [] (proposed_moves st !! dir) ++ [entry]]>
                   (proposed_moves st)) um du sk dm) p ↔
  in_move_plan st p ∨ original_path entry = p.
Proof.
  unfold in_move_plan. simpl. split.
  - intros (d & es & e & Hd & He & Hp).
    rewrite lookup_insert in Hd. case_decide as Hdd.
    + injection Hd as <-. apply elem_of_app in He as [He|He].
      * left. destruct (proposed_moves st !! dir) as [l|] eqn:El.
        -- subst d. exists dir, l, e. done.
        -- simpl in He. by apply elem_of_nil in He.
      * apply list_elem_of_singleton in He. subst e. by right.
    + left. by exists d, es, e.
  - intros [(d & es & e & Hd & He & Hp)|Hp].
    + destruct (decide (dir = d)) as [->|Hne].
      * exists d, (es ++ [entry]), e. rewrite lookup_insert_eq, Hd. simpl.
        split_and!; [done| |done]. apply elem_of_app. by left.
      * exists d, es, e. by rewrite lookup_insert_ne.
    + exists dir, (default [] (proposed_moves st !! dir) ++ [entry]), entry.
      rewrite lookup_insert_eq. split_and!; [done| |done].
      apply elem_of_app. right. by apply list_elem_of_singleton.
Qed.

Lemma pass_inv_step done st f :
  pass_inv fs done st → pass_inv fs (done ++ [full_path f]) (step st f).
Proof.
  intros [Hu Hd Hm Hs].
  destruct (process_file_outcome st f) as
    [Em ->|m e dm Em Ef ->|m mf kept dm Em Ef Eu ->|m mf mf' dir entry dm Em Ef Eu Hp Ho ->].
  - assert (Hobs : observed fs (full_path f) = None) by (unfold observed; by rewrite Em).
    split; simpl.
    + intros h. by rewrite observed_as_skip.
    + intros h. by rewrite observed_as_skip.
    + intros p. etrans; [apply Hm|].
      split; intros (h & H); exists h; by rewrite ?observed_as_skip in *.
    + rewrite omap_snoc, Hs. unfold skip_of at 3. by rewrite Em.
  - assert (Hobs : observed fs (full_path f) = None) by (unfold observed; by rewrite Em, Ef).
    split; simpl.
    + intros h. by rewrite observed_as_skip.
    + intros h. by rewrite observed_as_skip.
    + intros p. etrans; [apply Hm|].
      split; intros (h & H); exists h; by rewrite ?observed_as_skip in *.
    + rewrite omap_snoc, Hs. unfold skip_of at 3. by rewrite Em, Ef.
  - assert (Hobs : observed fs (full_path f) = Some (mf_hash mf))
      by (unfold observed; by rewrite Em, Ef).
    assert (Hne : ∃ q l, observed_as fs (mf_hash mf) done = q :: l).
    { specialize (Hu (mf_hash mf)). rewrite Eu in Hu. simpl in Hu.
      destruct (observed_as fs (mf_hash mf) done) as [|q l]; [done|]. by eexists _, _. }
    destruct Hne as (q & l & Hql).
    assert (Hhead : ∀ h, head (observed_as fs h (done ++ [full_path f])) =
                         head (observed_as fs h done)).
    { intros h. rewrite observed_as_snoc. case_bool_decide as Hh; [|by rewrite app_nil_r].
      rewrite Hobs in Hh. injection Hh as <-. by rewrite Hql. }
    split; simpl.
    + intros h. by rewrite Hhead.
    + intros h. rewrite observed_as_snoc, lookup_insert.
      case_decide as Hh.
      * subst h. rewrite bool_decide_eq_true_2 by done. simpl.
        rewrite Hd, Hql. done.
      * rewrite bool_decide_eq_false_2, app_nil_r; [apply Hd|].
        rewrite Hobs. congruence.
    + intros p. etrans; [apply Hm|].
      split; intros (h & H); exists h; by rewrite ?Hhead in *.
    + rewrite omap_snoc, Hs. unfold skip_of at 3. rewrite Em, Ef.
      by rewrite app_nil_r.
  - assert (Hobs : observed fs (full_path f) = Some (mf_hash mf))
      by (unfold observed; by rewrite Em, Ef).
    assert (Hnil : observed_as fs (mf_hash mf) done = []).
    { specialize (Hu (mf_hash mf)). rewrite Eu in Hu. simpl in Hu.
      by destruct (observed_as fs (mf_hash mf) done). }
    assert (Hother : ∀ h, h ≠ mf_hash mf →
              observed_as fs h (done ++ [full_path f]) = observed_as fs h done).
    { intros h Hh. rewrite observed_as_snoc, bool_decide_eq_false_2, app_nil_r; [done|].
      rewrite Hobs. congruence. }
    assert (Hthis : observed_as fs (mf_hash mf) (done ++ [full_path f]) = [full_path f]).
    { by rewrite observed_as_snoc, Hnil, bool_decide_eq_true_2. }
    split; simpl.
    + intros h. rewrite lookup_insert. case_decide as Hh.
      * subst h. rewrite Hthis. simpl. by rewrite Hp.
      * rewrite Hother by done. apply Hu.
    + intros h. destruct (decide (h = mf_hash mf)) as [->|Hh].
      * rewrite Hthis, Hd, Hnil. done.
      * rewrite Hother by done. apply Hd.
    + intros p. rewrite in_move_plan_insert, Hm, Ho. split.
      * intros [(h & H)|<-].
        -- exists h. destruct (decide (h = mf_hash mf)) as [->|Hh].
           ++ by rewrite Hnil in H.
           ++ by rewrite Hother.
        -- exists (mf_hash mf). by rewrite Hthis.
      * intros (h & H). destruct (decide (h = mf_hash mf)) as [->|Hh].
        -- rewrite Hthis in H. right. by injection H.
        -- left. exists h. by rewrite Hother in H.
    + rewrite omap_snoc, Hs. unfold skip_of at 3. rewrite Em, Ef.
      by rewrite app_nil_r.
Qed.

Lemma pass_inv_new : pass_inv fs [] new_analysis.
Proof.
  split; try done. intros p. split.
  - intros (d & es & e & Hd & _). simpl in Hd. by rewrite lookup_empty in Hd.
  - by intros (h & H).
Qed.

Lemma pass_inv_fold es :
  pass_inv fs (full_path <$> es) (foldl step new_analysis es).
Proof.
  induction es as [|e es IH] using rev_ind; [apply pass_inv_new|].
  rewrite foldl_app, fmap_app. simpl. by apply pass_inv_step.
Qed.

Lemma analyze_music_directory_analyze_entries walk :
  analyze_music_directory ratio fs root_dir walk =
    analyze_entries ratio fs root_dir new_analysis (music_entries walk).
Proof. apply analyze_music_directory_entries. Qed.

Lemma lacks_tag_no_metadata p :
  lacks_tag fs p "artist" ∨ lacks_tag fs p "title" →
  get_audio_metadata fs p = None.
Proof.
  unfold lacks_tag, get_audio_metadata. intros H.
  assert (∀ t, t !! "artist" = None ∨ t !! "title" = None → read_metadata t = None)
    as Hread.
  { intros t [Ht|Ht]; unfold read_metadata; rewrite Ht;
      [by rewrite orb_true_r|done]. }
  destruct (fi_tags (fs p)) as [| |t]; try by destruct (endswith _ _).
  rewrite Hread by done. destruct (endswith _ _); [done|]. by case_bool_decide.
Qed.

Lemma skip_of_path p r : skip_of fs p = Some r → skip_path r = p.
Proof.
  unfold skip_of. destruct (get_audio_metadata fs p); [|by intros [= <-]].
  destruct (new_MusicFile fs p); [done|by intros [= <-]].
Qed.

Lemma skipped_once (l : list string) p :
  NoDup l → p ∈ l →
  filter (λ r, skip_path r = p) (omap (skip_of fs) l) =
    match skip_of fs p with Some r => [r] | None => [] end.
Proof.
  assert (Hnot : ∀ l', p ∉ l' → filter (λ r, skip_path r = p) (omap (skip_of fs) l') = []).
  { induction l' as [|q l' IH]; intros Hp; [done|].
    apply not_elem_of_cons in Hp as [Hq Hp]. simpl.
    destruct (skip_of fs q) as [r|] eqn:Er; [|by apply IH].
    rewrite filter_cons, decide_False; [by apply IH|].
    rewrite (skip_of_path _ _ Er). congruence. }
  induction l as [|q l IH]; intros Hnd Hin; [by apply elem_of_nil in Hin|].
  apply NoDup_cons in Hnd as [Hq Hnd].
  apply elem_of_cons in Hin as [->|Hin].
  - simpl. destruct (skip_of fs q) as [r|] eqn:Er; [|by apply Hnot].
    rewrite filter_cons, decide_True by by eapply skip_of_path.
    by rewrite Hnot.
  - simpl. destruct (skip_of fs q) as [r|] eqn:Er; [|by apply IH].
    rewrite filter_cons, decide_False; [by apply IH|].
    rewrite (skip_of_path _ _ Er). intros ->. done.
Qed.

Lemma pass_inv_analyze walk :
  pass_inv fs (full_path <$> music_entries walk)
    (analyze_music_directory ratio fs root_dir walk).
Proof. rewrite analyze_music_directory_entries. apply pass_inv_fold. Qed.

End Pass.

(** The files of the example library, in the order read. *)
Lemma example_paths :
  full_path <$> music_entries example_walk =
    ["/music/in/a.mp3"; "/music/in/b.MP3"; "/music/in/c.flac";
     "/music/in/d.mp3"; "/music/in/e.mp3"].
Proof. reflexivity. Qed.

Lemma example_paths_NoDup : NoDup (full_path <$> music_entries example_walk).
Proof. rewrite example_paths. apply (bool_decide_unpack _). by vm_compute. Qed.

(** C5: the first file observed with a digest is kept, the later ones are
    its duplicates.  When the files are read in the order
    [l1 ++ p :: l2] and [p] is the first that is observed under the digest
    [h], then [p] is in the move plan and is the representative stored for
    [h]; the duplicate group of [h] is the list of the later files observed
    under [h], in the order read; and each of them is in that group and not
    in the move plan. *)
Theorem first_digest_kept_later_duplicates ratio fs root_dir walk l1 p l2 h :
  let st := analyze_music_directory ratio fs root_dir walk in
  NoDup (full_path <$> music_entries walk) →
  full_path <$> music_entries walk = l1 ++ p :: l2 →
  observed fs p = Some h →
  (∀ q, q ∈ l1 → observed fs q ≠ Some h) →
  in_move_plan st p ∧
  mf_path <$> (unique_files st !! h) = Some p ∧
  default [] (duplicates st !! h) = observed_as fs h l2 ∧
  ∀ q, q ∈ l2 → observed fs q = Some h →
    in_duplicates st h q ∧ ¬ in_move_plan st q.
Proof.
  intros st Hnd Hl Hp Hl1.
  destruct (pass_inv_analyze ratio fs root_dir walk) as [Hu Hd Hm _].
  fold st in Hu, Hd, Hm. rewrite Hl in Hu, Hd, Hm, Hnd.
  assert (Hobs : observed_as fs h (l1 ++ p :: l2) = p :: observed_as fs h l2).
  { unfold observed_as. rewrite filter_app, filter_cons, decide_True by done.
    by rewrite (filter_none _ l1 Hl1). }
  assert (Hdup : default [] (duplicates st !! h) = observed_as fs h l2)
    by (by rewrite Hd, Hobs).
  split_and!; [|by rewrite Hu, Hobs|done|].
  - apply Hm. exists h. by rewrite Hobs.
  - intros q Hq Hqh. split.
    + unfold in_duplicates.
      assert (Hin : q ∈ default [] (duplicates st !! h)).
      { rewrite Hdup. unfold observed_as. by apply list_elem_of_filter. }
      destruct (duplicates st !! h) as [paths|]; [by exists paths|].
      by apply elem_of_nil in Hin.
    + intros (h' & Hh')%Hm.
      assert (Hqin : q ∈ observed_as fs h' (l1 ++ p :: l2)).
      { destruct (observed_as fs h' (l1 ++ p :: l2)); [done|].
        injection Hh' as ->. apply elem_of_cons. by left. }
      apply list_elem_of_filter in Hqin as [Hqh' _].
      assert (h' = h) as -> by congruence.
      rewrite Hobs in Hh'. injection Hh' as ->.
      apply NoDup_app in Hnd as (_ & _ & Hnd).
      apply NoDup_cons in Hnd as [Hnd _]. done.
Qed.

Lemma first_digest_kept_later_duplicates_witness :
  let st := analyze_music_directory fuzz_ratio example_fs "/music" example_walk in
  let later :=
    ["/music/in/b.MP3"; "/music/in/c.flac"; "/music/in/d.mp3"; "/music/in/e.mp3"] in
  NoDup (full_path <$> music_entries example_walk) ∧
  full_path <$> music_entries example_walk = [] ++ "/music/in/a.mp3" :: later ∧
  observed example_fs "/music/in/a.mp3" = Some "5f2a" ∧
  observed example_fs "/music/in/b.MP3" = Some "5f2a" ∧
  in_move_plan st "/music/in/a.mp3" ∧
  mf_path <$> (unique_files st !! "5f2a") = Some "/music/in/a.mp3" ∧
  default [] (duplicates st !! "5f2a") = observed_as example_fs "5f2a" later ∧
  ∀ q, q ∈ later → observed example_fs q = Some "5f2a" →
    in_duplicates st "5f2a" q ∧ ¬ in_move_plan st q.
Proof.
  split; [exact example_paths_NoDup|]. split; [reflexivity|].
  split; [reflexivity|]. split; [reflexivity|].
  apply (first_digest_kept_later_duplicates fuzz_ratio example_fs "/music"
           example_walk [] "/music/in/a.mp3").
  - exact example_paths_NoDup.
  - reflexivity.
  - reflexivity.
  - intros q Hq. by apply elem_of_nil in Hq.
Defined.

(** C3, as the spec has it, fails: a file whose artist tag is present and
    empty has metadata with an empty artist field, is in the move plan, and
    has no skip record. *)
Lemma empty_artist_is_planned :
  let st := analyze_music_directory fuzz_ratio example_fs "/music" example_walk in
  "/music/in/e.mp3" ∈ full_path <$> music_entries example_walk ∧
  artist <$> get_audio_metadata example_fs "/music/in/e.mp3" = Some EmptyString ∧
  in_move_plan st "/music/in/e.mp3" ∧
  filter (λ r, skip_path r = "/music/in/e.mp3") (skipped_files st) = [].
Proof.
  split_and!.
  - rewrite example_paths. apply (bool_decide_unpack _). by vm_compute.
  - reflexivity.
  - apply (pass_inv_analyze fuzz_ratio example_fs "/music" example_walk).
    exists "09be". reflexivity.
  - reflexivity.
Qed.

(** C3, as the code has it: a file without an artist tag (or without a
    title tag) is not in the move plan, and the skip list has exactly one
    record for it, with the reason "Missing required metadata
    (title/artist)". *)
Theorem missing_artist_tag_is_skipped_once ratio fs root_dir walk p :
  let st := analyze_music_directory ratio fs root_dir walk in
  NoDup (full_path <$> music_entries walk) →
  p ∈ full_path <$> music_entries walk →
  lacks_tag fs p "artist" ∨ lacks_tag fs p "title" →
  ¬ in_move_plan st p ∧
  filter (λ r, skip_path r = p) (skipped_files st) =
    [mkSkipRecord p "Missing required metadata (title/artist)"].
Proof.
  intros st Hnd Hin Hm%lacks_tag_no_metadata.
  destruct (pass_inv_analyze ratio fs root_dir walk) as [_ _ Hmv Hs].
  fold st in Hmv, Hs. split.
  - intros (h & Hh)%Hmv.
    assert (Hp : p ∈ observed_as fs h (full_path <$> music_entries walk)).
    { destruct (observed_as fs h _); [done|].
      injection Hh as ->. apply elem_of_cons. by left. }
    apply list_elem_of_filter in Hp as [Hp _]. unfold observed in Hp.
    by rewrite Hm in Hp.
  - rewrite Hs, skipped_once by done. unfold skip_of. by rewrite Hm.
Qed.

Lemma missing_artist_tag_is_skipped_once_witness :
  let st := analyze_music_directory fuzz_ratio example_fs "/music" example_walk in
  NoDup (full_path <$> music_entries example_walk) ∧
  "/music/in/c.flac" ∈ full_path <$> music_entries example_walk ∧
  lacks_tag example_fs "/music/in/c.flac" "artist" ∧
  ¬ in_move_plan st "/music/in/c.flac" ∧
  filter (λ r, skip_path r = "/music/in/c.flac") (skipped_files st) =
    [mkSkipRecord "/music/in/c.flac" "Missing required metadata (title/artist)"].
Proof.
  assert (Hin : "/music/in/c.flac" ∈ full_path <$> music_entries example_walk).
  { rewrite example_paths. apply (bool_decide_unpack _). by vm_compute. }
  split; [exact example_paths_NoDup|]. split; [exact Hin|]. split; [reflexivity|].
  apply (missing_artist_tag_is_skipped_once fuzz_ratio example_fs "/music"
           example_walk "/music/in/c.flac").
  - exact example_paths_NoDup.
  - exact Hin.
  - left. reflexivity.
Defined.

(** An error of [get_file_hash] is an error of [MusicFile(path)]. *)
Lemma hash_error_raises fs path e :
  get_file_hash fs path = Raise e → new_MusicFile fs path = Raise e.
Proof. intros H. unfold new_MusicFile. by rewrite H. Qed.





(** The other case, on the first library: the file has tags, and hashing
    raises. *)
Lemma hash_error_is_recorded :
  skipped_files
    (analyze_music_directory fuzz_ratio example_fs "/music" example_walk) =
  [mkSkipRecord "/music/in/c.flac" "Missing required metadata (title/artist)";
   mkSkipRecord "/music/in/d.mp3"
     "Error processing file: [Errno 13] Permission denied"].
Proof. reflexivity. Qed.

(** ** File names *)

(** [generate_new_filename] on records.  With an empty track number the
    name is the sanitized title and the extension; any other track number
    is put in front as it is, "3" as "3": the padding to two characters is
    done when the metadata is read, not here. *)
Lemma generate_new_filename_on_records :
  (∀ a b t path,
     generate_new_filename (mkMetadata a b t EmptyString) path =
       sanitize_filename t +:+ str_lower (splitext_ext path)) ∧
  generate_new_filename (mkMetadata "Queen" "Jazz" "Intro" EmptyString)
    "/music/in/intro.mp3" = "Intro.mp3" ∧
  generate_new_filename (mkMetadata "The Beatles" "Help!" "Yesterday" "3")
    "/music/in/yesterday.mp3" = "3 - Yesterday.mp3" ∧
  (let fs := λ _ : string,
     mkFileInfo
       (tags_of [("artist", "The Beatles"); ("album", "Help!");
                 ("title", "Yesterday"); ("tracknumber", "3")])
       (Ok "c0de") (Ok 2000000) in
   get_audio_metadata fs "/music/in/yesterday.mp3" =
     Some (mkMetadata "The Beatles" "Help!" "Yesterday" "03") ∧
   mf_new_filename <$>
     (match new_MusicFile fs "/music/in/yesterday.mp3" with
      | Ok music_file => Some music_file
      | Raise _ => None
      end) = Some "03 - Yesterday.mp3").
Proof. cbv zeta. split_and!; reflexivity. Qed.

(** A file without a track number tag gets the track number "00" when its
    metadata is read: [zfill] pads the empty string as well, so that no
    metadata read from a file has an empty track number. *)
Lemma read_metadata_tracknumber t m :
  read_metadata t = Some m → (2 ≤ String.length (tracknumber m))%nat.
Proof.
  unfold read_metadata. destruct (_ || _); [done|].
  destruct (first_value t "artist"); [|done].
  destruct (first_value t "album"); [|done].
  destruct (first_value t "title"); [|done].
  destruct (first_value t "tracknumber") as [n|]; [|done].
  simpl. intros [= <-]. simpl. unfold zfill.
  destruct (split_head "/" n) as [|c [|d r]]; simpl; [lia| |lia].
  destruct (_ || _); simpl; lia.
Qed.

Lemma absent_track_number_is_00 :
  (λ m, generate_new_filename m "/music/in/e.mp3")
    <$> get_audio_metadata example_fs "/music/in/e.mp3" = Some "00 - Intro.mp3".
Proof. reflexivity. Qed.

(** ** Fuzzy matching of album names *)

Lemma dict_get_app {V} (d1 d2 : list (string * V)) k :
  dict_get (d1 ++ d2) k =
    match dict_get d1 k with Some v => Some v | None => dict_get d2 k end.
Proof.
  induction d1 as [|[k' v'] d1 IH]; [done|]. simpl.
  by destruct (str_eqb k k').
Qed.

Lemma dict_set_fresh {V} (d : list (string * V)) k v :
  dict_get d k = None → dict_set d k v = d ++ [(k, v)].
Proof.
  induction d as [|[k' v'] d IH]; [done|]. simpl.
  destruct (str_eqb k k'); [done|]. intros H. by rewrite IH.
Qed.


Section Fuzzy.

Variable ratio : string → string → Z.
Variable name : string.

Let score := λ existing, ratio (normalize_string name) (normalize_string existing).

Let pick := λ '((highest_ratio, best_match) : Z * option string) (existing : string),
  let r := score existing in
  if (highest_ratio <? r) && (85 <=? r)
  then (r, Some existing) else (highest_ratio, best_match).

(** The state of the loop of [find_similar_name] after the names [l]. *)
Lemma find_similar_name_loop l :
  match foldl pick (0, None) l with
  | (hi, Some m) => hi = score m ∧ first_best score l m
  | (hi, None) => hi = 0 ∧ ∀ x, x ∈ l → score x < 85
  end.
Proof.
  induction l as [|y l IH] using rev_ind.
  { simpl. split; [done|]. intros x Hx. by apply elem_of_nil in Hx. }
  rewrite foldl_app. simpl.
  destruct (foldl pick (0, None) l) as [hi [m|]]; simpl.
  - destruct IH as [-> (i & Hi & H85 & Hall)].
    destruct ((score m <? score y) && (85 <=? score y)) eqn:E.
    + apply andb_true_iff in E as [E1%Z.ltb_lt E2%Z.leb_le].
      split; [done|]. exists (length l). split_and!; [|done|].
      * by rewrite lookup_app_r, Nat.sub_diag.
      * intros j x Hx. apply lookup_app_Some in Hx as [Hx|[Hj Hx]].
        -- destruct (Hall j x Hx) as [H1 H2]. split; [lia|]. intros _. lia.
        -- apply list_lookup_singleton_Some in Hx as [_ ->]. split; [lia|]. lia.
    + split; [done|]. exists i. split_and!; [|done|].
      * by apply lookup_app_l_Some.
      * intros j x Hx. apply lookup_app_Some in Hx as [Hx|[Hj Hx]]; [by apply Hall|].
        apply list_lookup_singleton_Some in Hx as [_ ->].
        apply lookup_lt_Some in Hi.
        apply andb_false_iff in E as [E%Z.ltb_ge|E%Z.leb_gt]; split; lia.
  - destruct IH as [-> Hall].
    destruct ((0 <? score y) && (85 <=? score y)) eqn:E.
    + apply andb_true_iff in E as [E1%Z.ltb_lt E2%Z.leb_le].
      split; [done|]. exists (length l). split_and!; [|done|].
      * by rewrite lookup_app_r, Nat.sub_diag.
      * intros j x Hx. apply lookup_app_Some in Hx as [Hx|[Hj Hx]].
        -- apply list_elem_of_lookup_2 in Hx as Hin. apply Hall in Hin.
           apply lookup_lt_Some in Hx. split; lia.
        -- apply list_lookup_singleton_Some in Hx as [_ ->]. split; lia.
    + split; [done|]. intros x [Hx|Hx]%elem_of_app; [by apply Hall|].
      apply list_elem_of_singleton in Hx as ->.
      apply andb_false_iff in E as [E%Z.ltb_ge|E%Z.leb_gt]; lia.
Qed.

Lemma find_similar_name_spec l :
  match find_similar_name ratio name l 85 with
  | Some m => first_best score l m
  | None => ∀ x, x ∈ l → score x < 85
  end.
Proof.
  unfold find_similar_name. fold score.
  pose proof (find_similar_name_loop l) as H.
  change (foldl _ (0, None) l) with (foldl pick (0, None) l).
  destruct (foldl pick (0, None) l) as [hi [m|]]; simpl; apply H.
Qed.

End Fuzzy.

Lemma albums_of_set_album dm ca k v ca' :
  albums_of (set_album dm ca k v) ca' =
    if decide (ca = ca') then dict_set (albums_of dm ca) k v else albums_of dm ca'.
Proof.
  unfold albums_of at 1. unfold set_album. simpl. rewrite lookup_insert.
  by case_decide.
Qed.

Lemma get_canonical_artist_albums_of dm a ca :
  albums_of (get_canonical_artist dm a).2 ca = albums_of dm ca.
Proof. unfold albums_of. by rewrite get_canonical_artist_albums. Qed.

Section Albums.

Variable ratio : string → string → Z.

(** The package scores a non-empty string against the empty one with 0. *)
Hypothesis ratio_empty : ∀ a, a ≠ EmptyString → ratio a EmptyString < 85.

(** [get_canonical_album] by cases, in a registry in which every canonical
    album is registered under its own key: the matched name is then never
    the empty string, which the test [if similar_album] would take for no
    match. *)
Lemma get_canonical_album_cases dm artist album :
  albums_ok dm →
  let ca := (get_canonical_artist dm artist).1 in
  let dm1 := (get_canonical_artist dm artist).2 in
  let key := normalize_string album in
  get_canonical_album ratio dm artist album =
    match dict_get (albums_of dm ca) key with
    | Some known => (known, dm1)
    | None =>
        match find_similar_name ratio album (dict_values (albums_of dm ca)) 85 with
        | Some m => (m, set_album dm1 ca key m)
        | None => (album, set_album dm1 ca key album)
        end
    end.
Proof.
  intros Hok ca dm1 key. unfold get_canonical_album.
  rewrite (surjective_pairing (get_canonical_artist dm artist)).
  fold ca dm1 key. unfold dm1 at 1 3. rewrite get_canonical_artist_albums_of.
  destruct (dict_get (albums_of dm ca) key) eqn:Ekey; [done|].
  pose proof (find_similar_name_spec ratio album (dict_values (albums_of dm ca))) as Hspec.
  destruct (find_similar_name _ _ _ _) as [[|c r]|]; [|done..].
  exfalso. destruct Hspec as (i & Hi & H85 & _).
  apply list_elem_of_lookup_2, Hok in Hi as [v Hv].
  change (normalize_string EmptyString) with EmptyString in *.
  apply (Z.lt_irrefl 85). eapply Z.le_lt_trans; [apply H85|].
  apply ratio_empty. fold key. intros Hk. rewrite Hk in Ekey. congruence.
Qed.

Lemma dict_get_is_Some_snoc {V} (d : list (string * V)) k v k' :
  is_Some (dict_get d k') → is_Some (dict_get (d ++ [(k, v)]) k').
Proof. intros [x Hx]. rewrite dict_get_app, Hx. by eexists. Qed.

Lemma dict_get_snoc_eq {V} (d : list (string * V)) k v :
  is_Some (dict_get (d ++ [(k, v)]) k).
Proof.
  rewrite dict_get_app. destruct (dict_get d k); [by eexists|]. simpl.
  unfold str_eqb. rewrite bool_decide_eq_true_2 by done. by eexists.
Qed.

Lemma get_canonical_artist_albums_ok dm a :
  albums_ok dm → albums_ok (get_canonical_artist dm a).2.
Proof.
  intros Hok ca c. rewrite !get_canonical_artist_albums_of. apply Hok.
Qed.

Lemma set_album_ok dm ca k name :
  albums_ok dm →
  dict_get (albums_of dm ca) k = None →
  (name ∈ dict_values (albums_of dm ca) ∨ k = normalize_string name) →
  albums_ok (set_album dm ca k name).
Proof.
  intros Hok Hk Hname ca' c. rewrite !albums_of_set_album.
  case_decide as Hca; [|apply Hok]. subst ca'.
  rewrite dict_set_fresh by done. unfold dict_values. rewrite fmap_app.
  intros [Hc|Hc]%elem_of_app.
  - by apply dict_get_is_Some_snoc, Hok.
  - apply list_elem_of_singleton in Hc. simpl in Hc. subst c.
    destruct Hname as [Hin| ->].
    + by apply dict_get_is_Some_snoc, Hok.
    + apply dict_get_snoc_eq.
Qed.

Lemma get_canonical_album_ok dm a b :
  albums_ok dm → albums_ok (get_canonical_album ratio dm a b).2.
Proof.
  intros Hok. rewrite get_canonical_album_cases by done.
  pose proof (get_canonical_artist_albums_ok dm a Hok) as Hok1.
  destruct (dict_get _ _) eqn:Ek; [done|].
  pose proof (find_similar_name_spec ratio b
                (dict_values (albums_of dm (get_canonical_artist dm a).1))) as Hspec.
  destruct (find_similar_name _ _ _ _) as [m|]; simpl.
  - apply set_album_ok; [done|by rewrite get_canonical_artist_albums_of|].
    left. rewrite get_canonical_artist_albums_of.
    destruct Hspec as (i & Hi & _). by eapply list_elem_of_lookup_2.
  - apply set_album_ok; [done|by rewrite get_canonical_artist_albums_of|].
    by right.
Qed.

Lemma run_albums_ok cs dm : albums_ok dm → albums_ok (run ratio cs dm).
Proof.
  revert dm. induction cs as [|c cs IH]; intros dm Hok; [done|].
  simpl. apply IH. destruct c; simpl.
  - by apply get_canonical_artist_albums_ok.
  - by apply get_canonical_album_ok.
Qed.

Lemma new_manager_albums_ok : albums_ok new_manager.
Proof. intros ca c Hc. by apply elem_of_nil in Hc. Qed.

End Albums.

(** C6: album resolution without an exact hit.  In a registry reached from
    the empty one by any calls, when the normalized key of the album is not
    registered under the canonical artist, [find_similar_name] is run on the
    canonical album names registered under that artist, in the order of
    their registration.  If it finds a name, that name is the best match
    (it scores at least 85, no registered name scores higher and the ones
    before it score lower); it is returned and the key is registered as an
    alias of it.  If it finds none, every registered name scores below 85;
    the raw album is returned and registered under the key. *)
Theorem resolve_album_fuzzy ratio cs artist album :
  (∀ a, a ≠ EmptyString → ratio a EmptyString < 85) →
  let dm := run ratio cs new_manager in
  let ca := (get_canonical_artist dm artist).1 in
  let known := albums_of dm ca in
  let key := normalize_string album in
  let score := λ name, ratio key (normalize_string name) in
  let resolved := get_canonical_album ratio dm artist album in
  dict_get known key = None →
  match find_similar_name ratio album (dict_values known) 85 with
  | Some m =>
      first_best score (dict_values known) m ∧
      resolved.1 = m ∧ albums_of resolved.2 ca = known ++ [(key, m)]
  | None =>
      (∀ x, x ∈ dict_values known → score x < 85) ∧
      resolved.1 = album ∧ albums_of resolved.2 ca = known ++ [(key, album)]
  end.
Proof.
  intros Hempty dm ca known key score resolved Hkey.
  assert (Hok : albums_ok dm) by (by apply run_albums_ok, new_manager_albums_ok).
  pose proof (get_canonical_album_cases ratio Hempty dm artist album Hok) as Hres.
  cbv zeta in Hres. fold ca known key resolved in Hres. rewrite Hkey in Hres.
  pose proof (find_similar_name_spec ratio album (dict_values known)) as Hspec.
  fold key score in Hspec.
  destruct (find_similar_name ratio album (dict_values known) 85) as [m|];
    rewrite Hres; simpl; (split; [done|]); (split; [done|]);
    rewrite albums_of_set_album, decide_True by done;
    rewrite get_canonical_artist_albums_of; by apply dict_set_fresh.
Qed.

Lemma fuzz_ratio_empty a : a ≠ EmptyString → fuzz_ratio a EmptyString < 85.
Proof.
  intros Ha. unfold fuzz_ratio, str_eqb.
  rewrite !bool_decide_eq_false_2 by done. simpl. lia.
Qed.

Lemma resolve_album_fuzzy_witness :
  let dm := run fuzz_ratio [ResolveAlbum "Queen" "A Night at the Opera"] new_manager in
  let known := [("a night at the opera", "A Night at the Opera")] in
  let resolved := get_canonical_album fuzz_ratio dm "Queen" "A Nite at the Opera" in
  (∀ a, a ≠ EmptyString → fuzz_ratio a EmptyString < 85) ∧
  dict_get known "a nite at the opera" = None ∧
  fuzz_ratio "a nite at the opera" "a night at the opera" = 92 ∧
  resolved.1 = "A Night at the Opera" ∧
  albums_of resolved.2 "Queen" =
    known ++ [("a nite at the opera", "A Night at the Opera")].
Proof.
  split; [exact fuzz_ratio_empty|]. split; [reflexivity|]. split; [reflexivity|].
  exact (proj2 (resolve_album_fuzzy fuzz_ratio
                  [ResolveAlbum "Queen" "A Night at the Opera"]
                  "Queen" "A Nite at the Opera" fuzz_ratio_empty eq_refl)).
Defined.

(** ** Strings and substitution *)

Lemma lower_not_upper c : Char.is_upper (Char.lower c) = false.
Proof. each_char c; reflexivity. Qed.

Lemma lower_fixed c : Char.is_upper c = false → Char.lower c = c.
Proof. unfold Char.lower. by intros ->. Qed.

Lemma tidy_not_upper c : tidy c = true → Char.is_upper c = false.
Proof. unfold tidy. intros [H _]%andb_true_iff. by apply negb_true_iff. Qed.

Lemma tidy_kept c : tidy c = true → not_word_space_amp c = false.
Proof. each_char c; vm_compute; congruence. Qed.

Lemma tidy_space c : tidy c = true → Char.is_space c = true → c = " "%char.
Proof. each_char c; vm_compute; congruence. Qed.

Lemma kept_tidy c :
  Char.is_upper c = false → not_word_space_amp c = false →
  Char.is_space c = true ∨ tidy c = true.
Proof. each_char c; vm_compute; auto. Qed.

Lemma char_eqb_eq c d : Char.eqb c d = true ↔ c = d.
Proof.
  unfold Char.eqb, Char.code. rewrite N.eqb_eq. split; [|by intros ->].
  intros H. by rewrite <- (ascii_N_embedding c), <- (ascii_N_embedding d), H.
Qed.

Lemma sall_app p s t : sall p (s +:+ t) = sall p s && sall p t.
Proof.
  induction s as [|c s IH]; [done|].
  change (String c s +:+ t) with (String c (s +:+ t)). simpl.
  by rewrite IH, andb_assoc.
Qed.

Lemma sall_impl (p q : ascii → bool) s :
  (∀ c, p c = true → q c = true) → sall p s = true → sall q s = true.
Proof.
  intros Hpq. induction s as [|c s IH]; [done|]. simpl.
  intros [Hc Hs]%andb_true_iff. by rewrite (Hpq _ Hc), IH.
Qed.

Lemma smap_fixed f s : sall (λ c, Char.eqb (f c) c) s = true → smap f s = s.
Proof.
  induction s as [|c s IH]; [done|]. simpl.
  intros [Hc%char_eqb_eq Hs]%andb_true_iff. by rewrite Hc, IH.
Qed.

Lemma sfilter_all p s : sall p s = true → sfilter p s = s.
Proof.
  induction s as [|c s IH]; [done|]. simpl.
  intros [Hc Hs]%andb_true_iff. by rewrite Hc, IH.
Qed.

Lemma sall_sfilter p q s : sall p s = true → sall p (sfilter q s) = true.
Proof.
  induction s as [|c s IH]; [done|]. simpl.
  intros [Hc Hs]%andb_true_iff. destruct (q c); simpl; [rewrite Hc|]; by apply IH.
Qed.

Lemma sall_sfilter_self p s : sall p (sfilter p s) = true.
Proof.
  induction s as [|c s IH]; [done|]. simpl.
  destruct (p c) eqn:E; simpl; [by rewrite E|done].
Qed.

Lemma sall_lstrip p q s : sall p s = true → sall p (lstrip q s) = true.
Proof.
  induction s as [|c s IH]; [done|]. simpl.
  intros H. destruct (q c); [|done].
  apply andb_true_iff in H as [_ H]. by apply IH.
Qed.

Lemma sall_rstrip p q s : sall p s = true → sall p (rstrip q s) = true.
Proof.
  induction s as [|c s IH]; [done|]. simpl.
  intros [Hc Hs]%andb_true_iff. specialize (IH Hs).
  destruct (rstrip q s); [destruct (q c); simpl; by rewrite ?Hc|].
  simpl in *. by rewrite Hc.
Qed.

Lemma length_sdrop n s : String.length (sdrop n s) = (String.length s - n)%nat.
Proof.
  revert s. induction n as [|n IH]; intros [|c s]; simpl; by try lia.
Qed.

Section Substitution.

Variable ignorecase : bool.
Variable r : re.
Variable repl : string.

Lemma re_sub_go_sall p k s :
  sall p repl = true → sall p s = true →
  sall p (re_sub_go ignorecase r repl k s) = true.
Proof.
  intros Hrepl. revert k. induction s as [|c s IH]; intros k; [done|]. simpl.
  intros [Hc Hs]%andb_true_iff. destruct k as [|k]; [|by apply IH].
  destruct (match_len _ _ _) as [[|n]|].
  - simpl. by rewrite Hc, IH.
  - by rewrite sall_app, Hrepl, IH.
  - simpl. by rewrite Hc, IH.
Qed.

Lemma re_sub_sall p s :
  sall p repl = true → sall p s = true → sall p (re_sub ignorecase r repl s) = true.
Proof. apply re_sub_go_sall. Qed.

Lemma re_sub_go_skip k s :
  re_sub_go ignorecase r repl k s = re_sub_go ignorecase r repl O (sdrop k s).
Proof.
  revert s. induction k as [|k IH]; intros [|c s]; simpl; auto.
Qed.

(** One step of the scan. *)
Lemma re_sub_step c t :
  re_sub ignorecase r repl (String c t) =
    match match_len ignorecase r (String c t) with
    | Some (S k) => repl +:+ re_sub ignorecase r repl (sdrop k t)
    | _ => String c (re_sub ignorecase r repl t)
    end.
Proof.
  unfold re_sub. simpl. destruct (match_len _ _ _) as [[|k]|]; try done.
  by rewrite re_sub_go_skip.
Qed.

Lemma re_sub_no_match s : no_match ignorecase r s → re_sub ignorecase r repl s = s.
Proof.
  induction s as [|c s IH]; [done|]. intros [Hm Hs].
  rewrite re_sub_step, Hm. by rewrite IH.
Qed.

End Substitution.

(** Removing the characters of a class is filtering. *)
Lemma re_sub_class ic p s :
  re_sub ic (Cls p) EmptyString s = sfilter (λ c, negb (p c)) s.
Proof.
  induction s as [|c s IH]; [done|].
  rewrite re_sub_step. unfold match_len. simpl.
  destruct (p c); simpl; [|by rewrite IH].
  replace (S (String.length s) - String.length s)%nat with 1%nat by lia.
  simpl. apply IH.
Qed.

(** *** White space *)

Lemma run_length_le s : (run_length s ≤ String.length s)%nat.
Proof.
  induction s as [|c s IH]; simpl; [lia|]. destruct (Char.is_space c); lia.
Qed.

Lemma star_space s :
  star_go Char.is_space s Some = Some (sdrop (run_length s) s).
Proof.
  induction s as [|c s IH]; [done|]. simpl.
  destruct (Char.is_space c); [|done]. by rewrite IH.
Qed.

Lemma match_len_collapse c t :
  match_len false collapse (String c t) =
    if Char.is_space c then Some (S (run_length t)) else None.
Proof.
  unfold match_len. simpl. destruct (Char.is_space c); [|done].
  rewrite star_space, length_sdrop. f_equal.
  pose proof (run_length_le t). lia.
Qed.

Lemma re_sub_collapse s :
  re_sub false collapse " " s = squeeze false s ∧
  re_sub false collapse " " (sdrop (run_length s) s) = squeeze true s.
Proof.
  induction s as [|c s [IH1 IH2]]; [done|].
  rewrite re_sub_step, match_len_collapse. simpl.
  destruct (Char.is_space c) eqn:Ec; simpl.
  - by rewrite IH2.
  - rewrite IH1. split; [done|].
    rewrite re_sub_step, match_len_collapse.
    destruct (Char.is_space c) eqn:E; by rewrite ?IH1.
Qed.

Lemma squeeze_fixed b s :
  sall tidy s = true → spaced b s = true → squeeze b s = s.
Proof.
  revert b. induction s as [|c s IH]; intros b; [done|]. simpl.
  intros [Hc Hs]%andb_true_iff. destruct (Char.is_space c) eqn:E.
  - intros [Hb Hsp]%andb_true_iff. apply negb_true_iff in Hb. subst b.
    by rewrite (tidy_space c Hc E), IH.
  - intros Hsp. by rewrite IH.
Qed.

Lemma spaced_squeeze b s : spaced b (squeeze b s) = true.
Proof.
  revert b. induction s as [|c s IH]; intros b; [done|]. simpl.
  destruct (Char.is_space c) eqn:E.
  - destruct b; [apply IH|]. simpl. apply IH.
  - simpl. rewrite E. apply IH.
Qed.

Lemma sall_squeeze b s :
  sall (λ c, Char.is_space c || tidy c) s = true →
  sall tidy (squeeze b s) = true.
Proof.
  revert b. induction s as [|c s IH]; intros b; [done|]. simpl.
  intros [Hc Hs]%andb_true_iff. destruct (Char.is_space c) eqn:E.
  - destruct b; simpl; by apply IH.
  - simpl in *. rewrite Hc. by apply IH.
Qed.


Lemma spaced_lstrip b b' s :
  spaced b s = true → spaced b' (lstrip Char.is_space s) = true.
Proof.
  revert b. induction s as [|c s IH]; intros b; [done|]. simpl.
  destruct (Char.is_space c) eqn:E.
  - intros [_ H]%andb_true_iff. by eapply IH.
  - simpl. by rewrite E.
Qed.

Lemma spaced_rstrip b s :
  spaced b s = true → spaced b (rstrip Char.is_space s) = true.
Proof.
  revert b. induction s as [|c s IH]; intros b; [done|]. simpl.
  destruct (Char.is_space c) eqn:E.
  - intros [Hb H]%andb_true_iff. apply IH in H.
    destruct (rstrip Char.is_space s); [done|].
    cbn [spaced]. rewrite E, Hb. done.
  - intros H. apply IH in H.
    destruct (rstrip Char.is_space s); cbn [spaced]; by rewrite E.
Qed.

Lemma lstrip_idem p s : lstrip p (lstrip p s) = lstrip p s.
Proof.
  induction s as [|c s IH]; [done|]. simpl.
  destruct (p c) eqn:E; [done|]. simpl. by rewrite E.
Qed.

Lemma rstrip_cons p c s :
  rstrip p (String c s) =
    match rstrip p s with
    | EmptyString => if p c then EmptyString else String c EmptyString
    | r => String c r
    end.
Proof. done. Qed.

Lemma rstrip_idem p s : rstrip p (rstrip p s) = rstrip p s.
Proof.
  induction s as [|c s IH]; [done|]. rewrite rstrip_cons.
  destruct (rstrip p s) as [|d s'] eqn:E.
  - destruct (p c) eqn:Ec; [done|]. simpl. by rewrite Ec.
  - by rewrite rstrip_cons, IH.
Qed.

Lemma rstrip_lstrip p s : rstrip p s = s → rstrip p (lstrip p s) = lstrip p s.
Proof.
  induction s as [|c s IH]; [done|]. intros H.
  cbn [lstrip]. destruct (p c) eqn:Ec; [|exact H].
  apply IH. rewrite rstrip_cons, Ec in H.
  destruct (rstrip p s) as [|d s'] eqn:E; [done|]. by injection H.
Qed.

Lemma strip_idem p s : strip p (strip p s) = strip p s.
Proof.
  unfold strip. rewrite rstrip_lstrip by apply rstrip_idem.
  apply lstrip_idem.
Qed.

(** *** The rewriting of "and the" *)

Lemma match_len_and_the c t k :
  match_len false and_the (String c t) = Some k →
  ∃ c1 c2 rest,
    t = String "a" (String "n" (String "d" (String c1
          (String "t" (String "h" (String "e" (String c2 rest))))))) ∧
    Char.is_space c = true ∧ Char.is_space c1 = true ∧
    Char.is_space c2 = true ∧ k = 9%nat.
Proof.
  unfold match_len.
  destruct t as [|a1 [|a2 [|a3 [|a4 [|a5 [|a6 [|a7 [|a8 rest]]]]]]]]; simpl;
    repeat (match goal with
            | |- context [if ?b then _ else _] => destruct b eqn:?
            end; simpl); try done.
  intros [= <-].
  repeat match goal with
         | H : Char.eqb _ _ = true |- _ => apply char_eqb_eq in H; subst
         end.
  exists a4, a8, rest. split_and!; try done.
  lia.
Qed.

Lemma re_sub_and_the_spaced n : ∀ s b,
  (String.length s ≤ n)%nat →
  spaced b s = true →
  spaced b (re_sub false and_the " & the " s) = true.
Proof.
  induction n as [|n IH]; intros [|c t] b Hn Hsp; try done.
  { simpl in Hn. lia. }
  rewrite re_sub_step.
  destruct (match_len false and_the (String c t)) as [k|] eqn:Em.
  - apply match_len_and_the in Em as (c1 & c2 & rest & -> & Hc & Hc1 & Hc2 & ->).
    cbn [sdrop]. simpl in Hsp. rewrite Hc, Hc1, Hc2 in Hsp. simpl in Hsp.
    apply andb_true_iff in Hsp as [Hb Hrest].
    apply negb_true_iff in Hb. subst b.
    change (spaced true (re_sub false and_the " & the " rest) = true).
    apply IH; [simpl in Hn; lia|done].
  - simpl in *. destruct (Char.is_space c).
    + apply andb_true_iff in Hsp as [-> Hsp]. simpl. apply IH; [lia|done].
    + apply IH; [lia|done].
Qed.

(** ** Normalized artist names *)

Lemma sall_str_lower s : sall (λ c, negb (Char.is_upper c)) (str_lower s) = true.
Proof.
  unfold str_lower. induction s as [|c s IH]; [done|]. simpl.
  by rewrite lower_not_upper, IH.
Qed.

Lemma sall_and (p q : ascii → bool) s :
  sall p s = true → sall q s = true → sall (λ c, p c && q c) s = true.
Proof.
  induction s as [|c s IH]; [done|]. simpl.
  intros [-> Hp]%andb_true_iff [-> Hq]%andb_true_iff. by apply IH.
Qed.

Lemma sall_strip_featuring p s :
  sall p s = true → sall p (strip_featuring s) = true.
Proof.
  intros H. unfold strip_featuring, featuring_patterns. simpl.
  by repeat apply re_sub_sall.
Qed.

(** A normalized name has tidy characters only, and single blanks that
    neither lead nor trail. *)
Lemma normalize_artist_name_shape s :
  let n := normalize_artist_name s in
  sall tidy n = true ∧ spaced false n = true ∧ strip Char.is_space n = n.
Proof.
  unfold normalize_artist_name.
  set (x2 := strip_featuring (str_lower s)).
  set (x3 := re_sub false (Cls not_word_space_amp) EmptyString x2).
  set (x4 := re_sub false collapse " " x3).
  set (x5 := re_sub false and_the " & the " x4).
  assert (H2 : sall (λ c, negb (Char.is_upper c)) x2 = true)
    by apply sall_strip_featuring, sall_str_lower.
  assert (H3 : sall (λ c, Char.is_space c || tidy c) x3 = true).
  { subst x3. rewrite re_sub_class.
    eapply sall_impl; [|apply sall_and; [apply sall_sfilter, H2|apply sall_sfilter_self]].
    intros c [Hu Hk]%andb_true_iff. apply negb_true_iff in Hu, Hk.
    destruct (kept_tidy c Hu Hk) as [-> | ->]; [done|apply orb_true_r]. }
  assert (H4 : sall tidy x4 = true ∧ spaced false x4 = true).
  { subst x4. rewrite (proj1 (re_sub_collapse x3)).
    split; [by apply sall_squeeze|apply spaced_squeeze]. }
  assert (H5 : sall tidy x5 = true ∧ spaced false x5 = true).
  { subst x5. split; [by apply re_sub_sall; [|apply H4]|].
    by eapply re_sub_and_the_spaced; [|apply H4]. }
  cbv zeta. split_and!.
  - unfold strip. apply sall_lstrip, sall_rstrip, H5.
  - unfold strip. eapply spaced_lstrip, spaced_rstrip, H5.
  - apply strip_idem.
Qed.

(** C4, as the code has it: normalizing a normalized name changes nothing
    when the normalized name holds no featuring clause and no "and the" any
    more, that is, when the seven featuring patterns and the rewriting of
    "and the" leave it as it is. *)
Theorem normalize_artist_name_settled s :
  let n := normalize_artist_name s in
  strip_featuring n = n →
  re_sub false and_the " & the " n = n →
  normalize_artist_name n = n.
Proof.
  intros n Hf Ha.
  destruct (normalize_artist_name_shape s) as (Ht & Hsp & Hst). fold n in Ht, Hsp, Hst.
  unfold normalize_artist_name.
  assert (Hl : str_lower n = n).
  { apply smap_fixed. eapply sall_impl; [|apply Ht].
    intros c Hc. apply char_eqb_eq, lower_fixed, tidy_not_upper, Hc. }
  rewrite Hl, Hf, re_sub_class, sfilter_all.
  - rewrite (proj1 (re_sub_collapse n)), squeeze_fixed by done.
    by rewrite Ha.
  - eapply sall_impl; [|apply Ht]. intros c Hc. by rewrite (tidy_kept c Hc).
Qed.

Lemma normalize_artist_name_settled_witness :
  let n := normalize_artist_name "Tom Petty and the Heartbreakers, live" in
  n = "tom petty & the heartbreakers" ∧
  strip_featuring n = n ∧
  re_sub false and_the " & the " n = n ∧
  normalize_artist_name n = n.
Proof.
  split; [reflexivity|]. split; [reflexivity|]. split; [reflexivity|].
  exact (normalize_artist_name_settled "Tom Petty and the Heartbreakers, live"
           eq_refl eq_refl).
Defined.

(** C4, as the spec has it, fails: the parentheses keep the word "with"
    from being read as a featuring trigger the first time, and are gone the
    second time. *)
Lemma normalize_artist_name_not_idempotent :
  normalize_artist_name "Simon (with Garfunkel)" = "simon with garfunkel" ∧
  normalize_artist_name (normalize_artist_name "Simon (with Garfunkel)") = "simon" ∧
  normalize_artist_name (normalize_artist_name "Simon (with Garfunkel)") ≠
    normalize_artist_name "Simon (with Garfunkel)".
Proof. split_and!; [reflexivity|reflexivity|by vm_compute]. Qed.

(** ** Names of the form "A & The B" *)

Lemma plain_inner c : plain c = true → inner c = true.
Proof. each_char c; vm_compute; congruence. Qed.

Lemma plain_not_space c : plain c = true → Char.is_space c = false.
Proof. each_char c; vm_compute; congruence. Qed.

Lemma plain_tidy c : plain c = true → tidy c = true.
Proof. each_char c; vm_compute; congruence. Qed.


Lemma plain_not_dot ic c : plain c = true → lit_eq ic "." c = false.
Proof. destruct ic; each_char c; vm_compute; congruence. Qed.

Lemma inner_not_space c : inner c = true → Char.is_space c = false.
Proof. unfold inner. intros [H _]%andb_true_iff. by apply negb_true_iff. Qed.

Lemma inner_not_comma ic c : inner c = true → lit_eq ic "," c = false.
Proof. destruct ic; each_char c; vm_compute; congruence. Qed.

Lemma string_app_assoc (s t u : string) : (s +:+ t) +:+ u = s +:+ (t +:+ u).
Proof.
  induction s as [|c s IH]; [done|].
  change (String c s +:+ t) with (String c (s +:+ t)).
  change (String c (s +:+ t) +:+ u) with (String c ((s +:+ t) +:+ u)).
  by rewrite IH.
Qed.



Lemma plain_not_upper c : plain c = true → Char.is_upper c = false.
Proof. each_char c; vm_compute; congruence. Qed.

Lemma plain_not_blank ic c : Char.is_upper c = false → Char.is_space c = false →
  lit_eq ic c " " = false.
Proof. destruct ic; each_char c; vm_compute; congruence. Qed.

Lemma lit_eq_plain ic c d :
  Char.is_upper c = false → plain d = true → lit_eq ic c d = true → c = d.
Proof.
  intros Hc Hd. unfold lit_eq. destruct ic; [|apply char_eqb_eq].
  rewrite (lower_fixed c Hc), (lower_fixed d (plain_not_upper d Hd)).
  apply char_eqb_eq.
Qed.


Lemma name_word_plain w : name_word w = true → sall plain w = true.
Proof. unfold name_word. by intros [[_ H]%andb_true_iff _]%andb_true_iff. Qed.

Lemma name_word_nonempty w : name_word w = true → w ≠ EmptyString.
Proof.
  unfold name_word, str_eqb. intros [[H _]%andb_true_iff _]%andb_true_iff.
  apply negb_true_iff in H. by apply bool_decide_eq_false in H.
Qed.

Lemma name_word_not_trigger w : name_word w = true → w ∉ trigger_words.
Proof.
  unfold name_word. intros [_ H]%andb_true_iff.
  apply negb_true_iff in H. by apply bool_decide_eq_false in H.
Qed.

(** A trigger word, followed by a tail that fails after a plain
    character, fails on a word of plain characters, unless the word is the
    trigger word itself and the tail matches what follows the word. *)
Lemma lits_fails ic tw tail w t k :
  trigger_word ic tw → tail_fails ic tail →
  sall plain w = true → after_word t →
  (w = tw → re_go ic tail t k = None) →
  re_go ic (lits tw tail) (w +:+ t) k = None.
Proof.
  intros Htw Htail. revert w.
  induction tw as [|c tw IH]; intros w Hw Ht Hsame.
  - destruct w as [|d w]; [by apply Hsame|].
    apply andb_true_iff in Hw as [Hd _]. by apply Htail.
  - destruct Htw as [[Hblank Hc] Htw]. simpl.
    destruct w as [|d w].
    + change (EmptyString +:+ t) with t.
      destruct Ht as [-> | [u ->]]; [done|]. by rewrite Hblank.
    + change (String d w +:+ t) with (String d (w +:+ t)).
      apply andb_true_iff in Hw as [Hd Hw].
      destruct (lit_eq ic c d) eqn:E; [|done].
      apply Hc in E as <-; [|done]. apply IH; [done..|].
      intros ->. by apply Hsame.
Qed.

Lemma ws_tail_fails ic r : tail_fails ic (Seq ws r).
Proof. intros c u k Hc. simpl. by rewrite (plain_not_space c Hc). Qed.

Lemma dot_tail_fails ic r : tail_fails ic (Seq (Lit ".") r).
Proof. intros c u k Hc. simpl. by rewrite (plain_not_dot ic c Hc). Qed.

Lemma opt_dot_tail_fails ic r : tail_fails ic (Seq (Opt (Lit ".")) (Seq ws r)).
Proof.
  intros c u k Hc. simpl.
  by rewrite (plain_not_dot ic c Hc), (plain_not_space c Hc).
Qed.

Lemma dot_fails_after_word ic r t k :
  after_word t → re_go ic (Seq (Lit ".") r) t k = None.
Proof. intros [-> | [u ->]]; [done|]. by destruct ic. Qed.

(** A pattern that is white space, then a trigger word, then a tail. *)
Lemma trigger_guarded ic w tail : guarded ic (Seq ws (lits w tail)).
Proof.
  intros c u Hc. unfold match_len. simpl. by rewrite (inner_not_space c Hc).
Qed.

Lemma trigger_blank_fails ic tw tail :
  trigger_word ic tw → tail_fails ic tail →
  (tw ∈ trigger_words ∨ tw = "&" ∨ ∀ t k, after_word t → re_go ic tail t k = None) →
  blank_fails ic (Seq ws (lits tw tail)).
Proof.
  intros Htw Htail Hsame w t Hw Ht. unfold match_len. simpl.
  rewrite lits_fails; [done..|by apply name_word_plain|done|].
  intros ->. destruct Hsame as [Hin|[->|Hfail]].
  - by apply name_word_not_trigger in Hw.
  - by apply name_word_plain in Hw.
  - by apply Hfail.
Qed.

Lemma comma_guarded ic r : guarded ic (Seq (Lit ",") r).
Proof.
  intros c u Hc. unfold match_len. simpl. by rewrite (inner_not_comma ic c Hc).
Qed.

Ltac trigger_word_tac :=
  cbn [trigger_word]; repeat split; try (intros d; by apply lit_eq_plain);
  by apply plain_not_blank.

Lemma no_match_guarded ic r u t :
  guarded ic r → sall plain u = true → no_match ic r t → no_match ic r (u +:+ t).
Proof.
  intros Hg Hu Ht. induction u as [|c u IH]; [done|].
  apply andb_true_iff in Hu as [Hc Hu].
  change (String c u +:+ t) with (String c (u +:+ t)). split; [|by apply IH].
  by apply Hg, plain_inner.
Qed.

Lemma name_tail_after_word t : name_tail t → after_word t.
Proof. intros [|w t' _ _|w t' _ _]; [by left|right; by eexists..]. Qed.

(** A pattern that is guarded and fails at the blanks matches nowhere in a
    name. *)
Lemma no_match_name ic r w t :
  guarded ic r → blank_fails ic r → middle_fails ic r →
  name_word w = true → name_tail t → no_match ic r (w +:+ t).
Proof.
  intros Hg Hb Hm Hw Ht.
  apply no_match_guarded; [done|by apply name_word_plain|]. clear w Hw.
  induction Ht as [|w t Hw Ht IH|w t Hw Ht IH]; [done| |].
  - change (" " +:+ w +:+ t) with (String " " (w +:+ t)). split.
    + by apply Hb, name_tail_after_word.
    + apply no_match_guarded; [done|by apply name_word_plain|done].
  - destruct (Hm (w +:+ t)) as [Hm1 Hm2].
    change (" & the " +:+ w +:+ t) with
      (String " " (String "&" (String " " (String "t" (String "h"
         (String "e" (String " " (w +:+ t)))))))) in *.
    change (" the " +:+ w +:+ t) with
      (String " " (String "t" (String "h" (String "e" (String " " (w +:+ t)))))) in *.
    cbn [no_match]. split_and!; try (by apply Hg); try done.
    + by apply Hb, name_tail_after_word.
    + apply no_match_guarded; [done|by apply name_word_plain|done].
Qed.

Lemma featuring_patterns_no_match w t :
  name_word w = true → name_tail t →
  Forall (λ r, no_match true r (w +:+ t)) featuring_patterns.
Proof.
  intros Hw Ht. unfold featuring_patterns, ampersand_pattern.
  repeat apply Forall_cons_2; [..|apply Forall_nil_2].
  - apply no_match_name; [apply comma_guarded| | |done..]; by intros ?.
  - apply no_match_name; [| |by intros ?|done..].
    + apply (trigger_guarded true "feat" (Seq (Lit ".") rest_of_line)).
    + apply (trigger_blank_fails true "feat" (Seq (Lit ".") rest_of_line));
        [trigger_word_tac|apply dot_tail_fails|].
      right; right. intros. by apply dot_fails_after_word.
  - apply no_match_name; [| |by intros ?|done..].
    + apply (trigger_guarded true "ft" (Seq (Lit ".") rest_of_line)).
    + apply (trigger_blank_fails true "ft" (Seq (Lit ".") rest_of_line));
        [trigger_word_tac|apply dot_tail_fails|].
      right; right. intros. by apply dot_fails_after_word.
  - apply no_match_name; [apply trigger_guarded| |by intros ?|done..].
    apply trigger_blank_fails; [trigger_word_tac|apply ws_tail_fails|].
    left. set_solver.
  - apply no_match_name; [apply trigger_guarded| |by intros ?|done..].
    apply trigger_blank_fails; [trigger_word_tac|apply ws_tail_fails|].
    left. set_solver.
  - apply no_match_name; [apply trigger_guarded| |by intros ?|done..].
    apply trigger_blank_fails; [trigger_word_tac|apply opt_dot_tail_fails|].
    left. set_solver.
  - apply no_match_name; [apply trigger_guarded| |by intros ?|done..].
    apply trigger_blank_fails; [trigger_word_tac|apply ws_tail_fails|].
    right; by left.
Qed.

Lemma strip_featuring_fixed s :
  Forall (λ r, no_match true r s) featuring_patterns → strip_featuring s = s.
Proof.
  unfold strip_featuring. induction featuring_patterns as [|r l IH]; [done|].
  intros [Hr Hl]%Forall_cons. simpl. rewrite re_sub_no_match by done. by apply IH.
Qed.

Lemma and_the_no_match w t :
  name_word w = true → name_tail t → no_match false and_the (w +:+ t).
Proof.
  intros Hw Ht. unfold and_the.
  apply no_match_name; [apply trigger_guarded| |by intros ?|done..].
  apply trigger_blank_fails; [trigger_word_tac|apply ws_tail_fails|].
  left. set_solver.
Qed.

Lemma spaced_plain_app x u t :
  sall plain u = true → u ≠ EmptyString → spaced false t = true →
  spaced x (u +:+ t) = true.
Proof.
  intros Hu Hne Ht. destruct u as [|c u]; [done|]. clear Hne.
  revert x c Hu. induction u as [|d u IH]; intros x c [Hc Hu]%andb_true_iff.
  - change (spaced x (String c t) = true). simpl. by rewrite (plain_not_space c Hc).
  - change (spaced x (String c (String d u +:+ t)) = true).
    cbn [spaced]. rewrite (plain_not_space c Hc). by apply IH.
Qed.

Lemma name_tail_shape t :
  name_tail t → sall tidy t = true ∧ spaced false t = true.
Proof.
  induction 1 as [|w t Hw Ht [IH1 IH2]|w t Hw Ht [IH1 IH2]]; [done| |].
  - rewrite !sall_app, IH1.
    rewrite (sall_impl _ _ _ plain_tidy (name_word_plain w Hw)). split; [done|].
    change (" " +:+ w +:+ t) with (String " " (w +:+ t)). simpl.
    apply spaced_plain_app;
      [by apply name_word_plain|by apply name_word_nonempty|done].
  - rewrite !sall_app, IH1.
    rewrite (sall_impl _ _ _ plain_tidy (name_word_plain w Hw)). split; [done|].
    change (" & the " +:+ w +:+ t) with
      (String " " (String "&" (String " " (String "t" (String "h"
         (String "e" (String " " (w +:+ t)))))))). simpl.
    apply spaced_plain_app;
      [by apply name_word_plain|by apply name_word_nonempty|done].
Qed.

Lemma rstrip_app p x y :
  rstrip p y ≠ EmptyString → rstrip p (x +:+ y) = x +:+ rstrip p y.
Proof.
  intros Hy. induction x as [|c x IH]; [done|].
  change (String c x +:+ y) with (String c (x +:+ y)).
  rewrite rstrip_cons, IH.
  change (String c x +:+ rstrip p y) with (String c (x +:+ rstrip p y)).
  destruct (x +:+ rstrip p y) eqn:E; [|done].
  destruct x; [|done]. by destruct (rstrip p y).
Qed.

Lemma rstrip_plain u : sall plain u = true → rstrip Char.is_space u = u.
Proof.
  induction u as [|c u IH]; [done|].
  intros [Hc Hu]%andb_true_iff. rewrite rstrip_cons, IH by done.
  destruct u; [by rewrite (plain_not_space c Hc)|done].
Qed.

Lemma string_app_nil_r (s : string) : s +:+ EmptyString = s.
Proof.
  induction s as [|c s IH]; [done|].
  change (String c s +:+ EmptyString) with (String c (s +:+ EmptyString)).
  by rewrite IH.
Qed.

Lemma rstrip_name w t :
  name_word w = true → name_tail t →
  rstrip Char.is_space (w +:+ t) = w +:+ t.
Proof.
  intros Hw Ht. revert w Hw.
  induction Ht as [|w' t Hw' Ht IH|w' t Hw' Ht IH]; intros w Hw.
  - rewrite string_app_nil_r. by apply rstrip_plain, name_word_plain.
  - assert (Hne : w' +:+ t ≠ EmptyString).
    { apply name_word_nonempty in Hw'. by destruct w'. }
    rewrite <- (string_app_assoc w " " (w' +:+ t)).
    rewrite rstrip_app; rewrite IH; done.
  - assert (Hne : w' +:+ t ≠ EmptyString).
    { apply name_word_nonempty in Hw'. by destruct w'. }
    rewrite <- (string_app_assoc w " & the " (w' +:+ t)).
    rewrite rstrip_app; rewrite IH; done.
Qed.

(** A name of such words is normalized to its lower-case form. *)
Lemma normalize_artist_name_of_name s w t :
  str_lower s = w +:+ t → name_word w = true → name_tail t →
  normalize_artist_name s = str_lower s.
Proof.
  intros Hs Hw Ht.
  destruct (name_tail_shape t Ht) as [Htidy Hsp].
  assert (Hall : sall tidy (w +:+ t) = true).
  { by rewrite sall_app, (sall_impl _ _ _ plain_tidy (name_word_plain w Hw)). }
  unfold normalize_artist_name. rewrite Hs.
  rewrite strip_featuring_fixed by by apply featuring_patterns_no_match.
  rewrite re_sub_class, sfilter_all.
  2:{ eapply sall_impl; [|apply Hall]. intros c Hc. by rewrite (tidy_kept c Hc). }
  rewrite (proj1 (re_sub_collapse _)), squeeze_fixed; [|done|].
  2:{ apply spaced_plain_app;
        [by apply name_word_plain|by apply name_word_nonempty|done]. }
  rewrite re_sub_no_match by by apply and_the_no_match.
  unfold strip. rewrite rstrip_name by done.
  pose proof (name_word_plain w Hw) as Hp.
  pose proof (name_word_nonempty w Hw) as Hne.
  destruct w as [|c w]; [done|]. apply andb_true_iff in Hp as [Hc _].
  change (String c w +:+ t) with (String c (w +:+ t)).
  simpl. by rewrite (plain_not_space c Hc).
Qed.

(** A longer name of this form. *)
Lemma huey_lewis_and_the_news :
  normalize_artist_name "Huey Lewis & The News" = "huey lewis & the news".
Proof.
  exact (normalize_artist_name_of_name "Huey Lewis & The News" "huey"
           " lewis & the news" eq_refl eq_refl
           (tail_word "lewis" _ eq_refl (tail_the "news" _ eq_refl tail_end))).
Qed.




(** * Further properties *)

(** ** Comparison keys and file names *)

Lemma sall_not_upper_fixed s :
  sall (λ c, negb (Char.is_upper c)) s = true → str_lower s = s.
Proof.
  intros H. apply smap_fixed. eapply sall_impl; [|apply H].
  intros c Hc. apply char_eqb_eq, lower_fixed. by apply negb_true_iff.
Qed.

Lemma normalize_string_filter s :
  normalize_string s =
    sfilter (λ c, negb (not_word_space c)) (str_lower s).
Proof. unfold normalize_string. apply re_sub_class. Qed.

(** X1: [normalize_string] is idempotent: a comparison key is its own
    key. *)
Theorem normalize_string_idempotent s :
  normalize_string (normalize_string s) = normalize_string s.
Proof.
  rewrite (normalize_string_filter (normalize_string s)).
  rewrite sall_not_upper_fixed.
  - rewrite normalize_string_filter. apply sfilter_all, sall_sfilter_self.
  - rewrite normalize_string_filter. apply sall_sfilter, sall_str_lower.
Qed.

(** X2: the comparison key of an ASCII string holds none of the letters A
    to Z and nothing but the letters a to z, digits, underscores and white
    space: no punctuation is left. *)
Theorem normalize_string_shape s :
  sall (λ c, (Char.code c <? 128)%N) s = true →
  sall (λ c, negb (Char.is_upper c) && (Char.is_word c || Char.is_space c))
    (normalize_string s) = true.
Proof.
  intros _. rewrite normalize_string_filter. apply sall_and.
  - apply sall_sfilter, sall_str_lower.
  - eapply sall_impl; [|apply sall_sfilter_self].
    intros c Hc. unfold not_word_space in Hc. by rewrite negb_involutive in Hc.
Qed.

Lemma normalize_string_shape_witness :
  sall (λ c, (Char.code c <? 128)%N) "  The Beatles!! (Live) " = true ∧
  sall (λ c, negb (Char.is_upper c) && (Char.is_word c || Char.is_space c))
    (normalize_string "  The Beatles!! (Live) ") = true.
Proof.
  split; [reflexivity|].
  apply (normalize_string_shape "  The Beatles!! (Live) "). reflexivity.
Defined.

Lemma rstrip_all_empty p s :
  sall p (rstrip p s) = true → rstrip p s = EmptyString.
Proof.
  induction s as [|c s IH]; [done|]. rewrite rstrip_cons.
  destruct (rstrip p s) as [|d r] eqn:E.
  - destruct (p c) eqn:Ec; [done|]. simpl. by rewrite Ec.
  - simpl. intros [_ H]%andb_true_iff. by apply IH in H.
Qed.

Lemma rstrip_empty_iff p s : rstrip p s = EmptyString ↔ sall p s = true.
Proof.
  induction s as [|c s IH]; [done|]. rewrite rstrip_cons. simpl.
  destruct (rstrip p s) as [|d r] eqn:E.
  - destruct (p c); simpl; [|done]. split; [intros _; by apply IH|done].
  - split; [done|]. intros [_ H]%andb_true_iff. by apply IH in H.
Qed.

Lemma lstrip_empty_iff p s : lstrip p s = EmptyString ↔ sall p s = true.
Proof.
  induction s as [|c s IH]; [done|]. simpl. by destruct (p c).
Qed.

Lemma strip_empty_iff p s : strip p s = EmptyString ↔ sall p s = true.
Proof.
  unfold strip. rewrite lstrip_empty_iff. split.
  - intros H. by apply rstrip_empty_iff, rstrip_all_empty.
  - intros H. apply rstrip_empty_iff in H. by rewrite H.
Qed.

Lemma sall_sfilter_or p q s :
  sall q (sfilter p s) = sall (λ c, negb (p c) || q c) s.
Proof.
  induction s as [|c s IH]; [done|]. simpl.
  destruct (p c); simpl; by rewrite IH.
Qed.

Lemma sanitize_filename_filter s :
  sanitize_filename s =
    strip (λ c, Char.eqb c "." || Char.eqb c " ")
      (sfilter (λ c, negb (is_invalid_char c)) s).
Proof. unfold sanitize_filename. by rewrite re_sub_class. Qed.

(** X3: a sanitized name holds none of the nine invalid characters, and
    neither starts nor ends with a dot or a blank: stripping it again on the
    left or on the right changes nothing. *)
Theorem sanitize_filename_clean s :
  let r := sanitize_filename s in
  sall (λ c, negb (is_invalid_char c)) r = true ∧
  lstrip (λ c, Char.eqb c "." || Char.eqb c " ") r = r ∧
  rstrip (λ c, Char.eqb c "." || Char.eqb c " ") r = r.
Proof.
  cbv zeta. rewrite sanitize_filename_filter. unfold strip. split_and!.
  - apply sall_lstrip, sall_rstrip, sall_sfilter_self.
  - apply lstrip_idem.
  - apply rstrip_lstrip, rstrip_idem.
Qed.

(** X4: [sanitize_filename] is idempotent. *)
Theorem sanitize_filename_idempotent s :
  sanitize_filename (sanitize_filename s) = sanitize_filename s.
Proof.
  rewrite (sanitize_filename_filter (sanitize_filename s)).
  rewrite sfilter_all.
  - rewrite sanitize_filename_filter. apply strip_idem.
  - rewrite sanitize_filename_filter. unfold strip.
    apply sall_lstrip, sall_rstrip, sall_sfilter_self.
Qed.

(** X5: the sanitized name is empty exactly when the name holds nothing
    but invalid characters, dots and blanks; a title such as "???" leaves a
    file name without a title part. *)
Theorem sanitize_filename_empty s :
  sanitize_filename s = EmptyString ↔
  sall (λ c, is_invalid_char c || Char.eqb c "." || Char.eqb c " ") s = true.
Proof.
  rewrite sanitize_filename_filter, strip_empty_iff, sall_sfilter_or.
  assert (Heq : ∀ c, negb (negb (is_invalid_char c)) || (Char.eqb c "." || Char.eqb c " ")
                     = is_invalid_char c || Char.eqb c "." || Char.eqb c " ").
  { intros c. by rewrite negb_involutive, orb_assoc. }
  induction s as [|c s IH]; [done|]. simpl. rewrite Heq.
  rewrite !andb_true_iff. by rewrite IH.
Qed.

(** ** The registry: canonical names resolve to themselves *)

Lemma get_canonical_artist_canonical dm a :
  registry_ok dm → artists_canonical dm →
  artists_canonical (get_canonical_artist dm a).2.
Proof.
  intros Hok Hc k c. rewrite get_canonical_artist_lookup by done.
  destruct (artist_mappings dm !! k) as [c'|] eqn:E.
  - intros [= <-]. by apply Hc.
  - case_bool_decide; [|done]. by intros [= <-].
Qed.

Lemma do_call_canonical ratio dm c :
  registry_ok dm → artists_canonical dm → artists_canonical (do_call ratio dm c).
Proof.
  intros Hok Hc k x. destruct (do_call_artists ratio dm c) as [-> _].
  by apply get_canonical_artist_canonical.
Qed.

Lemma run_canonical ratio cs dm :
  registry_ok dm → artists_canonical dm → artists_canonical (run ratio cs dm).
Proof.
  revert dm. induction cs as [|c cs IH]; intros dm Hok Hc; [done|].
  simpl. apply IH; [by apply do_call_ok|by apply do_call_canonical].
Qed.

Lemma new_manager_canonical : artists_canonical new_manager.
Proof. intros k c H. simpl in H. by rewrite lookup_empty in H. Qed.

(** What [get_canonical_artist] returns is mapped under the key. *)
Lemma get_canonical_artist_mapped dm a :
  registry_ok dm →
  artist_mappings (get_canonical_artist dm a).2 !! normalize_artist_name a =
    Some (get_canonical_artist dm a).1.
Proof.
  intros Hok.
  destruct (artist_mappings dm !! normalize_artist_name a) as [c|] eqn:E.
  - by rewrite (get_canonical_artist_hit _ _ _ E).
  - rewrite (get_canonical_artist_miss _ _ Hok E). apply lookup_insert_eq.
Qed.

(** X6: the canonical form that [get_canonical_artist] returns has the
    normalized key of the spelling it was asked for, and resolving the
    canonical form itself, after any further calls, returns it unchanged. *)
Theorem canonical_artist_resolves_to_itself ratio cs later a :
  let dm := run ratio cs new_manager in
  let first := get_canonical_artist dm a in
  normalize_artist_name first.1 = normalize_artist_name a ∧
  get_canonical_artist (run ratio later first.2) first.1 =
    (first.1, run ratio later first.2).
Proof.
  intros dm first.
  assert (Hok : registry_ok dm) by apply run_ok, new_manager_ok.
  assert (Hc : artists_canonical first.2).
  { apply get_canonical_artist_canonical; [done|].
    apply run_canonical; [apply new_manager_ok|apply new_manager_canonical]. }
  pose proof (get_canonical_artist_mapped dm a Hok) as Hm. fold first in Hm.
  pose proof (Hc _ _ Hm) as Hk. split; [done|].
  apply get_canonical_artist_hit. rewrite Hk.
  apply run_keeps; [by apply get_canonical_artist_ok|done].
Qed.

(** How a call of [get_canonical_album] ends: with an exact hit and the
    albums as they were, or with a new key added at the end of the albums
    of the canonical artist, for the raw album or for a name that is
    stored already. *)
Lemma get_canonical_album_outcome ratio dm a b :
  let ca := (get_canonical_artist dm a).1 in
  let dm1 := (get_canonical_artist dm a).2 in
  let key := normalize_string b in
  let res := get_canonical_album ratio dm a b in
  (dict_get (albums_of dm ca) key = Some res.1 ∧ res.2 = dm1) ∨
  (dict_get (albums_of dm ca) key = None ∧
   res.2 = set_album dm1 ca key res.1 ∧
   (res.1 = b ∨ res.1 ∈ dict_values (albums_of dm ca))).
Proof.
  intros ca dm1 key res. subst res. unfold get_canonical_album.
  rewrite (surjective_pairing (get_canonical_artist dm a)).
  fold ca dm1 key.
  assert (Halb : albums_of dm1 ca = albums_of dm ca)
    by apply get_canonical_artist_albums_of.
  rewrite !Halb.
  destruct (dict_get (albums_of dm ca) key) eqn:Ekey; [by left|]. right.
  pose proof (find_similar_name_spec ratio b (dict_values (albums_of dm ca))) as Hspec.
  destruct (find_similar_name _ _ _ _) as [[|c r]|]; simpl; split_and!; auto.
  right. destruct Hspec as (i & Hi & _). by eapply list_elem_of_lookup_2.
Qed.

Lemma dict_get_elem {V} (d : list (string * V)) k v :
  dict_get d k = Some v → v ∈ dict_values d.
Proof.
  induction d as [|[k' v'] d IH]; [done|]. simpl. unfold str_eqb.
  case_bool_decide.
  - intros [= ->]. apply elem_of_cons. by left.
  - intros Hd. apply elem_of_cons. right. by apply IH.
Qed.

(** The albums after a call: those of the canonical artist may have got a
    new key at the end, the others are as they were. *)
Lemma get_canonical_album_albums ratio dm a b ca' :
  let ca := (get_canonical_artist dm a).1 in
  let res := get_canonical_album ratio dm a b in
  let key := normalize_string b in
  albums_of res.2 ca' =
    if decide (ca = ca') then
      match dict_get (albums_of dm ca) key with
      | Some _ => albums_of dm ca
      | None => albums_of dm ca ++ [(key, res.1)]
      end
    else albums_of dm ca'.
Proof.
  intros ca res key.
  pose proof (get_canonical_album_outcome ratio dm a b) as H.
  cbv zeta in H. fold ca key res in H.
  destruct H as [[Hk Hr]|(Hk & Hr & _)]; rewrite Hr, Hk.
  - rewrite get_canonical_artist_albums_of. by case_decide; subst.
  - rewrite albums_of_set_album, get_canonical_artist_albums_of.
    case_decide; [|by rewrite get_canonical_artist_albums_of].
    by apply dict_set_fresh.
Qed.

(** The result of a call is stored under the key. *)
Lemma get_canonical_album_stored ratio dm a b :
  let ca := (get_canonical_artist dm a).1 in
  let res := get_canonical_album ratio dm a b in
  dict_get (albums_of res.2 ca) (normalize_string b) = Some res.1.
Proof.
  intros ca res.
  pose proof (get_canonical_album_albums ratio dm a b ca) as Ha.
  pose proof (get_canonical_album_outcome ratio dm a b) as H.
  cbv zeta in Ha, H. fold ca res in Ha, H. rewrite Ha, decide_True by done.
  destruct H as [[Hk _]|(Hk & _ & _)]; rewrite Hk; [done|].
  rewrite dict_get_app, Hk. simpl. unfold str_eqb.
  by rewrite bool_decide_eq_true_2.
Qed.

(** A key that is stored stays stored, whatever is called. *)
Lemma do_call_keeps_album ratio dm c ca k v :
  dict_get (albums_of dm ca) k = Some v →
  dict_get (albums_of (do_call ratio dm c) ca) k = Some v.
Proof.
  intros H. destruct c as [a|a b]; simpl.
  - by rewrite get_canonical_artist_albums_of.
  - pose proof (get_canonical_album_albums ratio dm a b ca) as Ha.
    cbv zeta in Ha. rewrite Ha. clear Ha. case_decide as Hca; [|done].
    rewrite Hca. destruct (dict_get _ (normalize_string b)); [done|].
    by rewrite dict_get_app, H.
Qed.

Lemma run_keeps_album ratio cs dm ca k v :
  dict_get (albums_of dm ca) k = Some v →
  dict_get (albums_of (run ratio cs dm) ca) k = Some v.
Proof.
  revert dm. induction cs as [|c cs IH]; intros dm H; [done|].
  simpl. by apply IH, do_call_keeps_album.
Qed.

Lemma get_canonical_album_canonical ratio dm a b :
  albums_canonical dm → albums_canonical (get_canonical_album ratio dm a b).2.
Proof.
  intros Hc ca' c.
  pose proof (get_canonical_album_albums ratio dm a b ca') as Ha.
  cbv zeta in Ha. rewrite Ha. clear Ha.
  case_decide as Hca; [|apply Hc]. clear ca' Hca.
  pose proof (get_canonical_album_outcome ratio dm a b) as H. cbv zeta in H.
  destruct H as [[Hk _]|(Hk & _ & Hv)]; rewrite Hk; [apply Hc|].
  unfold dict_values. rewrite fmap_app. intros [Hin|Hin]%elem_of_app.
  - rewrite dict_get_app. by rewrite (Hc _ _ Hin).
  - apply list_elem_of_singleton in Hin. simpl in Hin. subst c.
    rewrite dict_get_app. destruct Hv as [->|Hv].
    + rewrite Hk. simpl. unfold str_eqb. by rewrite bool_decide_eq_true_2.
    + by rewrite (Hc _ _ Hv).
Qed.

Lemma do_call_albums_canonical ratio dm c :
  albums_canonical dm → albums_canonical (do_call ratio dm c).
Proof.
  intros Hc. destruct c as [a|a b]; simpl.
  - intros ca c. rewrite !get_canonical_artist_albums_of. apply Hc.
  - by apply get_canonical_album_canonical.
Qed.

Lemma run_albums_canonical ratio cs dm :
  albums_canonical dm → albums_canonical (run ratio cs dm).
Proof.
  revert dm. induction cs as [|c cs IH]; intros dm Hc; [done|].
  simpl. by apply IH, do_call_albums_canonical.
Qed.

Lemma new_manager_albums_canonical : albums_canonical new_manager.
Proof. intros ca c Hc. by apply elem_of_nil in Hc. Qed.

(** After the artist [a] has been resolved, it is resolved to the same
    form, the registry unchanged, whatever was called in between. *)
Lemma get_canonical_artist_again ratio later dm a :
  registry_ok dm →
  let first := get_canonical_artist dm a in
  ∀ dm', dm' = run ratio later first.2 →
  get_canonical_artist dm' a = (first.1, dm').
Proof.
  intros Hok first dm' ->. apply get_canonical_artist_hit.
  apply run_keeps; [by apply get_canonical_artist_ok|].
  by apply get_canonical_artist_mapped.
Qed.

Lemma get_canonical_album_artist ratio dm a b :
  artist_mappings (get_canonical_album ratio dm a b).2 =
    artist_mappings (get_canonical_artist dm a).2.
Proof. apply get_canonical_album_artists. Qed.

(** A second call for an album whose key is stored under the canonical
    artist. *)
Lemma get_canonical_album_hit ratio dm a b ca v :
  artist_mappings dm !! normalize_artist_name a = Some ca →
  dict_get (albums_of dm ca) (normalize_string b) = Some v →
  get_canonical_album ratio dm a b = (v, dm).
Proof.
  intros Ha Hb. unfold get_canonical_album.
  rewrite (get_canonical_artist_hit _ _ _ Ha). by rewrite Hb.
Qed.

(** X7: album resolution is stable.  Once an album has been resolved
    under an artist, resolving the same album under the same artist again,
    after any further calls, returns the same name and leaves the registry
    as it is. *)
Theorem resolve_album_again ratio cs later a b :
  let dm := run ratio cs new_manager in
  let first := get_canonical_album ratio dm a b in
  get_canonical_album ratio (run ratio later first.2) a b =
    (first.1, run ratio later first.2).
Proof.
  intros dm first.
  assert (Hok : registry_ok dm) by apply run_ok, new_manager_ok.
  assert (Hok1 : registry_ok first.2).
  { unfold registry_ok. subst first.
    destruct (get_canonical_album_artists ratio dm a b) as [-> ->].
    by apply get_canonical_artist_ok. }
  apply get_canonical_album_hit with (ca := (get_canonical_artist dm a).1).
  - apply run_keeps; [done|]. subst first.
    rewrite get_canonical_album_artist. by apply get_canonical_artist_mapped.
  - apply run_keeps_album, get_canonical_album_stored.
Qed.

(** X8: the name that [get_canonical_album] returns is canonical: asked
    for that name under the same artist, after any further calls, the
    registry returns it unchanged. *)
Theorem canonical_album_resolves_to_itself ratio cs later a b :
  let dm := run ratio cs new_manager in
  let first := get_canonical_album ratio dm a b in
  get_canonical_album ratio (run ratio later first.2) a first.1 =
    (first.1, run ratio later first.2).
Proof.
  intros dm first.
  assert (Hok : registry_ok dm) by apply run_ok, new_manager_ok.
  assert (Hok1 : registry_ok first.2).
  { unfold registry_ok. subst first.
    destruct (get_canonical_album_artists ratio dm a b) as [-> ->].
    by apply get_canonical_artist_ok. }
  assert (Hc : albums_canonical first.2).
  { apply get_canonical_album_canonical, run_albums_canonical,
      new_manager_albums_canonical. }
  apply get_canonical_album_hit with (ca := (get_canonical_artist dm a).1).
  - apply run_keeps; [done|]. subst first.
    rewrite get_canonical_album_artist. by apply get_canonical_artist_mapped.
  - apply run_keeps_album, Hc. eapply dict_get_elem, get_canonical_album_stored.
Qed.

(** X9: the albums of the artists are kept apart: a call of
    [get_canonical_album] changes the albums of no canonical artist but the
    one it resolves, and there it only adds a key at the end. *)
Theorem albums_partitioned_by_artist ratio dm a b :
  let ca := (get_canonical_artist dm a).1 in
  let after := (get_canonical_album ratio dm a b).2 in
  (∀ ca', ca' ≠ ca → albums_of after ca' = albums_of dm ca') ∧
  ∃ added, albums_of after ca = albums_of dm ca ++ added ∧
           (length added ≤ 1)%nat.
Proof.
  intros ca after. subst after. split.
  - intros ca' Hne.
    pose proof (get_canonical_album_albums ratio dm a b ca') as Ha.
    cbv zeta in Ha. rewrite Ha. fold ca. by rewrite decide_False.
  - pose proof (get_canonical_album_albums ratio dm a b ca) as Ha.
    cbv zeta in Ha. rewrite Ha. fold ca. rewrite decide_True by done.
    destruct (dict_get _ _).
    + exists []. rewrite app_nil_r. split; [done|simpl; lia].
    + eexists [_]. split; [done|simpl; lia].
Qed.

(** ** The analysis pass: every file is accounted for *)

Lemma skipped_record_iff fs (l : list string) p why :
  p ∈ l →
  mkSkipRecord p why ∈ omap (skip_of fs) l ↔ skip_of fs p = Some (mkSkipRecord p why).
Proof.
  intros Hp. rewrite list_elem_of_omap. split.
  - intros (q & Hq & Hr). pose proof (skip_of_path fs q _ Hr) as Hpath.
    simpl in Hpath. by subst q.
  - intros H. by exists p.
Qed.

Lemma skip_of_observed fs p :
  skip_of fs p = None ↔ is_Some (observed fs p).
Proof.
  unfold skip_of, observed. destruct (get_audio_metadata fs p).
  - destruct (new_MusicFile fs p); split; try done; by intros [? ?].
  - split; [done|]. by intros [? ?].
Qed.

Lemma observed_as_elem fs h l p :
  p ∈ observed_as fs h l ↔ observed fs p = Some h ∧ p ∈ l.
Proof. unfold observed_as. by rewrite list_elem_of_filter. Qed.

Lemma head_tail_split {A} (l : list A) x :
  NoDup l → x ∈ l → (head l = Some x ∧ x ∉ tail l) ∨ (head l ≠ Some x ∧ x ∈ tail l).
Proof.
  intros Hnd Hx. destruct l as [|y l]; [by apply elem_of_nil in Hx|].
  apply NoDup_cons in Hnd as [Hy Hnd]. simpl.
  apply elem_of_cons in Hx as [->|Hx]; [by left|].
  right. split; [|done]. intros [= ->]. done.
Qed.

(** X10: every music file of the walk is accounted for, once: it is in
    the move plan, or in a duplicate group, or in the skip list, and in no
    two of them. *)
Theorem every_file_accounted_once ratio fs root_dir walk p :
  let st := analyze_music_directory ratio fs root_dir walk in
  let planned := in_move_plan st p in
  let duplicate := ∃ h, in_duplicates st h p in
  let skipped := ∃ why, mkSkipRecord p why ∈ skipped_files st in
  NoDup (full_path <$> music_entries walk) →
  p ∈ full_path <$> music_entries walk →
  (planned ∨ duplicate ∨ skipped) ∧
  ¬ (planned ∧ duplicate) ∧ ¬ (planned ∧ skipped) ∧ ¬ (duplicate ∧ skipped).
Proof.
  intros st planned duplicate skipped Hnd Hp.
  destruct (pass_inv_analyze ratio fs root_dir walk) as [_ Hd Hm Hs].
  fold st in Hd, Hm, Hs. set (l := full_path <$> music_entries walk) in *.
  assert (Hskip : skipped ↔ is_Some (skip_of fs p)).
  { unfold skipped. rewrite Hs. split.
    - intros [why H]. apply skipped_record_iff in H; [by eexists|done].
    - intros [r Hr]. pose proof (skip_of_path fs p r Hr) as Hpath.
      destruct r as [q why]. simpl in Hpath. subst q. exists why.
      by apply skipped_record_iff. }
  assert (Hdup : duplicate ↔ ∃ h, p ∈ tail (observed_as fs h l)).
  { unfold duplicate, in_duplicates. split.
    - intros (h & paths & Hl & Hin). exists h. by rewrite <- Hd, Hl.
    - intros (h & Hin). exists h. rewrite <- Hd in Hin.
      destruct (duplicates st !! h) as [paths|]; [by exists paths|].
      by apply elem_of_nil in Hin. }
  assert (Hplan : planned ↔ ∃ h, head (observed_as fs h l) = Some p) by apply Hm.
  assert (Hobs : ∀ h, p ∈ observed_as fs h l → observed fs p = Some h).
  { intros h Hin. by apply observed_as_elem in Hin as [? _]. }
  assert (Htail : ∀ h, p ∈ tail (observed_as fs h l) → p ∈ observed_as fs h l).
  { intros h. destruct (observed_as fs h l); [done|]. simpl. intros ?.
    apply elem_of_cons. by right. }
  assert (Hhead : ∀ h, head (observed_as fs h l) = Some p → p ∈ observed_as fs h l).
  { intros h. destruct (observed_as fs h l); [done|]. simpl. intros [= ->].
    apply elem_of_cons. by left. }
  assert (Hnds : ∀ h, NoDup (observed_as fs h l)).
  { intros h. by apply NoDup_filter. }
  rewrite Hskip, Hdup, Hplan. split_and!.
  - destruct (skip_of fs p) as [r|] eqn:Er; [right; right; by eexists|].
    apply skip_of_observed in Er as [h Hh].
    assert (Hin : p ∈ observed_as fs h l) by (by apply observed_as_elem).
    destruct (head_tail_split _ p (Hnds h) Hin) as [[H1 _]|[_ H2]].
    + left. by exists h.
    + right; left. by exists h.
  - intros [(h & Hh) (h' & Hh')].
    pose proof (Hobs _ (Hhead _ Hh)) as E. pose proof (Hobs _ (Htail _ Hh')) as E'.
    assert (h' = h) as -> by congruence.
    destruct (head_tail_split _ p (Hnds h) (Hhead _ Hh)) as [[_ H1]|[H1 _]]; done.
  - intros [(h & Hh) [r Hr]].
    pose proof (Hobs _ (Hhead _ Hh)) as E.
    assert (is_Some (observed fs p)) as Hsome%skip_of_observed by (by eexists).
    congruence.
  - intros [(h & Hh) [r Hr]].
    pose proof (Hobs _ (Htail _ Hh)) as E.
    assert (is_Some (observed fs p)) as Hsome%skip_of_observed by (by eexists).
    congruence.
Qed.

Lemma every_file_accounted_once_witness :
  let st := analyze_music_directory fuzz_ratio example_fs "/music" example_walk in
  let planned := in_move_plan st "/music/in/b.MP3" in
  let duplicate := ∃ h, in_duplicates st h "/music/in/b.MP3" in
  let skipped := ∃ why, mkSkipRecord "/music/in/b.MP3" why ∈ skipped_files st in
  NoDup (full_path <$> music_entries example_walk) ∧
  "/music/in/b.MP3" ∈ full_path <$> music_entries example_walk ∧
  (planned ∨ duplicate ∨ skipped) ∧
  ¬ (planned ∧ duplicate) ∧ ¬ (planned ∧ skipped) ∧ ¬ (duplicate ∧ skipped).
Proof.
  assert (Hin : "/music/in/b.MP3" ∈ full_path <$> music_entries example_walk).
  { rewrite example_paths. apply (bool_decide_unpack _). by vm_compute. }
  split; [exact example_paths_NoDup|]. split; [exact Hin|].
  exact (every_file_accounted_once fuzz_ratio example_fs "/music" example_walk
           "/music/in/b.MP3" example_paths_NoDup Hin).
Defined.

(** X11: the analysis names no file that is not a music file of the walk:
    what is in the move plan, in a duplicate group or in the skip list is
    the path of a file with a music extension that the walk has listed. *)
Theorem only_music_files_reported ratio fs root_dir walk p :
  let st := analyze_music_directory ratio fs root_dir walk in
  in_move_plan st p ∨ (∃ h, in_duplicates st h p) ∨
    (∃ why, mkSkipRecord p why ∈ skipped_files st) →
  ∃ dirpath filenames f,
    (dirpath, filenames) ∈ walk ∧ f ∈ filenames ∧
    is_music_file f = true ∧ p = path_join dirpath f.
Proof.
  intros st H.
  destruct (pass_inv_analyze ratio fs root_dir walk) as [_ Hd Hm Hs].
  fold st in Hd, Hm, Hs.
  assert (Hp : p ∈ full_path <$> music_entries walk).
  { destruct H as [H|[(h & paths & Hl & Hin)|[why H]]].
    - apply Hm in H as (h & Hh).
      destruct (observed_as fs h _) as [|q l] eqn:E; [done|].
      injection Hh as ->.
      assert (p ∈ observed_as fs h (full_path <$> music_entries walk)) as Hin
        by (rewrite E; apply elem_of_cons; by left).
      by apply observed_as_elem in Hin as [_ ?].
    - assert (p ∈ tail (observed_as fs h (full_path <$> music_entries walk))) as Ht
        by (by rewrite <- Hd, Hl).
      destruct (observed_as fs h _) as [|q l] eqn:E; [by apply elem_of_nil in Ht|].
      assert (p ∈ observed_as fs h (full_path <$> music_entries walk)) as Hin'
        by (rewrite E; apply elem_of_cons; by right).
      by apply observed_as_elem in Hin' as [_ ?].
    - rewrite Hs in H. apply list_elem_of_omap in H as (q & Hq & Hr).
      pose proof (skip_of_path fs q _ Hr) as Hpath. simpl in Hpath. by subst q. }
  apply list_elem_of_fmap in Hp as ([d f] & -> & He).
  unfold music_entries in He. apply list_elem_of_bind in He as ([d' fl] & He & Hw).
  apply list_elem_of_fmap in He as (f' & [= -> ->] & Hf).
  apply list_elem_of_filter in Hf as [Hmusic Hf].
  by exists d', fl, f'.
Qed.

Lemma only_music_files_reported_witness :
  let st := analyze_music_directory fuzz_ratio example_fs "/music" example_walk in
  (∃ why, mkSkipRecord "/music/in/c.flac" why ∈ skipped_files st) ∧
  ∃ dirpath filenames f,
    (dirpath, filenames) ∈ example_walk ∧ f ∈ filenames ∧
    is_music_file f = true ∧ "/music/in/c.flac" = path_join dirpath f.
Proof.
  assert (H : ∃ why, mkSkipRecord "/music/in/c.flac" why ∈
                skipped_files (analyze_music_directory fuzz_ratio example_fs
                                 "/music" example_walk)).
  { exists "Missing required metadata (title/artist)".
    assert (skipped_files (analyze_music_directory fuzz_ratio example_fs
                             "/music" example_walk) =
            [mkSkipRecord "/music/in/c.flac" "Missing required metadata (title/artist)";
             mkSkipRecord "/music/in/d.mp3"
               "Error processing file: [Errno 13] Permission denied"]) as ->
      by reflexivity.
    apply elem_of_cons. by left. }
  split; [exact H|].
  exact (only_music_files_reported fuzz_ratio example_fs "/music" example_walk
           "/music/in/c.flac" (or_intror (or_intror H))).
Defined.

(** ** The analysis pass: how the plan is filed *)

Section Plan.

Variable ratio : string → string → Z.
Variable fs : string → FileInfo.
Variable root_dir : string.

(** The loop body, with its intermediate results named. *)
Lemma process_file_cases st d f :
  let p := path_join d f in
  process_file ratio fs root_dir d st f =
    match get_audio_metadata fs p with
    | None => skip st p "Missing required metadata (title/artist)"
    | Some m =>
        let ra := get_canonical_artist (directory_manager st) (artist m) in
        let rb := get_canonical_album ratio ra.2 ra.1 (album m) in
        let md := mkMetadata ra.1 rb.1 (title m) (tracknumber m) in
        let st1 :=
          mkAnalysis (proposed_moves st) (unique_files st) (duplicates st)
            (skipped_files st) rb.2 in
        match new_MusicFile fs p with
        | Raise e => skip st1 p ("Error processing file: " +:+ e)
        | Ok mf =>
            match unique_files st !! mf_hash mf with
            | Some _ =>
                mkAnalysis (proposed_moves st) (unique_files st)
                  (<[mf_hash mf :=
                       default [] (duplicates st !! mf_hash mf) ++ [p]]>
                     (duplicates st))
                  (skipped_files st) rb.2
            | None =>
                let dir :=
                  path_join (path_join root_dir (sanitize_filename ra.1))
                    (sanitize_filename rb.1) in
                mkAnalysis
                  (<[dir := default [] (proposed_moves st !! dir) ++
                            [mkMoveEntry p f (mf_new_filename mf) md]]>
                     (proposed_moves st))
                  (<[mf_hash mf :=
                       mkMusicFile (mf_path mf) (mf_hash mf) md (mf_size mf)
                         (mf_new_filename mf)]> (unique_files st))
                  (duplicates st) (skipped_files st) rb.2
            end
        end
    end.
Proof.
  intros p. unfold process_file. fold p.
  destruct (get_audio_metadata fs p) as [m|]; [|done].
  destruct (get_canonical_artist _ _) as [ca dm1]. simpl.
  destruct (get_canonical_album _ _ _ _) as [cb dm2]. simpl.
  by destruct (new_MusicFile fs p).
Qed.

Lemma new_MusicFile_filename p mf m :
  get_audio_metadata fs p = Some m → new_MusicFile fs p = Ok mf →
  mf_new_filename mf = generate_new_filename m p.
Proof.
  unfold new_MusicFile. intros ->. destruct (get_file_hash fs p); [|done].
  destruct (fi_size (fs p)); [|done]. by intros [= <-].
Qed.

(** The registry after the two calls of the loop body. *)
Lemma registry_after_calls dm a b :
  registry_ok dm → artists_canonical dm →
  let ra := get_canonical_artist dm a in
  let rb := get_canonical_album ratio ra.2 ra.1 b in
  rb.2 = run ratio [ResolveArtist a; ResolveAlbum ra.1 b] dm ∧
  registry_ok rb.2 ∧ artists_canonical rb.2 ∧
  artist_mappings rb.2 !! normalize_artist_name a = Some ra.1 ∧
  dict_get (albums_of rb.2 ra.1) (normalize_string b) = Some rb.1.
Proof.
  intros Hok Hc ra rb.
  assert (Hrun : rb.2 = run ratio [ResolveArtist a; ResolveAlbum ra.1 b] dm) by done.
  assert (Hok1 : registry_ok ra.2) by (by apply get_canonical_artist_ok).
  assert (Hc1 : artists_canonical ra.2) by (by apply get_canonical_artist_canonical).
  assert (Hm : artist_mappings ra.2 !! normalize_artist_name a = Some ra.1)
    by (by apply get_canonical_artist_mapped).
  assert (Hself : get_canonical_artist ra.2 ra.1 = (ra.1, ra.2)).
  { apply get_canonical_artist_hit. by rewrite (Hc1 _ _ Hm). }
  split_and!; [done| | | |].
  - rewrite Hrun. by apply run_ok.
  - rewrite Hrun. by apply run_canonical.
  - subst rb. rewrite get_canonical_album_artist, Hself. done.
  - pose proof (get_canonical_album_stored ratio ra.2 ra.1 b) as Hs.
    cbv zeta in Hs. by rewrite Hself in Hs.
Qed.

Lemma entry_filed_run cs dm dir e :
  registry_ok dm →
  entry_filed fs root_dir dm dir e →
  entry_filed fs root_dir (run ratio cs dm) dir e.
Proof.
  intros Hok (raw & Hraw & Ha & Hb & Ht & Hn & Hdir & Hnew).
  exists raw. split_and!; try done.
  - by apply run_keeps.
  - by apply run_keeps_album.
Qed.

Lemma plan_inv_step st d f :
  plan_inv fs root_dir st →
  plan_inv fs root_dir (process_file ratio fs root_dir d st f).
Proof.
  intros [Hok Hc Hf]. rewrite process_file_cases. cbv zeta.
  destruct (get_audio_metadata fs (path_join d f)) as [m|] eqn:Em; [|done].
  destruct (registry_after_calls (directory_manager st) (artist m) (album m) Hok Hc)
    as (Hrun & Hok2 & Hc2 & Ha & Hb).
  set (ra := get_canonical_artist (directory_manager st) (artist m)) in *.
  set (rb := get_canonical_album ratio ra.2 ra.1 (album m)) in *.
  assert (Hold : ∀ dir es e, proposed_moves st !! dir = Some es → e ∈ es →
                   entry_filed fs root_dir rb.2 dir e).
  { intros dir es e Hl He. rewrite Hrun. apply entry_filed_run; [done|].
    by eapply Hf. }
  destruct (new_MusicFile fs (path_join d f)) as [mf|err] eqn:Ef; [|done].
  destruct (unique_files st !! mf_hash mf); [done|].
  split; [done..|]. simpl. intros dir es e Hl He.
  rewrite lookup_insert in Hl. case_decide as Hdir; [|by eapply Hold].
  injection Hl as <-. apply elem_of_app in He as [He|He].
  - destruct (proposed_moves st !! _) as [l|] eqn:El;
      [|by apply elem_of_nil in He].
    subst dir. by eapply Hold.
  - apply list_elem_of_singleton in He. subst e.
    exists m. simpl. split_and!; try done.
    by eapply new_MusicFile_filename.
Qed.

Lemma plan_inv_new : plan_inv fs root_dir new_analysis.
Proof.
  split; [apply new_manager_ok|apply new_manager_canonical|].
  intros dir es e H. simpl in H. by rewrite lookup_empty in H.
Qed.

Lemma plan_inv_analyze walk :
  plan_inv fs root_dir (analyze_music_directory ratio fs root_dir walk).
Proof.
  rewrite analyze_music_directory_analyze_entries. unfold analyze_entries.
  generalize (music_entries walk). intros es.
  induction es as [|e es IH] using rev_ind; [apply plan_inv_new|].
  rewrite foldl_app. simpl. by apply plan_inv_step.
Qed.

End Plan.

(** X12: every entry of the move plan is filed as its file demands.  The
    file has metadata; the artist of the entry is what the registry of the
    pass holds for the key of the raw artist, and its album what the
    registry holds, under this artist, for the key of the raw album; title
    and track number are the raw ones; the entry stands under the directory
    root/artist/album of its sanitized canonical names; and its new name is
    the one generated from the raw metadata and the path. *)
Theorem plan_entries_filed ratio fs root_dir walk dir es e :
  let st := analyze_music_directory ratio fs root_dir walk in
  proposed_moves st !! dir = Some es → e ∈ es →
  ∃ raw,
    get_audio_metadata fs (original_path e) = Some raw ∧
    artist_mappings (directory_manager st) !! normalize_artist_name (artist raw) =
      Some (artist (move_metadata e)) ∧
    dict_get (albums_of (directory_manager st) (artist (move_metadata e)))
      (normalize_string (album raw)) = Some (album (move_metadata e)) ∧
    title (move_metadata e) = title raw ∧
    tracknumber (move_metadata e) = tracknumber raw ∧
    dir = path_join
            (path_join root_dir (sanitize_filename (artist (move_metadata e))))
            (sanitize_filename (album (move_metadata e))) ∧
    new_filename e = generate_new_filename raw (original_path e).
Proof.
  intros st Hl He.
  by apply (inv_filed _ _ _ (plan_inv_analyze ratio fs root_dir walk) dir es e).
Qed.

Lemma example2_plan :
  proposed_moves (analyze_music_directory fuzz_ratio example_fs2 "/m" example_walk2)
    !! "/m/The Beatles/Help!" =
  Some [mkMoveEntry "/m/x/1.mp3" "1.mp3" "01 - Help!.mp3"
          (mkMetadata "The Beatles" "Help!" "Help!" "01");
        mkMoveEntry "/m/y/2.flac" "2.flac" "13 - Yesterday.flac"
          (mkMetadata "The Beatles" "Help!" "Yesterday" "13")].
Proof. reflexivity. Qed.

Lemma plan_entries_filed_witness :
  let st := analyze_music_directory fuzz_ratio example_fs2 "/m" example_walk2 in
  let e := mkMoveEntry "/m/y/2.flac" "2.flac" "13 - Yesterday.flac"
             (mkMetadata "The Beatles" "Help!" "Yesterday" "13") in
  ∃ raw,
    get_audio_metadata example_fs2 (original_path e) = Some raw ∧
    artist_mappings (directory_manager st) !! normalize_artist_name (artist raw) =
      Some (artist (move_metadata e)) ∧
    dict_get (albums_of (directory_manager st) (artist (move_metadata e)))
      (normalize_string (album raw)) = Some (album (move_metadata e)) ∧
    title (move_metadata e) = title raw ∧
    tracknumber (move_metadata e) = tracknumber raw ∧
    "/m/The Beatles/Help!" =
      path_join
        (path_join "/m" (sanitize_filename (artist (move_metadata e))))
        (sanitize_filename (album (move_metadata e))) ∧
    new_filename e = generate_new_filename raw (original_path e).
Proof.
  refine (plan_entries_filed fuzz_ratio example_fs2 "/m" example_walk2
            "/m/The Beatles/Help!" _ _ example2_plan _).
  apply elem_of_cons. right. apply elem_of_cons. by left.
Defined.

(** Two entries whose raw names have the same keys are filed alike. *)
Lemma entries_filed_alike fs root_dir dm dir1 dir2 e1 e2 raw1 raw2 :
  entry_filed fs root_dir dm dir1 e1 → entry_filed fs root_dir dm dir2 e2 →
  get_audio_metadata fs (original_path e1) = Some raw1 →
  get_audio_metadata fs (original_path e2) = Some raw2 →
  normalize_artist_name (artist raw1) = normalize_artist_name (artist raw2) →
  normalize_string (album raw1) = normalize_string (album raw2) →
  artist (move_metadata e1) = artist (move_metadata e2) ∧
  album (move_metadata e1) = album (move_metadata e2) ∧
  dir1 = dir2.
Proof.
  intros (r1 & Hr1 & Ha1 & Hb1 & _ & _ & -> & _) (r2 & Hr2 & Ha2 & Hb2 & _ & _ & -> & _)
    H1 H2 Ha Hb.
  assert (r1 = raw1) as -> by congruence. assert (r2 = raw2) as -> by congruence.
  rewrite Ha in Ha1. assert (Hartist : artist (move_metadata e1) = artist (move_metadata e2))
    by congruence.
  rewrite Hartist, Hb in Hb1.
  assert (Halbum : album (move_metadata e1) = album (move_metadata e2)) by congruence.
  by rewrite Hartist, Halbum.
Qed.

(** X13: spellings are brought together.  Two files of the move plan whose
    raw artists have the same normalized key and whose raw albums have the
    same normalized key are planned with the same artist and the same album,
    into the same directory. *)
Theorem same_keys_same_directory ratio fs root_dir walk dir1 es1 e1 dir2 es2 e2
    raw1 raw2 :
  let st := analyze_music_directory ratio fs root_dir walk in
  proposed_moves st !! dir1 = Some es1 → e1 ∈ es1 →
  proposed_moves st !! dir2 = Some es2 → e2 ∈ es2 →
  get_audio_metadata fs (original_path e1) = Some raw1 →
  get_audio_metadata fs (original_path e2) = Some raw2 →
  normalize_artist_name (artist raw1) = normalize_artist_name (artist raw2) →
  normalize_string (album raw1) = normalize_string (album raw2) →
  artist (move_metadata e1) = artist (move_metadata e2) ∧
  album (move_metadata e1) = album (move_metadata e2) ∧
  dir1 = dir2.
Proof.
  intros st Hl1 He1 Hl2 He2.
  pose proof (plan_inv_analyze ratio fs root_dir walk) as [_ _ Hf]. fold st in Hf.
  apply (entries_filed_alike fs root_dir (directory_manager st));
    by eapply Hf.
Qed.

Lemma same_keys_same_directory_witness :
  let st := analyze_music_directory fuzz_ratio example_fs2 "/m" example_walk2 in
  let e1 := mkMoveEntry "/m/x/1.mp3" "1.mp3" "01 - Help!.mp3"
              (mkMetadata "The Beatles" "Help!" "Help!" "01") in
  let e2 := mkMoveEntry "/m/y/2.flac" "2.flac" "13 - Yesterday.flac"
              (mkMetadata "The Beatles" "Help!" "Yesterday" "13") in
  get_audio_metadata example_fs2 "/m/x/1.mp3" =
    Some (mkMetadata "The Beatles" "Help!" "Help!" "01") ∧
  get_audio_metadata example_fs2 "/m/y/2.flac" =
    Some (mkMetadata "the beatles" "HELP" "Yesterday" "13") ∧
  normalize_artist_name "The Beatles" = normalize_artist_name "the beatles" ∧
  normalize_string "Help!" = normalize_string "HELP" ∧
  artist (move_metadata e1) = artist (move_metadata e2) ∧
  album (move_metadata e1) = album (move_metadata e2) ∧
  "/m/The Beatles/Help!" = "/m/The Beatles/Help!".
Proof.
  intros st e1 e2.
  split; [reflexivity|]. split; [reflexivity|].
  split; [reflexivity|]. split; [reflexivity|].
  refine (same_keys_same_directory fuzz_ratio example_fs2 "/m" example_walk2
            "/m/The Beatles/Help!" _ e1 "/m/The Beatles/Help!" _ e2
            (mkMetadata "The Beatles" "Help!" "Help!" "01")
            (mkMetadata "the beatles" "HELP" "Yesterday" "13")
            example2_plan _ example2_plan _ eq_refl eq_refl eq_refl eq_refl).
  - apply elem_of_cons. by left.
  - apply elem_of_cons. right. apply elem_of_cons. by left.
Defined.

(** ** Counting *)

Lemma entries_total_snoc {A} (d : gmap string (list A)) k x :
  entries_total (<[k := default [] (d !! k) ++ [x]]> d) = S (entries_total d).
Proof.
  unfold entries_total. destruct (d !! k) as [l|] eqn:E; simpl.
  - rewrite <- insert_delete_eq.
    rewrite map_to_list_insert by apply lookup_delete_eq.
    rewrite <- (map_to_list_delete d k l E). simpl.
    rewrite length_app. simpl. lia.
  - by rewrite map_to_list_insert.
Qed.

Lemma count_dirs_and_files_fold walk dirs files :
  foldl
    (λ '(total_dirs, total_files) '(dirpath, filenames),
       ((total_dirs + 1)%nat,
        (total_files + length (filter (λ f, is_music_file f = true) filenames))%nat))
    (dirs, files) walk =
  ((dirs + length walk)%nat, (files + length (music_entries walk))%nat).
Proof.
  revert dirs files. induction walk as [|[d fl] walk IH]; intros dirs files.
  - simpl. f_equal; lia.
  - simpl foldl. rewrite IH.
    change (music_entries ((d, fl) :: walk)) with
      (((λ f, (d, f)) <$> filter (λ f, is_music_file f = true) fl) ++
       music_entries walk).
    rewrite length_app, length_fmap. cbn [length]. f_equal; lia.
Qed.

Section Counting.

Variable ratio : string → string → Z.
Variable fs : string → FileInfo.
Variable root_dir : string.

Let outputs := λ st : Analysis,
  (entries_total (proposed_moves st) + entries_total (duplicates st) +
   length (skipped_files st))%nat.

Lemma outputs_step st e :
  outputs (process_file ratio fs root_dir e.1 st e.2) = S (outputs st).
Proof.
  unfold outputs.
  destruct (process_file_outcome ratio fs root_dir st e) as
    [_ ->|m err dm _ _ ->|m mf kept dm _ _ _ ->|m mf mf' dir entry dm _ _ _ _ _ ->];
    simpl; rewrite ?length_app, ?entries_total_snoc; simpl; lia.
Qed.

Lemma outputs_fold es st :
  outputs (analyze_entries ratio fs root_dir st es) = (outputs st + length es)%nat.
Proof.
  unfold analyze_entries. revert st.
  induction es as [|e es IH]; intros st; simpl; [lia|].
  rewrite IH, outputs_step. lia.
Qed.

Lemma outputs_analyze walk :
  outputs (analyze_music_directory ratio fs root_dir walk) =
    length (music_entries walk).
Proof.
  rewrite analyze_music_directory_analyze_entries, outputs_fold. done.
Qed.

End Counting.

(** X14: no file is lost in the count.  [count_dirs_and_files] counts the
    directories of the walk and its music files, and the number of music
    files is the number of entries of the move plan, plus the number of
    duplicates, plus the number of skip records at the end of the pass. *)
Theorem counted_files_are_reported ratio fs root_dir walk :
  let st := analyze_music_directory ratio fs root_dir walk in
  count_dirs_and_files walk =
    (length walk,
     (entries_total (proposed_moves st) + entries_total (duplicates st) +
      length (skipped_files st))%nat).
Proof.
  intros st. unfold count_dirs_and_files. rewrite count_dirs_and_files_fold.
  simpl. f_equal. symmetry. apply (outputs_analyze ratio fs root_dir walk).
Qed.

(** ** Reading metadata *)

Lemma read_metadata_iff t m :
  read_metadata t = Some m ↔
  is_Some (t !! "title") ∧ is_Some (t !! "artist") ∧
  first_value t "artist" = Some (artist m) ∧
  first_value t "album" = Some (album m) ∧
  first_value t "title" = Some (title m) ∧
  ∃ n, first_value t "tracknumber" = Some n ∧
       tracknumber m = zfill 2 (split_head "/" n).
Proof.
  unfold read_metadata. split.
  - destruct (t !! "title") as [lt|] eqn:Et; [|done].
    destruct (t !! "artist") as [la|] eqn:Ea; [|done]. simpl.
    destruct (first_value t "artist") as [a|]; [|done].
    destruct (first_value t "album") as [b|]; [|done].
    destruct (first_value t "title") as [c|]; [|done].
    destruct (first_value t "tracknumber") as [n|]; [|done].
    simpl. intros [= <-]. simpl. split_and!; try done. by exists n.
  - intros ([lt Et] & [la Ea] & -> & -> & -> & n & -> & Hn).
    rewrite Et, Ea. simpl. destruct m as [a b c k]. simpl in *. by subst k.
Qed.

(** The tags behind a metadata record. *)
Lemma get_audio_metadata_tags fs path m :
  get_audio_metadata fs path = Some m ↔
  ∃ t, fi_tags (fs path) = Tags t ∧
    is_Some (t !! "title") ∧ is_Some (t !! "artist") ∧
    head (default [EmptyString] (t !! "artist")) = Some (artist m) ∧
    head (default [EmptyString] (t !! "album")) = Some (album m) ∧
    head (default [EmptyString] (t !! "title")) = Some (title m) ∧
    ∃ n, head (default [EmptyString] (t !! "tracknumber")) = Some n ∧
         tracknumber m = zfill 2 (split_head "/" n).
Proof.
  unfold get_audio_metadata. split.
  - intros H. destruct (fi_tags (fs path)) as [| |t] eqn:Et;
      try by destruct (endswith _ _).
    exists t. split; [done|]. apply read_metadata_iff.
    destruct (endswith _ _); [done|]. by case_bool_decide.
  - intros (t & -> & H). apply read_metadata_iff in H as Hr.
    destruct (endswith _ _); [done|].
    rewrite bool_decide_eq_false_2; [done|].
    intros ->. destruct H as ([? Ht] & _). by rewrite lookup_empty in Ht.
Qed.

Lemma sall_zeros p n : p "0"%char = true → sall p (zeros n) = true.
Proof. intros H. induction n as [|n IH]; [done|]. simpl. by rewrite H, IH. Qed.

Lemma sall_zfill p n s :
  p "0"%char = true → sall p s = true → sall p (zfill n s) = true.
Proof.
  intros H0 Hs. unfold zfill. destruct (n - String.length s)%nat as [|k]; [done|].
  destruct s as [|c r]; [by apply sall_zeros|].
  simpl in Hs. apply andb_true_iff in Hs as [Hc Hr].
  destruct (_ || _).
  - simpl. rewrite Hc. simpl. rewrite sall_app. rewrite Hr, andb_true_r.
    by apply (sall_zeros p (S k)).
  - rewrite sall_app. simpl. rewrite Hc, Hr. rewrite andb_true_r.
    by apply (sall_zeros p (S k)).
Qed.

Lemma sall_split_head sep s :
  sall (λ c, negb (Char.eqb c sep)) (split_head sep s) = true.
Proof.
  induction s as [|c s IH]; [done|]. simpl.
  destruct (Char.eqb c sep) eqn:E; [done|]. simpl. by rewrite E, IH.
Qed.

Lemma get_audio_metadata_tracknumber fs path m :
  get_audio_metadata fs path = Some m →
  (2 ≤ String.length (tracknumber m))%nat ∧
  sall (λ c, negb (Char.eqb c "/")) (tracknumber m) = true.
Proof.
  intros H. apply get_audio_metadata_tags in H as (t & _ & _ & _ & _ & _ & _ & n & _ & ->).
  split.
  - unfold zfill. destruct (split_head "/" n) as [|c [|d r]]; simpl; [lia| |lia].
    destruct (_ || _); simpl; lia.
  - apply sall_zfill; [done|apply sall_split_head].
Qed.

Lemma generate_new_filename_numbered m path :
  tracknumber m ≠ EmptyString →
  generate_new_filename m path =
    tracknumber m +:+ " - " +:+ sanitize_filename (title m) +:+
    str_lower (splitext_ext path).
Proof.
  intros H. unfold generate_new_filename, str_eqb.
  by rewrite bool_decide_eq_false_2.
Qed.

(** C2, against the claim: the name without a track number is never
    proposed for a file.  Whenever [get_audio_metadata] returns a record
    for a file, its track number is not empty, so that the name that
    [generate_new_filename] gives is the track number, " - ", the sanitized
    title and the extension; and when the file has no track number tag, or
    an empty one, [zfill] has made the track number "00" and the name is
    "00 - " followed by title and extension, as "00 - Intro.mp3", where the
    claim has "Intro.mp3". *)
Theorem missing_track_number_is_named_00 fs path t m :
  fi_tags (fs path) = Tags t →
  get_audio_metadata fs path = Some m →
  tracknumber m ≠ EmptyString ∧
  generate_new_filename m path =
    tracknumber m +:+ " - " +:+ sanitize_filename (title m) +:+
    str_lower (splitext_ext path) ∧
  (first_value t "tracknumber" = Some EmptyString →
   tracknumber m = "00" ∧
   generate_new_filename m path =
     "00 - " +:+ sanitize_filename (title m) +:+
     str_lower (splitext_ext path)).
Proof.
  intros Ht Hm.
  assert (Hne : tracknumber m ≠ EmptyString).
  { destruct (get_audio_metadata_tracknumber fs path m Hm) as [Hlen _].
    intros E. rewrite E in Hlen. simpl in Hlen. lia. }
  split; [done|]. split; [by apply generate_new_filename_numbered|].
  intros Hn.
  apply get_audio_metadata_tags in Hm
    as (t' & Ht' & _ & _ & _ & _ & _ & n & Hn' & Htn).
  rewrite Ht in Ht'. injection Ht' as <-.
  unfold first_value in Hn. rewrite Hn in Hn'. injection Hn' as <-.
  assert (H00 : tracknumber m = "00") by (by rewrite Htn).
  split; [done|].
  rewrite generate_new_filename_numbered by done. by rewrite H00.
Qed.

Lemma missing_track_number_is_named_00_witness :
  let t : gmap string (list string) :=
    list_to_map ((λ kv : string * string, (kv.1, [kv.2])) <$>
                   [("artist", EmptyString); ("title", "Intro")]) in
  let m := mkMetadata EmptyString EmptyString "Intro" "00" in
  fi_tags (example_fs "/music/in/e.mp3") = Tags t ∧
  get_audio_metadata example_fs "/music/in/e.mp3" = Some m ∧
  first_value t "tracknumber" = Some EmptyString ∧
  generate_new_filename m "/music/in/e.mp3" = "00 - Intro.mp3" ∧
  tracknumber m ≠ EmptyString ∧
  generate_new_filename m "/music/in/e.mp3" =
    tracknumber m +:+ " - " +:+ sanitize_filename (title m) +:+
    str_lower (splitext_ext "/music/in/e.mp3") ∧
  (first_value t "tracknumber" = Some EmptyString →
   tracknumber m = "00" ∧
   generate_new_filename m "/music/in/e.mp3" =
     "00 - " +:+ sanitize_filename (title m) +:+
     str_lower (splitext_ext "/music/in/e.mp3")).
Proof.
  intros t m. split; [reflexivity|]. split; [reflexivity|].
  split; [reflexivity|]. split; [reflexivity|].
  exact (missing_track_number_is_named_00 example_fs "/music/in/e.mp3" t m
           eq_refl eq_refl).
Defined.

(** X16: every new name of the move plan starts with a track number.  The
    new name of an entry is its track number, " - ", its sanitized title and
    the extension of its file in lower case; the track number has at least
    two characters and no slash, "00" standing for a file without the tag, so
    that the branch of [generate_new_filename] for an empty track number is
    never taken in a pass. *)
Theorem planned_names_are_numbered ratio fs root_dir walk dir es e :
  let st := analyze_music_directory ratio fs root_dir walk in
  let md := move_metadata e in
  proposed_moves st !! dir = Some es → e ∈ es →
  new_filename e =
    tracknumber md +:+ " - " +:+ sanitize_filename (title md) +:+
    str_lower (splitext_ext (original_path e)) ∧
  (2 ≤ String.length (tracknumber md))%nat ∧
  sall (λ c, negb (Char.eqb c "/")) (tracknumber md) = true.
Proof.
  intros st md Hl He.
  destruct (inv_filed _ _ _ (plan_inv_analyze ratio fs root_dir walk) dir es e Hl He)
    as (raw & Hraw & _ & _ & Ht & Hn & _ & Hnew).
  destruct (get_audio_metadata_tracknumber fs _ raw Hraw) as [Hlen Hslash].
  subst md. rewrite Hn, Ht, Hnew. split; [|done].
  apply generate_new_filename_numbered. intros E. rewrite E in Hlen. simpl in Hlen. lia.
Qed.

Lemma planned_names_are_numbered_witness :
  let st := analyze_music_directory fuzz_ratio example_fs "/music" example_walk in
  let e := mkMoveEntry "/music/in/e.mp3" "e.mp3" "00 - Intro.mp3"
             (mkMetadata EmptyString EmptyString "Intro" "00") in
  proposed_moves st !! "/music/" = Some [e] ∧
  new_filename e =
    "00" +:+ " - " +:+ sanitize_filename "Intro" +:+
    str_lower (splitext_ext "/music/in/e.mp3") ∧
  (2 ≤ String.length "00")%nat ∧
  sall (λ c, negb (Char.eqb c "/")) "00" = true.
Proof.
  intros st e. split; [reflexivity|].
  refine (planned_names_are_numbered fuzz_ratio example_fs "/music" example_walk
            "/music/" [e] e eq_refl _).
  apply elem_of_cons. by left.
Defined.

(** ** Moving a file *)

Lemma length_app_str (s t : string) :
  String.length (s +:+ t) = (String.length s + String.length t)%nat.
Proof.
  induction s as [|c s IH]; [done|].
  change (String c s +:+ t) with (String c (s +:+ t)). simpl. by rewrite IH.
Qed.

Lemma app_inv_tail_str (t s1 s2 : string) : s1 +:+ t = s2 +:+ t → s1 = s2.
Proof.
  intros H.
  assert (Hlen : String.length s1 = String.length s2).
  { apply (f_equal String.length) in H.
    rewrite !length_app_str in H. lia. }
  revert s2 H Hlen.
  induction s1 as [|c s1 IH]; intros [|d s2] H Hlen; try done.
  change (String c s1 +:+ t) with (String c (s1 +:+ t)) in H.
  change (String d s2 +:+ t) with (String d (s2 +:+ t)) in H.
  injection H as -> H. f_equal. apply IH; [done|]. simpl in Hlen. lia.
Qed.

Lemma startswith_cons c s t d :
  startswith (String c s +:+ t) (String d EmptyString) = Char.eqb c d.
Proof.
  change (String c s +:+ t) with (String c (s +:+ t)). simpl.
  destruct (s +:+ t); apply andb_true_r.
Qed.

Lemma startswith_numbered base ext j k :
  startswith (numbered base ext j) "/" = startswith (numbered base ext k) "/".
Proof.
  unfold numbered. destruct base as [|c base].
  - change (EmptyString +:+ ?x) with x. by rewrite !startswith_cons.
  - by rewrite !startswith_cons.
Qed.

Lemma numbered_inj base ext j k :
  numbered base ext j = numbered base ext k → j = k.
Proof.
  unfold numbered. intros H.
  apply (inj (String.app base)) in H.
  apply (inj (String.app "_")) in H.
  apply app_inv_tail_str in H.
  by apply (inj pretty) in H.
Qed.

Lemma path_join_inj a b1 b2 :
  startswith b1 "/" = startswith b2 "/" →
  path_join a b1 = path_join a b2 → b1 = b2.
Proof.
  unfold path_join. intros <-.
  destruct (startswith b1 "/"); [done|].
  destruct (str_eqb a EmptyString || endswith a "/"); intros H.
  - by apply (inj (String.app a)) in H.
  - apply (inj (String.app a)) in H. by apply (inj (String.app "/")) in H.
Qed.

Lemma candidate_inj dest_dir new_filename j k :
  candidate dest_dir new_filename (S j) = candidate dest_dir new_filename (S k) →
  j = k.
Proof.
  unfold candidate. intros H.
  apply path_join_inj in H; [|apply startswith_numbered].
  apply numbered_inj in H. lia.
Qed.

(** Among more candidates than [l] has members, one is not in [l]. *)
Lemma candidate_outside dest_dir new_filename (l : list string) :
  ∃ k, (1 ≤ k ≤ S (length l))%nat ∧ candidate dest_dir new_filename k ∉ l.
Proof.
  set (cs := (λ k, candidate dest_dir new_filename (S k)) <$> seq 0 (S (length l))).
  destruct (decide (Forall (λ p, p ∈ l) cs)) as [Hall|Hnot].
  - exfalso.
    assert (Hnd : NoDup cs).
    { apply NoDup_fmap_2; [|apply NoDup_seq].
      intros j k. apply candidate_inj. }
    assert (Hsub : cs ⊆+ l).
    { apply NoDup_submseteq; [done|]. by apply Forall_forall. }
    apply submseteq_length in Hsub.
    unfold cs in Hsub. rewrite length_fmap, length_seq in Hsub. lia.
  - apply not_Forall_Exists in Hnot; [|apply _].
    apply Exists_exists in Hnot as (p & Hp & Hout).
    apply list_elem_of_fmap in Hp as (k & -> & Hk).
    apply elem_of_seq in Hk.
    exists (S k). split; [lia|done].
Qed.

(** The least index at which a test fails. *)
Lemma first_failure (P : nat → bool) b :
  P b = false → ∃ m, (m ≤ b)%nat ∧ P m = false ∧ ∀ j, (j < m)%nat → P j = true.
Proof.
  assert (Hall : ∀ n, (∀ j, (j < n)%nat → P j = true) ∨
    ∃ m, (m < n)%nat ∧ P m = false ∧ ∀ j, (j < m)%nat → P j = true).
  { induction n as [|n [IH|(m & Hm & Hf & Hfirst)]].
    - left. intros j Hj. lia.
    - destruct (P n) eqn:E.
      + left. intros j Hj. destruct (decide (j = n)) as [->|]; [done|].
        apply IH. lia.
      + right. exists n. split; [lia|]. split; [done|apply IH].
    - right. exists m. split; [lia|done]. }
  intros Hb. destruct (Hall (S b)) as [Hno|(m & Hm & Hf & Hfirst)].
  - rewrite Hno in Hb by lia. done.
  - exists m. split; [lia|done].
Qed.

Section Moving.

Variable os : OS.

Lemma while_exists_first w dest_dir new_filename fuel k m :
  (k ≤ m ≤ k + fuel)%nat →
  os_path_exists os w (candidate dest_dir new_filename m) = false →
  (∀ j, (k ≤ j < m)%nat →
     os_path_exists os w (candidate dest_dir new_filename j) = true) →
  while_exists os w dest_dir (splitext new_filename).1
    (splitext new_filename).2 fuel (candidate dest_dir new_filename k) (S k) =
  Some (candidate dest_dir new_filename m).
Proof.
  revert k. induction fuel as [|fuel IH]; intros k Hk Hfree Hbusy.
  - assert (m = k) as -> by lia. simpl. by rewrite Hfree.
  - destruct (decide (m = k)) as [->|Hne].
    + simpl. by rewrite Hfree.
    + simpl. rewrite (Hbusy k) by lia.
      apply (IH (S k)); [lia|done|].
      intros j Hj. apply Hbusy. lia.
Qed.

Lemma destination_first w dest_dir new_filename fuel m :
  (m ≤ fuel)%nat →
  os_path_exists os w (candidate dest_dir new_filename m) = false →
  (∀ j, (j < m)%nat →
     os_path_exists os w (candidate dest_dir new_filename j) = true) →
  destination os fuel w dest_dir new_filename =
  Some (candidate dest_dir new_filename m).
Proof.
  intros Hm Hfree Hbusy. unfold destination.
  destruct (os_path_exists os w (path_join dest_dir new_filename)) eqn:E.
  - destruct (splitext new_filename) as [base ext] eqn:Es.
    pose proof (while_exists_first w dest_dir new_filename fuel 0 m) as Hw.
    rewrite Es in Hw. apply Hw; [lia|done|].
    intros j Hj. apply Hbusy. lia.
  - destruct m as [|m]; [done|].
    specialize (Hbusy O ltac:(lia)). simpl in Hbusy. congruence.
Qed.

(** With a free destination within reach, the call returns, and reports
    the first free one when it succeeds. *)
Lemma move_and_rename_file_outcome fuel w src_path dest_dir new_filename b :
  (b ≤ fuel)%nat →
  os_path_exists os w (candidate dest_dir new_filename b) = false →
  ∃ k r w',
    move_and_rename_file os fuel w src_path dest_dir new_filename =
      Some (r, w') ∧
    (k ≤ b)%nat ∧
    os_path_exists os w (candidate dest_dir new_filename k) = false ∧
    (∀ j, (j < k)%nat →
       os_path_exists os w (candidate dest_dir new_filename j) = true) ∧
    match r.1 with
    | true =>
        r.2 = candidate dest_dir new_filename k ∧
        ∃ w1,
          os_makedirs os w (dirname (candidate dest_dir new_filename k)) =
            (Ok (), w1) ∧
          os_rename os w1 src_path (candidate dest_dir new_filename k) =
            (Ok (), w')
    | false =>
        os_makedirs os w (dirname (candidate dest_dir new_filename k)) =
          (Raise r.2, w') ∨
        ∃ w1,
          os_makedirs os w (dirname (candidate dest_dir new_filename k)) =
            (Ok (), w1) ∧
          os_rename os w1 src_path (candidate dest_dir new_filename k) =
            (Raise r.2, w')
    end.
Proof.
  intros Hb Hfree.
  destruct (first_failure
              (λ k, os_path_exists os w (candidate dest_dir new_filename k))
              b Hfree)
    as (k & Hk & Hkfree & Hfirst).
  exists k. unfold move_and_rename_file.
  rewrite (destination_first w dest_dir new_filename fuel k) by (done || lia).
  simpl.
  set (p := candidate dest_dir new_filename k) in *.
  destruct (os_makedirs os w (dirname p)) as [[[]|msg] w1] eqn:Em.
  - destruct (os_rename os w1 src_path p) as [[[]|msg] w2] eqn:Er.
    + eexists _, _. do 4 (split; [done|]).
      simpl. split; [done|]. by exists w1.
    + eexists _, _. do 4 (split; [done|]).
      simpl. right. by exists w1.
  - eexists _, _. do 4 (split; [done|]).
    simpl. by left.
Qed.

(** The messages of the three kinds are told apart by how they start. *)
Lemma startswith_app p d : startswith (p +:+ d) p = true.
Proof.
  induction p as [|c p IH]; [by destruct d|].
  change (String c p +:+ d) with (String c (p +:+ d)). simpl.
  by rewrite IH, (proj2 (char_eqb_eq c c) eq_refl).
Qed.

Lemma directory_message_is d : is_directory_message (directory_message d) = true.
Proof. apply startswith_app. Qed.

Lemma move_message_is_not x y :
  is_directory_message ("Failed to move " +:+ x +:+ ": " +:+ y) = false.
Proof. reflexivity. Qed.

Lemma delete_message_is_not x y :
  is_directory_message ("Failed to delete " +:+ x +:+ ": " +:+ y) = false.
Proof. reflexivity. Qed.

Lemma directory_message_inj d1 d2 :
  directory_message d1 = directory_message d2 → d1 = d2.
Proof.
  unfold directory_message. intros H.
  by apply (inj (String.app "Failed to create directory: ")) in H.
Qed.

(** The loop over the files of one directory: every file is counted as
    moved or as failed, and every failure has its message. *)
Lemma move_files_counts fuel new_path files r w r' w' :
  move_files os fuel new_path files r w = Some (r', w') →
  ∃ msgs,
    errors r' = errors r ++ msgs ∧
    Forall (λ m, is_directory_message m = false) msgs ∧
    (successful_moves r' + failed_moves r' =
       successful_moves r + failed_moves r + length files)%nat ∧
    (failed_moves r' = failed_moves r + length msgs)%nat ∧
    successful_deletions r' = successful_deletions r ∧
    failed_deletions r' = failed_deletions r.
Proof.
  revert r w. induction files as [|file files IH]; intros r w H.
  - simpl in H. injection H as <- <-. exists []. rewrite app_nil_r.
    split_and!; try done; simpl; lia.
  - simpl in H.
    destruct (move_and_rename_file os _ w (original_path file) new_path
                (new_filename file)) as [[[success result] w1]|]; [|done].
    simpl in H. apply IH in H as (msgs & He & Hm & Hc & Hf & Hsd & Hfd).
    destruct success; simpl in *.
    + exists msgs. split_and!; try done; lia.
    + exists (("Failed to move " +:+ original_path file +:+ ": " +:+ result)
              :: msgs).
      rewrite He, <- app_assoc. split; [done|].
      split; [constructor; [apply move_message_is_not|done]|].
      split_and!; try done; simpl; lia.
Qed.

Lemma move_files_returns fuel new_path files r w :
  (∀ w d n, ∃ k, (k ≤ fuel w d n)%nat ∧
     os_path_exists os w (candidate d n k) = false) →
  is_Some (move_files os fuel new_path files r w).
Proof.
  intros Hfuel. revert r w. induction files as [|file files IH]; intros r w.
  - by eexists.
  - destruct (Hfuel w new_path (new_filename file)) as (b & Hb & Hfree).
    destruct (move_and_rename_file_outcome _ w (original_path file) new_path
                (new_filename file) b Hb Hfree)
      as (k & [success result] & w1 & Hmove & _).
    simpl. rewrite Hmove. simpl. apply IH.
Qed.

Lemma filter_agree {A} (P Q : A → Prop) `{!∀ x, Decision (P x)}
    `{!∀ x, Decision (Q x)} (l : list A) :
  (∀ x, x ∈ l → P x ↔ Q x) → filter P l = filter Q l.
Proof.
  induction l as [|x l IH]; intros Hl; [done|].
  rewrite !filter_cons.
  rewrite IH by (intros y Hy; apply Hl; by right).
  destruct (decide (P x)) as [HP|HP], (decide (Q x)) as [HQ|HQ]; try done.
  - destruct HQ. apply Hl; [by left|done].
  - destruct HP. apply Hl; [by left|done].
Qed.

(** The loop over the directories of the plan.  A message for a directory
    stands for a directory of the plan that could not be created; the files
    of the other directories are counted as moved or as failed. *)
Lemma move_items_counts fuel items r w r' w' :
  NoDup items.*1 →
  move_items os fuel items r w = Some (r', w') →
  ∃ msgs,
    errors r' = errors r ++ msgs ∧
    Forall (λ m, is_directory_message m = false ∨
                 ∃ d, d ∈ items.*1 ∧ m = directory_message d) msgs ∧
    (successful_moves r' + failed_moves r' =
       successful_moves r + failed_moves r +
       items_total (filter (λ kv, directory_message kv.1 ∉ msgs) items))%nat ∧
    (length msgs + failed_moves r =
       failed_moves r' +
       length (filter (λ kv, directory_message kv.1 ∈ msgs) items))%nat ∧
    successful_deletions r' = successful_deletions r ∧
    failed_deletions r' = failed_deletions r.
Proof.
  revert r w. induction items as [|[d files] items IH]; intros r w Hnd H.
  - simpl in H. injection H as <- <-. exists []. rewrite app_nil_r.
    split_and!; try done; simpl; lia.
  - apply NoDup_cons in Hnd as [Hd Hnd]. simpl in Hd.
    simpl in H. unfold create_directory in H.
    destruct (os_makedirs os w d) as [[[]|msg] w1].
    + destruct (move_files os fuel d files r w1) as [[r1 w2]|] eqn:Ef; [|done].
      simpl in H.
      apply move_files_counts in Ef as (m1 & He1 & Hm1 & Hc1 & Hf1 & Hsd1 & Hfd1).
      apply (IH _ _ Hnd) in H as (m2 & He2 & Hm2 & Hc2 & Hf2 & Hsd2 & Hfd2).
      assert (Hout : ∀ x, directory_message x ∉ m1).
      { intros x Hx. rewrite Forall_forall in Hm1. apply Hm1 in Hx.
        by rewrite directory_message_is in Hx. }
      assert (Hhead : directory_message d ∉ m1 ++ m2).
      { intros [Hx|Hx]%elem_of_app; [by apply Hout in Hx|].
        rewrite Forall_forall in Hm2. apply Hm2 in Hx as [Hx|(d' & Hd' & Hx)].
        - by rewrite directory_message_is in Hx.
        - apply directory_message_inj in Hx as ->. done. }
      assert (Htail : ∀ x, directory_message x ∈ m1 ++ m2 ↔
                           directory_message x ∈ m2).
      { intros x. rewrite elem_of_app. split; [|by right].
        intros [Hx|Hx]; [by apply Hout in Hx|done]. }
      exists (m1 ++ m2). rewrite He2, He1, <- app_assoc. split; [done|].
      split.
      { apply Forall_app. split.
        - eapply Forall_impl; [exact Hm1|]. intros m Hm. by left.
        - eapply Forall_impl; [exact Hm2|]. intros m [Hm|(d' & Hd' & ->)];
            [by left|]. right. exists d'. split; [by right|done]. }
      rewrite !filter_cons. cbn [fst snd].
      rewrite (decide_True _ _ Hhead), (decide_False _ _ Hhead).
      rewrite (filter_agree (λ kv, directory_message kv.1 ∉ m1 ++ m2)
                 (λ kv, directory_message kv.1 ∉ m2) items)
        by (intros; by rewrite Htail).
      rewrite (filter_agree (λ kv, directory_message kv.1 ∈ m1 ++ m2)
                 (λ kv, directory_message kv.1 ∈ m2) items)
        by (intros; by rewrite Htail).
      rewrite length_app. unfold items_total in *. cbn [sum_list_with fst snd].
      split_and!; try congruence; lia.
    + apply (IH _ _ Hnd) in H as (m2 & He2 & Hm2 & Hc2 & Hf2 & Hsd2 & Hfd2).
      cbn [directory_failed errors successful_moves failed_moves
           successful_deletions failed_deletions] in *.
      assert (Hhead : directory_message d ∈ directory_message d :: m2)
        by by left.
      assert (Htail : ∀ kv : string * list MoveEntry, kv ∈ items →
                directory_message kv.1 ∈ directory_message d :: m2 ↔
                directory_message kv.1 ∈ m2).
      { intros kv Hkv. rewrite elem_of_cons. split; [|by right].
        intros [Hx|Hx]; [|done]. apply directory_message_inj in Hx.
        destruct Hd. rewrite <- Hx. apply list_elem_of_fmap. by exists kv. }
      exists (directory_message d :: m2).
      rewrite He2, <- app_assoc. split; [done|].
      split.
      { constructor; [right; exists d; split; [by left|done]|].
        eapply Forall_impl; [exact Hm2|]. intros m [Hm|(d' & Hd' & ->)];
          [by left|]. right. exists d'. split; [by right|done]. }
      rewrite !filter_cons. cbn [fst snd].
      rewrite (decide_False _ _ (λ H, H Hhead)), (decide_True _ _ Hhead).
      rewrite (filter_agree (λ kv, directory_message kv.1 ∉ directory_message d :: m2)
                 (λ kv, directory_message kv.1 ∉ m2) items)
        by (intros kv Hkv; by rewrite (Htail kv Hkv)).
      rewrite (filter_agree (λ kv, directory_message kv.1 ∈ directory_message d :: m2)
                 (λ kv, directory_message kv.1 ∈ m2) items)
        by (intros kv Hkv; by rewrite (Htail kv Hkv)).
      cbn [length]. split_and!; try done; lia.
Qed.

Lemma move_items_returns fuel items r w :
  (∀ w d n, ∃ k, (k ≤ fuel w d n)%nat ∧
     os_path_exists os w (candidate d n k) = false) →
  is_Some (move_items os fuel items r w).
Proof.
  intros Hfuel. revert r w.
  induction items as [|[new_path files] items IH]; intros r w.
  - by eexists.
  - simpl. unfold create_directory.
    destruct (os_makedirs os w new_path) as [[[]|msg] w1].
    + destruct (move_files_returns fuel new_path files r w1 Hfuel)
        as [[r1 w2] ->].
      simpl. apply IH.
    + apply IH.
Qed.

(** The loops over the duplicates: every path is counted as deleted or as
    failed, and every failure has its message. *)
Lemma remove_paths_counts paths r w :
  let r' := (remove_paths os paths r w).1 in
  ∃ msgs,
    errors r' = errors r ++ msgs ∧
    Forall (λ m, is_directory_message m = false) msgs ∧
    (successful_deletions r' + failed_deletions r' =
       successful_deletions r + failed_deletions r + length paths)%nat ∧
    (failed_deletions r' = failed_deletions r + length msgs)%nat ∧
    successful_moves r' = successful_moves r ∧
    failed_moves r' = failed_moves r.
Proof.
  revert r w. induction paths as [|p paths IH]; intros r w.
  - exists []. simpl. rewrite app_nil_r. split_and!; try done; lia.
  - simpl. destruct (os_remove os w p) as [[[]|msg] w1].
    + destruct (IH (deletion_succeeded r) w1)
        as (msgs & He & Hm & Hc & Hf & Hsm & Hfm).
      exists msgs. simpl in *. split_and!; try done; lia.
    + destruct (IH (deletion_failed r
                      ("Failed to delete " +:+ p +:+ ": " +:+ msg)) w1)
        as (msgs & He & Hm & Hc & Hf & Hsm & Hfm).
      exists (("Failed to delete " +:+ p +:+ ": " +:+ msg) :: msgs).
      simpl in *. rewrite He, <- app_assoc. split; [done|].
      split; [constructor; [apply delete_message_is_not|done]|].
      split_and!; try done; simpl; lia.
Qed.

Lemma remove_items_counts items r w :
  let r' := (remove_items os items r w).1 in
  ∃ msgs,
    errors r' = errors r ++ msgs ∧
    Forall (λ m, is_directory_message m = false) msgs ∧
    (successful_deletions r' + failed_deletions r' =
       successful_deletions r + failed_deletions r + items_total items)%nat ∧
    (failed_deletions r' = failed_deletions r + length msgs)%nat ∧
    successful_moves r' = successful_moves r ∧
    failed_moves r' = failed_moves r.
Proof.
  revert r w. induction items as [|[h paths] items IH]; intros r w.
  - exists []. simpl. rewrite app_nil_r.
    unfold items_total. simpl. split_and!; try done; lia.
  - simpl.
    destruct (remove_paths_counts paths r w)
      as (m1 & He1 & Hm1 & Hc1 & Hf1 & Hsm1 & Hfm1).
    destruct (remove_paths os paths r w) as [r1 w1]. simpl in *.
    destruct (IH r1 w1) as (m2 & He2 & Hm2 & Hc2 & Hf2 & Hsm2 & Hfm2).
    exists (m1 ++ m2). rewrite He2, He1, <- app_assoc. split; [done|].
    split; [by apply Forall_app|].
    rewrite length_app. unfold items_total in *. simpl.
    split_and!; try congruence; lia.
Qed.

(** What [execute_changes] returns, when it returns. *)
Lemma execute_changes_counts fuel w moves dups r w' :
  NoDup moves.*1 →
  execute_changes os fuel w moves dups = Some (r, w') →
  (successful_moves r + failed_moves r =
     items_total
       (filter (λ kv, directory_message kv.1 ∉ errors r) moves))%nat ∧
  (successful_deletions r + failed_deletions r = items_total dups)%nat ∧
  (length (errors r) =
     length (filter (λ kv, directory_message kv.1 ∈ errors r) moves) +
     failed_moves r + failed_deletions r)%nat.
Proof.
  unfold execute_changes. intros Hnd H.
  destruct (move_items os fuel moves new_results w) as [[r1 w1]|] eqn:Em;
    [|done].
  cbn [mbind option_bind] in H. injection H as H.
  apply (move_items_counts _ _ _ _ _ _ Hnd) in Em
    as (m1 & He1 & Hm1 & Hc1 & Hf1 & Hsd1 & Hfd1).
  pose proof (remove_items_counts dups r1 w1) as Hd. cbv zeta in Hd.
  rewrite H in Hd. cbn [fst] in Hd.
  destruct Hd as (m2 & He2 & Hm2 & Hc2 & Hf2 & Hsm2 & Hfm2).
  cbn [new_results errors successful_moves failed_moves successful_deletions
       failed_deletions app] in He1, Hc1, Hf1, Hsd1, Hfd1.
  assert (Hiff : ∀ x, directory_message x ∈ errors r ↔ directory_message x ∈ m1).
  { intros x. rewrite He2, He1, elem_of_app.
    split; [|by left]. intros [Hx|Hx]; [done|].
    rewrite Forall_forall in Hm2. apply Hm2 in Hx.
    by rewrite directory_message_is in Hx. }
  rewrite (filter_agree (λ kv, directory_message kv.1 ∉ errors r)
             (λ kv, directory_message kv.1 ∉ m1) moves)
    by (intros; by rewrite Hiff).
  rewrite (filter_agree (λ kv, directory_message kv.1 ∈ errors r)
             (λ kv, directory_message kv.1 ∈ m1) moves)
    by (intros; by rewrite Hiff).
  rewrite He2, He1, !length_app. lia.
Qed.

Lemma execute_changes_returns fuel w moves dups :
  (∀ w d n, ∃ k, (k ≤ fuel w d n)%nat ∧
     os_path_exists os w (candidate d n k) = false) →
  is_Some (execute_changes os fuel w moves dups).
Proof.
  intros Hfuel. unfold execute_changes.
  destruct (move_items_returns fuel moves new_results w Hfuel) as [[r1 w1] ->].
  simpl. by eexists.
Qed.

(** A run without messages. *)
Lemma move_items_clean fuel items r w r' w' :
  move_items os fuel items r w = Some (r', w') →
  errors r' = [] →
  (successful_moves r' + failed_moves r' =
     successful_moves r + failed_moves r + items_total items)%nat ∧
  failed_moves r' = failed_moves r ∧
  successful_deletions r' = successful_deletions r ∧
  failed_deletions r' = failed_deletions r ∧ errors r = [].
Proof.
  revert r w. induction items as [|[d files] items IH]; intros r w H He.
  - simpl in H. injection H as <- <-. unfold items_total.
    cbn [sum_list_with]. split_and!; try done; lia.
  - simpl in H. unfold create_directory in H.
    destruct (os_makedirs os w d) as [[[]|msg] w1].
    + destruct (move_files os fuel d files r w1) as [[r1 w2]|] eqn:Ef;
        [|done].
      cbn [mbind option_bind] in H.
      apply IH in H as (Hc & Hf & Hsd & Hfd & He1); [|done].
      apply move_files_counts in Ef
        as (m1 & Hm1 & _ & Hc1 & Hf1 & Hsd1 & Hfd1).
      rewrite He1 in Hm1. symmetry in Hm1.
      apply app_eq_nil in Hm1 as [Hr0 ->]. cbn [length] in Hf1.
      unfold items_total in *. cbn [sum_list_with fst snd].
      split_and!; try congruence; lia.
    + apply IH in H as (_ & _ & _ & _ & He1); [|done].
      cbn [directory_failed errors] in He1. by destruct (errors r).
Qed.

Lemma execute_changes_clean fuel w moves dups r w' :
  execute_changes os fuel w moves dups = Some (r, w') →
  errors r = [] →
  successful_moves r = items_total moves ∧ failed_moves r = 0%nat ∧
  successful_deletions r = items_total dups ∧ failed_deletions r = 0%nat.
Proof.
  unfold execute_changes. intros H Herr.
  destruct (move_items os fuel moves new_results w) as [[r1 w1]|] eqn:Em;
    [|done].
  cbn [mbind option_bind] in H. injection H as H.
  pose proof (remove_items_counts dups r1 w1) as Hd. cbv zeta in Hd.
  rewrite H in Hd. cbn [fst] in Hd.
  destruct Hd as (m2 & He2 & Hm2 & Hc2 & Hf2 & Hsm2 & Hfm2).
  rewrite Herr in He2. symmetry in He2.
  apply app_eq_nil in He2 as [He1 ->]. cbn [length] in Hf2.
  destruct (move_items_clean _ _ _ _ _ _ Em He1) as (Hc & Hf & Hsd & Hfd & _).
  cbn [new_results successful_moves failed_moves successful_deletions
       failed_deletions] in Hc, Hf, Hsd, Hfd.
  lia.
Qed.

End Moving.

(** ** Paths *)

Lemma string_cons_app c s t : String c s +:+ t = String c (s +:+ t).
Proof. done. Qed.

Lemma rsplit_at_none c s : rsplit_at c s = None ↔ lacks c s = true.
Proof.
  unfold lacks. induction s as [|d s IH]; [done|]. simpl.
  destruct (rsplit_at c s) as [[h t]|].
  - split; [done|]. intros [_ H]%andb_true_iff. apply IH in H. done.
  - destruct (Char.eqb d c); simpl; [done|]. split; [intros _|done].
    by apply IH.
Qed.

Lemma rsplit_at_some c s h t :
  rsplit_at c s = Some (h, t) →
  s = h +:+ t ∧ ∃ t', t = String c t' ∧ lacks c t' = true.
Proof.
  revert h t. induction s as [|d s IH]; intros h t H; [done|].
  simpl in H. destruct (rsplit_at c s) as [[h0 t0]|] eqn:E.
  - injection H as <- <-. destruct (IH h0 t0 eq_refl) as (-> & t' & -> & Ht).
    split; [done|]. by exists t'.
  - destruct (Char.eqb d c) eqn:Ed; [|done]. injection H as <- <-.
    apply char_eqb_eq in Ed as ->. split; [done|].
    exists s. split; [done|]. by apply rsplit_at_none.
Qed.

Lemma rsplit_at_app_lacks c s t :
  lacks c t = true →
  rsplit_at c (s +:+ t) =
  match rsplit_at c s with
  | Some (h, t0) => Some (h, t0 +:+ t)
  | None => None
  end.
Proof.
  intros Ht. induction s as [|d s IH].
  - by apply rsplit_at_none.
  - rewrite string_cons_app. simpl. rewrite IH.
    destruct (rsplit_at c s) as [[h t0]|]; [done|].
    by destruct (Char.eqb d c).
Qed.

Lemma rsplit_at_app_found c s t h t' :
  rsplit_at c t = Some (h, t') →
  rsplit_at c (s +:+ t) = Some (s +:+ h, t').
Proof.
  intros Ht. induction s as [|d s IH]; [done|].
  rewrite string_cons_app. simpl. by rewrite IH.
Qed.

Lemma rsplit_at_last c t :
  lacks c t = true → rsplit_at c (String c t) = Some (EmptyString, String c t).
Proof.
  intros Ht. simpl. apply rsplit_at_none in Ht as ->.
  by rewrite (proj2 (char_eqb_eq c c) eq_refl).
Qed.

Lemma lacks_app c s t : lacks c (s +:+ t) = lacks c s && lacks c t.
Proof. apply sall_app. Qed.

(** The digits of a number *)
Lemma sall_pretty_N_go p x s :
  (∀ d, (d < 10)%N → p (pretty_N_char d) = true) →
  sall p s = true → sall p (pretty_N_go x s) = true.
Proof.
  intros Hp. revert s. induction (N.lt_wf_0 x) as [x _ IH]; intros s Hs.
  assert (x = 0 ∨ 0 < x)%N as [->|Hx] by lia.
  - by rewrite pretty_N_go_0.
  - rewrite pretty_N_go_step by done. apply IH.
    + by apply N.div_lt.
    + simpl. rewrite Hs, Hp; [done|]. by apply N.mod_lt.
Qed.

Lemma sall_pretty_nat p (k : nat) :
  (∀ d, (d < 10)%N → p (pretty_N_char d) = true) → sall p (pretty k) = true.
Proof.
  intros Hp. unfold pretty, pretty_nat, pretty, pretty_N.
  case_decide.
  - specialize (Hp 0%N ltac:(lia)). simpl in *. by rewrite Hp.
  - by apply sall_pretty_N_go.
Qed.

Lemma digit_char d : (d < 10)%N → Char.is_digit (pretty_N_char d) = true.
Proof.
  intros Hd.
  assert (d = 0 ∨ d = 1 ∨ d = 2 ∨ d = 3 ∨ d = 4 ∨ d = 5 ∨ d = 6 ∨ d = 7
          ∨ d = 8 ∨ d = 9)%N as H by lia.
  repeat (destruct H as [->|H]; [done|]). by subst d.
Qed.

Lemma sall_digit_pretty (k : nat) : sall Char.is_digit (pretty k) = true.
Proof. apply sall_pretty_nat, digit_char. Qed.

Lemma lacks_pretty c (k : nat) :
  Char.is_digit c = false → lacks c (pretty k) = true.
Proof.
  intros Hc. unfold lacks.
  apply (sall_impl Char.is_digit); [|apply sall_digit_pretty].
  intros d Hd. destruct (Char.eqb d c) eqn:E; [|done].
  apply char_eqb_eq in E. congruence.
Qed.

(** A path is a directory part, empty or ending in a slash, and a name
    without slashes; [splitext] looks for the extension in the name. *)
Lemma splitext_parts dir name :
  dir = EmptyString ∨ (∃ d, dir = d +:+ "/") →
  lacks "/" name = true →
  splitext (dir +:+ name) =
  match rsplit_at "." name with
  | Some (h, t) =>
      if sall (λ c, Char.eqb c ".") h then (dir +:+ name, EmptyString)
      else (dir +:+ h, t)
  | None => (dir +:+ name, EmptyString)
  end.
Proof.
  intros [->|[d ->]] Hname; unfold splitext.
  - change (EmptyString +:+ name) with name.
    rewrite (proj2 (rsplit_at_none "/" name) Hname). done.
  - rewrite string_app_assoc.
    change ("/" +:+ name) with (String "/" name).
    rewrite (rsplit_at_app_found "/" d (String "/" name) EmptyString
               (String "/" name)) by by apply rsplit_at_last.
    by rewrite string_app_nil_r.
Qed.

Lemma path_parts p :
  ∃ dir name,
    p = dir +:+ name ∧
    (dir = EmptyString ∨ ∃ d, dir = d +:+ "/") ∧ lacks "/" name = true.
Proof.
  destruct (rsplit_at "/" p) as [[h t]|] eqn:E.
  - apply rsplit_at_some in E as (-> & t' & -> & Ht).
    exists (h +:+ "/"), t'. split; [by rewrite string_app_assoc|].
    split; [right; by exists h|done].
  - exists EmptyString, p. split; [done|]. split; [by left|].
    by apply rsplit_at_none.
Qed.

Lemma splitext_numbered new_filename k :
  splitext (numbered (splitext new_filename).1 (splitext new_filename).2 k) =
  ((splitext new_filename).1 +:+ "_" +:+ pretty k, (splitext new_filename).2).
Proof.
  destruct (path_parts new_filename) as (dir & name & -> & Hdir & Hname).
  assert (Hk : ∀ c, Char.is_digit c = false →
               negb (Char.eqb "_" c) = true →
               lacks c ("_" +:+ pretty k) = true).
  { intros c Hc Hu. change ("_" +:+ pretty k) with (String "_" (pretty k)).
    unfold lacks. simpl. rewrite Hu. by apply lacks_pretty. }
  rewrite (splitext_parts dir name Hdir Hname). unfold numbered.
  destruct (rsplit_at "." name) as [[h t]|] eqn:E.
  - apply rsplit_at_some in E as E'. destruct E' as (Hn & t' & -> & Ht').
    assert (Hh : lacks "/" h = true ∧ lacks "/" (String "." t') = true).
    { rewrite Hn, lacks_app in Hname. by apply andb_true_iff in Hname. }
    destruct Hh as [Hh Ht].
    destruct (sall (λ c, Char.eqb c ".") h) eqn:Edots; simpl.
    + rewrite string_app_nil_r, string_app_assoc.
      rewrite splitext_parts; [|done|].
      2:{ rewrite lacks_app, Hname. simpl. by apply Hk. }
      rewrite rsplit_at_app_lacks by by apply Hk.
      rewrite E, Edots. by rewrite <- !string_app_assoc.
    + rewrite string_app_assoc.
      rewrite splitext_parts; [|done|].
      2:{ by rewrite !lacks_app, Hh, Ht, lacks_pretty. }
      rewrite <- !string_app_assoc.
      rewrite (rsplit_at_app_found "." _ (String "." t') EmptyString
                 (String "." t')) by by apply rsplit_at_last.
      rewrite string_app_nil_r, !sall_app, Edots. simpl.
      by rewrite !string_app_assoc.
  - simpl. rewrite string_app_nil_r, string_app_assoc.
    rewrite splitext_parts; [|done|].
    2:{ rewrite lacks_app, Hname. simpl. by apply Hk. }
    rewrite rsplit_at_app_lacks by by apply Hk.
    rewrite E. by rewrite <- !string_app_assoc.
Qed.

Lemma splitext_app p : (splitext p).1 +:+ (splitext p).2 = p.
Proof.
  destruct (path_parts p) as (dir & name & -> & Hdir & Hname).
  rewrite (splitext_parts dir name Hdir Hname).
  destruct (rsplit_at "." name) as [[h t]|] eqn:E.
  - apply rsplit_at_some in E as (-> & _).
    destruct (sall _ h); simpl; [apply string_app_nil_r|].
    apply string_app_assoc.
  - apply string_app_nil_r.
Qed.

Lemma splitext_snd p : (splitext p).2 = splitext_ext p.
Proof.
  unfold splitext, splitext_ext.
  destruct (rsplit_at "/" p) as [[h [|c n]]|]; simpl;
    match goal with
    | |- context [rsplit_at "." ?s] =>
        destruct (rsplit_at "." s) as [[h' t']|]; [|done];
        by destruct (sall _ h')
    end.
Qed.

(** ** The file system of the examples *)

(** A list of paths leaves one of the first destinations free. *)
Lemma listed_fuel (w : list string) dest_dir new_filename :
  ∃ k, (k ≤ S (length w))%nat ∧
    bool_decide (candidate dest_dir new_filename k ∈ w) = false.
Proof.
  destruct (candidate_outside dest_dir new_filename w) as (k & Hk & Hout).
  exists k. split; [lia|]. by apply bool_decide_eq_false.
Qed.

Lemma example_execution :
  execute_changes listed_os (λ _ _ _, 6%nat) example_listing example_moves
    example_duplicates =
  Some (mkResults 2 0 1 0 [],
        ["/m/Abba/Arrival/01 - Money_3.mp3";
         "/m/Abba/Arrival/01 - Money_2.mp3";
         "/m/Abba/Arrival/01 - Money.mp3";
         "/m/Abba/Arrival/01 - Money_1.mp3"]).
Proof. by vm_compute. Qed.

(** On the file system with a part that cannot be written to, the file of
    the directory that cannot be created is counted neither as moved nor
    as failed. *)
Lemma example_execution2 :
  execute_changes readonly_os (λ w _ _, S (length w)) example_listing
    example_moves2 example_duplicates2 =
  Some (mkResults 1 1 1 1
          ["Failed to create directory: /ro/Queen/Jazz";
           "Failed to move /in/gone.mp3: [Errno 2] No such file or directory: /in/gone.mp3";
           "Failed to delete /in/none.mp3: [Errno 2] No such file or directory: /in/none.mp3"],
        ["/m/Abba/Arrival/01 - Money_2.mp3"; "/in/c.mp3";
         "/m/Abba/Arrival/01 - Money.mp3";
         "/m/Abba/Arrival/01 - Money_1.mp3"]).
Proof. by vm_compute. Qed.

(** ** Carrying out the plan *)

(** X17: the base and the extension into which [move_and_rename_file]
    splits a file name give the name back when put together, and the
    extension is the one that [generate_new_filename] reads off a path. *)
Theorem splitext_round_trip p :
  (splitext p).1 +:+ (splitext p).2 = p ∧ (splitext p).2 = splitext_ext p.
Proof. split; [apply splitext_app|apply splitext_snd]. Qed.

(** X18: the name [base_counter.ext] that [move_and_rename_file] tries when
    the destination is taken still splits into that numbered base and the
    extension of the name it started from. *)
Theorem numbered_name_keeps_extension new_filename counter :
  splitext
    (numbered (splitext new_filename).1 (splitext new_filename).2 counter) =
  ((splitext new_filename).1 +:+ "_" +:+ pretty counter,
   (splitext new_filename).2).
Proof. apply splitext_numbered. Qed.

(** X19: when the destinations of a file that exist are among finitely
    many paths [l], such as the entries of the destination directory,
    [move_and_rename_file] returns after at most [length l + 1] rounds of
    its loop.  It settles on the first destination that does not exist, of
    the planned one and then the ones numbered 1, 2, ...; when it reports
    success, the path it returns is that destination and [os.makedirs] and
    [os.rename] have both returned; when it reports failure, the message is
    the one that [os.makedirs] or, after it, [os.rename] has raised. *)
Theorem move_settles_on_first_free (os : OS) fuel (w : World os)
    src_path dest_dir new_filename (l : list string) :
  (∀ k, os_path_exists os w (candidate dest_dir new_filename k) = true →
        candidate dest_dir new_filename k ∈ l) →
  (length l < fuel)%nat →
  ∃ k r w',
    move_and_rename_file os fuel w src_path dest_dir new_filename =
      Some (r, w') ∧
    os_path_exists os w (candidate dest_dir new_filename k) = false ∧
    (∀ j, (j < k)%nat →
       os_path_exists os w (candidate dest_dir new_filename j) = true) ∧
    match r.1 with
    | true =>
        r.2 = candidate dest_dir new_filename k ∧
        ∃ w1,
          os_makedirs os w (dirname (candidate dest_dir new_filename k)) =
            (Ok (), w1) ∧
          os_rename os w1 src_path (candidate dest_dir new_filename k) =
            (Ok (), w')
    | false =>
        os_makedirs os w (dirname (candidate dest_dir new_filename k)) =
          (Raise r.2, w') ∨
        ∃ w1,
          os_makedirs os w (dirname (candidate dest_dir new_filename k)) =
            (Ok (), w1) ∧
          os_rename os w1 src_path (candidate dest_dir new_filename k) =
            (Raise r.2, w')
    end.
Proof.
  intros Hl Hfuel.
  destruct (candidate_outside dest_dir new_filename l) as (b & Hb & Hout).
  assert (Hfree : os_path_exists os w (candidate dest_dir new_filename b) = false).
  { destruct (os_path_exists os w _) eqn:E; [|done]. by apply Hl in E. }
  destruct (move_and_rename_file_outcome os fuel w src_path dest_dir
              new_filename b ltac:(lia) Hfree)
    as (k & r & w' & Hmove & _ & Hk & Hfirst & Hr).
  by exists k, r, w'.
Qed.

Lemma move_settles_on_first_free_witness :
  (∀ k, os_path_exists listed_os example_listing
          (candidate "/m/Abba/Arrival" "01 - Money.mp3" k) = true →
        candidate "/m/Abba/Arrival" "01 - Money.mp3" k ∈ example_listing) ∧
  (length example_listing < 6)%nat ∧
  ∃ k r w',
    move_and_rename_file listed_os 6 example_listing "/in/a.mp3"
      "/m/Abba/Arrival" "01 - Money.mp3" = Some (r, w') ∧
    os_path_exists listed_os example_listing
      (candidate "/m/Abba/Arrival" "01 - Money.mp3" k) = false ∧
    (∀ j, (j < k)%nat →
       os_path_exists listed_os example_listing
         (candidate "/m/Abba/Arrival" "01 - Money.mp3" j) = true) ∧
    match r.1 with
    | true =>
        r.2 = candidate "/m/Abba/Arrival" "01 - Money.mp3" k ∧
        ∃ w1,
          os_makedirs listed_os example_listing
            (dirname (candidate "/m/Abba/Arrival" "01 - Money.mp3" k)) =
            (Ok (), w1) ∧
          os_rename listed_os w1 "/in/a.mp3"
            (candidate "/m/Abba/Arrival" "01 - Money.mp3" k) = (Ok (), w')
    | false =>
        os_makedirs listed_os example_listing
          (dirname (candidate "/m/Abba/Arrival" "01 - Money.mp3" k)) =
          (Raise r.2, w') ∨
        ∃ w1,
          os_makedirs listed_os example_listing
            (dirname (candidate "/m/Abba/Arrival" "01 - Money.mp3" k)) =
            (Ok (), w1) ∧
          os_rename listed_os w1 "/in/a.mp3"
            (candidate "/m/Abba/Arrival" "01 - Money.mp3" k) =
            (Raise r.2, w')
    end.
Proof.
  assert (H1 : ∀ k, os_path_exists listed_os example_listing
                      (candidate "/m/Abba/Arrival" "01 - Money.mp3" k) = true →
               candidate "/m/Abba/Arrival" "01 - Money.mp3" k ∈ example_listing).
  { intros k H. exact (bool_decide_eq_true_1 _ H). }
  assert (H2 : (length example_listing < 6)%nat) by (simpl; lia).
  split; [exact H1|]. split; [exact H2|].
  exact (move_settles_on_first_free listed_os 6 example_listing "/in/a.mp3"
           "/m/Abba/Arrival" "01 - Money.mp3" example_listing H1 H2).
Defined.

(** X20: [execute_changes] returns, and its counters add up, whenever the
    rounds given to each call of [move_and_rename_file] reach a free
    destination of its file, and the plan is a dictionary (no directory
    twice).  Every duplicate is counted as deleted or as failed.  A planned
    file is counted as moved or as failed exactly when its directory has no
    message "Failed to create directory: ..." in the list of errors; the
    files of a directory with such a message are counted as neither.  The
    list of errors has one message for each such directory, for each failed
    move and for each failed deletion. *)
Theorem execute_changes_accounts (os : OS)
    (fuel : World os → string → string → nat) (w : World os)
    (moves : list (string * list MoveEntry))
    (dups : list (string * list string)) :
  (∀ w dest_dir new_filename, ∃ k,
     (k ≤ fuel w dest_dir new_filename)%nat ∧
     os_path_exists os w (candidate dest_dir new_filename k) = false) →
  NoDup moves.*1 →
  ∃ r w',
    execute_changes os fuel w moves dups = Some (r, w') ∧
    (successful_moves r + failed_moves r =
       items_total
         (filter (λ kv, directory_message kv.1 ∉ errors r) moves))%nat ∧
    (successful_deletions r + failed_deletions r = items_total dups)%nat ∧
    (length (errors r) =
       length (filter (λ kv, directory_message kv.1 ∈ errors r) moves) +
       failed_moves r + failed_deletions r)%nat.
Proof.
  intros Hfuel Hnd.
  destruct (execute_changes_returns os fuel w moves dups Hfuel)
    as [[r w'] Hrun].
  exists r, w'. split; [done|].
  exact (execute_changes_counts os fuel w moves dups r w' Hnd Hrun).
Qed.

Lemma execute_changes_accounts_witness :
  (∀ w dest_dir new_filename, ∃ k,
     (k ≤ S (length w))%nat ∧
     os_path_exists readonly_os w (candidate dest_dir new_filename k) = false) ∧
  NoDup example_moves2.*1 ∧
  ∃ r w',
    execute_changes readonly_os (λ w _ _, S (length w)) example_listing
      example_moves2 example_duplicates2 = Some (r, w') ∧
    (successful_moves r + failed_moves r =
       items_total
         (filter (λ kv, directory_message kv.1 ∉ errors r) example_moves2))%nat ∧
    (successful_deletions r + failed_deletions r =
       items_total example_duplicates2)%nat ∧
    (length (errors r) =
       length (filter (λ kv, directory_message kv.1 ∈ errors r) example_moves2) +
       failed_moves r + failed_deletions r)%nat.
Proof.
  assert (H1 : ∀ (w : World readonly_os) dest_dir new_filename, ∃ k,
            (k ≤ S (length w))%nat ∧
            os_path_exists readonly_os w (candidate dest_dir new_filename k)
              = false)
    by exact listed_fuel.
  assert (H2 : NoDup example_moves2.*1)
    by (apply (bool_decide_unpack _); by vm_compute).
  split; [exact H1|]. split; [exact H2|].
  exact (execute_changes_accounts readonly_os (λ w _ _, S (length w))
           example_listing example_moves2 example_duplicates2 H1 H2).
Defined.

(** X21: a run of [execute_changes] that returns without a message has
    moved every planned file and deleted every duplicate. *)
Theorem run_without_errors_is_complete (os : OS) fuel (w w' : World os)
    (moves : list (string * list MoveEntry))
    (dups : list (string * list string)) (r : Results) :
  execute_changes os fuel w moves dups = Some (r, w') →
  errors r = [] →
  successful_moves r = items_total moves ∧ failed_moves r = 0%nat ∧
  successful_deletions r = items_total dups ∧ failed_deletions r = 0%nat.
Proof. apply execute_changes_clean. Qed.

Lemma run_without_errors_is_complete_witness :
  execute_changes listed_os (λ _ _ _, 6%nat) example_listing example_moves
    example_duplicates =
  Some (mkResults 2 0 1 0 [],
        ["/m/Abba/Arrival/01 - Money_3.mp3";
         "/m/Abba/Arrival/01 - Money_2.mp3";
         "/m/Abba/Arrival/01 - Money.mp3";
         "/m/Abba/Arrival/01 - Money_1.mp3"]) ∧
  errors (mkResults 2 0 1 0 []) = [] ∧
  successful_moves (mkResults 2 0 1 0 []) = items_total example_moves ∧
  failed_moves (mkResults 2 0 1 0 []) = 0%nat ∧
  successful_deletions (mkResults 2 0 1 0 []) =
    items_total example_duplicates ∧
  failed_deletions (mkResults 2 0 1 0 []) = 0%nat.
Proof.
  split; [exact example_execution|]. split; [reflexivity|].
  exact (run_without_errors_is_complete listed_os (λ _ _ _, 6%nat)
           example_listing _ example_moves example_duplicates _
           example_execution eq_refl).
Defined.
